(** * The configuration-search harness of [config_optimization/optimize.py]

    A shallow embedding of the search driver, its leaves (configuration
    editor, result parser, load runner, candidate generator) and the report
    summary, followed by the properties the specification states about them.

    Conventions of the embedding:
    - a Python [float] is an IEEE-754 binary64 value ([spec_float] at
      precision 53 and maximal exponent 1024, round to nearest even);
    - a Python [int] is a [Z];
    - a Python [str] is a [string] whose characters stand for code points
      0..255, one character per code point;
    - a [dict] with string keys is a [gmap string _];
    - an exception that a [try] block swallows is an [option] or an explicit
      outcome; a mutation that survives the exception is kept in the state. *)

From Stdlib Require Import ZArith Lia Bool List Ascii String Sorted.
From Stdlib Require Import Floats.SpecFloat Numbers.DecimalString.
From stdpp Require Import gmap strings list.

Local Open Scope Z_scope.

(* ===================================================================== *)
(** * Python floats                                                       *)
(* ===================================================================== *)

Module PyFloat.

Definition prec : Z := 53.
Definition emax : Z := 1024.

Abbreviation float := spec_float.

Definition fadd : float -> float -> float := SFadd prec emax.
Definition fsub : float -> float -> float := SFsub prec emax.
Definition fmul : float -> float -> float := SFmul prec emax.
Definition fdiv : float -> float -> float := SFdiv prec emax.

(** [a < b], [a > b], [a <= b] and [a == b] on floats. *)
Definition flt (a b : float) : bool := SFltb a b.
Definition fgt (a b : float) : bool := SFltb b a.
Definition fle (a b : float) : bool := SFleb a b.
Definition feq (a b : float) : bool := SFeqb a b.

Definition is_nan (a : float) : bool :=
  match a with S754_nan => true | _ => false end.

Definition fzero : float := S754_zero false.

(** [float(n)] for an integer that fits the format; an integer is converted
    with correct rounding. *)
Definition of_Z (n : Z) : float := binary_normalize prec emax n 0 false.

(** An integer as an unrounded operand of a division. *)
Definition exact (n : Z) : float :=
  match n with
  | Z0 => S754_zero false
  | Zpos p => S754_finite false p 0
  | Zneg p => S754_finite true p 0
  end.

(** [a / b] on two Python ints: the correctly rounded quotient;
    [None] stands for ZeroDivisionError or OverflowError. *)
Definition int_true_div (a b : Z) : option float :=
  if b =? 0 then None
  else match fdiv (exact a) (exact b) with
       | S754_infinity _ => None
       | q => Some q
       end.

(** [int(x)] on a float: truncation toward zero; [None] stands for the
    ValueError / OverflowError raised on NaN and infinities. *)
Definition to_Z (x : float) : option Z :=
  match x with
  | S754_zero _ => Some 0
  | S754_finite s m e =>
      let a := match e with
               | Zneg _ => Z.shiftr (Zpos m) (- e)
               | _ => Z.shiftl (Zpos m) e
               end in
      Some (if s then - a else a)
  | _ => None
  end.

(** The key of a float in the order that [SFcompare] decides: the class
    (infinities, negative, zero, positive), then exponent and mantissa. *)
Definition key (x : float) : option (Z * Z * Z) :=
  match x with
  | S754_nan => None
  | S754_infinity true => Some (-2, 0, 0)
  | S754_infinity false => Some (2, 0, 0)
  | S754_zero _ => Some (0, 0, 0)
  | S754_finite true m e => Some (-1, - e, - Zpos m)
  | S754_finite false m e => Some (1, e, Zpos m)
  end.

Definition lex_lt (a b : Z * Z * Z) : Prop :=
  let '(a1, a2, a3) := a in
  let '(b1, b2, b3) := b in
  a1 < b1 \/ (a1 = b1 /\ (a2 < b2 \/ (a2 = b2 /\ a3 < b3))).

Definition lex_le (a b : Z * Z * Z) : Prop := lex_lt a b \/ a = b.

End PyFloat.

(* ===================================================================== *)
(** * Python text: character classes, [int(str)] and [float(str)]         *)
(* ===================================================================== *)

Module PyText.
Import PyFloat.

Definition code (c : ascii) : N := N_of_ascii c.

Definition is_digit (c : ascii) : bool :=
  ((48 <=? code c) && (code c <=? 57))%N.

Definition digit_val (c : ascii) : Z := Z.of_N (code c) - 48.

(** The characters [float()] and [int()] strip at both ends. *)
Definition is_strip_space (c : ascii) : bool :=
  match code c with
  | 9 | 10 | 11 | 12 | 13 | 32 | 133 | 160 => true
  | _ => false
  end%N.

Definition lower (c : ascii) : ascii :=
  if ((65 <=? code c) && (code c <=? 90))%N
  then ascii_of_N (code c + 32) else c.

Fixpoint span {A : Type} (p : A -> bool) (l : list A) : list A * list A :=
  match l with
  | c :: l' => if p c then let '(a, b) := span p l' in (c :: a, b) else ([], l)
  | [] => ([], [])
  end.

Definition lstrip (l : list ascii) : list ascii := snd (span is_strip_space l).
Definition strip (l : list ascii) : list ascii := rev (lstrip (rev (lstrip l))).

Definition is_underscore (c : ascii) : bool := (code c =? 95)%N.
Definition is_digit_or_us (c : ascii) : bool := is_digit c || is_underscore c.

(** A block of digits and underscores is a [digitpart] when it is not
    empty and every underscore stands between two digits. *)
Fixpoint digits_ok (after_us : bool) (l : list ascii) : bool :=
  match l with
  | [] => negb after_us
  | c :: l' =>
      if is_digit c then digits_ok false l'
      else negb after_us && digits_ok true l'
  end.

Definition digitpart_ok (blk : list ascii) : bool :=
  match blk with
  | c :: _ => is_digit c && digits_ok true blk
  | [] => false
  end.

Definition digits_of (blk : list ascii) : list ascii := filter (fun c => is_digit c = true) blk.

Definition Z_of_digits (ds : list ascii) : Z :=
  fold_left (fun acc c => 10 * acc + digit_val c) ds 0.

Definition parse_sign (l : list ascii) : bool * list ascii :=
  match l with
  | c :: r => if (code c =? 45)%N then (true, r)
              else if (code c =? 43)%N then (false, r)
              else (false, l)
  | [] => (false, l)
  end.

(** [int(s)] on a string, base 10; [None] is ValueError. *)
Definition py_int_str (s : string) : option Z :=
  let '(neg, l) := parse_sign (strip (list_ascii_of_string s)) in
  if digitpart_ok l && forallb is_digit_or_us l
  then let n := Z_of_digits (digits_of l) in Some (if neg then - n else n)
  else None.

Definition is_e (c : ascii) : bool := (code c =? 101)%N || (code c =? 69)%N.
Definition is_dot (c : ascii) : bool := (code c =? 46)%N.

(** The decimal number [±d * 10^e] rounded to the nearest float. *)
Definition decimal_to_float (neg : bool) (d e : Z) : float :=
  let sd := if neg then - d else d in
  if d =? 0 then S754_zero neg
  else if 0 <=? e then binary_normalize prec emax (sd * 10 ^ e) 0 neg
  else fdiv (exact sd) (exact (10 ^ (- e))).

(** The optional exponent of a float literal: its value and validity. *)
Definition parse_exponent (r : list ascii) : option Z :=
  match r with
  | [] => Some 0
  | c :: r' =>
      if is_e c then
        let '(neg, ds) := parse_sign r' in
        if digitpart_ok ds && forallb is_digit_or_us ds
        then let n := Z_of_digits (digits_of ds) in Some (if neg then - n else n)
        else None
      else None
  end.

Definition opt_block_ok (blk : list ascii) : bool :=
  match blk with [] => true | _ => digitpart_ok blk end.

(** [float(s)] on a string; [None] is ValueError. *)
Definition py_float_str (s : string) : option float :=
  let '(neg, l) := parse_sign (strip (list_ascii_of_string s)) in
  let low := string_of_list_ascii (map lower l) in
  if (low =? "inf")%string || (low =? "infinity")%string then Some (S754_infinity neg)
  else if (low =? "nan")%string then Some S754_nan
  else
    let '(ib, r1) := span is_digit_or_us l in
    let '(fb, r2) :=
      match r1 with
      | c :: r => if is_dot c then span is_digit_or_us r else ([], r1)
      | [] => ([], r1)
      end in
    if opt_block_ok ib && opt_block_ok fb
       && negb (Nat.eqb (List.length ib + List.length fb) 0)
    then
      match parse_exponent r2 with
      | Some ex =>
          let fd := digits_of fb in
          Some (decimal_to_float neg (Z_of_digits (digits_of ib ++ fd))
                                  (ex - Z.of_nat (List.length fd)))
      | None => None
      end
    else None.

(** [str(n)] on an int. *)
Definition py_str_int (n : Z) : string := NilZero.string_of_int (Z.to_int n).

End PyText.

(* ===================================================================== *)
(** * ConfigEditor: [apply_nginx_config]                                  *)
(* ===================================================================== *)

Module ConfigEditor.
Import PyText.

(** A Python [str]: its characters, by code point. *)
Definition text : Type := list N.

(** A literal of the source, all of whose characters are ASCII. *)
Definition chars (s : string) : text := map N_of_ascii (list_ascii_of_string s).

Definition char_eqb (a b : N) : bool := (a =? b)%N.

Definition in_ranges (ranges : list (N * N)) (c : N) : bool :=
  existsb (fun r => (fst r <=? c)%N && (c <=? snd r)%N) ranges.

(** The class [\s] of [re] on a [str] pattern: the characters for which
    [str.isspace] holds. *)
Definition space_ranges : list (N * N) :=
  [(9, 13); (28, 32); (133, 133); (160, 160); (5760, 5760); (8192, 8202);
   (8232, 8233); (8239, 8239); (8287, 8287); (12288, 12288)]%N.

(** The class [\d] of [re] on a [str] pattern: the decimal digits of
    Unicode (category Nd, Unicode 14). *)
Definition decimal_ranges : list (N * N) :=
  [(48, 57); (1632, 1641); (1776, 1785); (1984, 1993); (2406, 2415);
   (2534, 2543); (2662, 2671); (2790, 2799); (2918, 2927); (3046, 3055);
   (3174, 3183); (3302, 3311); (3430, 3439); (3558, 3567); (3664, 3673);
   (3792, 3801); (3872, 3881); (4160, 4169); (4240, 4249); (6112, 6121);
   (6160, 6169); (6470, 6479); (6608, 6617); (6784, 6793); (6800, 6809);
   (6992, 7001); (7088, 7097); (7232, 7241); (7248, 7257); (42528, 42537);
   (43216, 43225); (43264, 43273); (43472, 43481); (43504, 43513);
   (43600, 43609); (44016, 44025); (65296, 65305); (66720, 66729);
   (68912, 68921); (69734, 69743); (69872, 69881); (69942, 69951);
   (70096, 70105); (70384, 70393); (70736, 70745); (70864, 70873);
   (71248, 71257); (71360, 71369); (71472, 71481); (71904, 71913);
   (72016, 72025); (72784, 72793); (73040, 73049); (73120, 73129);
   (92768, 92777); (92864, 92873); (93008, 93017); (120782, 120831);
   (123200, 123209); (123632, 123641); (125264, 125273); (130032, 130041)]%N.

Definition re_space (c : N) : bool := in_ranges space_ranges c.
Definition re_digit (c : N) : bool := in_ranges decimal_ranges c.

(** [l] starts with the literal [p]: the text after it. *)
Fixpoint strip_prefix (p l : text) : option text :=
  match p, l with
  | [], _ => Some l
  | a :: p', b :: l' => if char_eqb a b then strip_prefix p' l' else None
  | _ :: _, [] => None
  end.

Definition semicolon : N := 59%N.
Definition close_brace : N := 125%N.

(** One attempt of the pattern [name\s+\d+;] at the head of [l]: the
    length of the matched text.  The three classes are disjoint, so the
    greedy runs are the only way to match. *)
Definition match_directive (name : text) (l : text) : option nat :=
  match strip_prefix name l with
  | Some rest =>
      let '(ws, r1) := span re_space rest in
      let '(ds, r2) := span re_digit r1 in
      match ws, ds, r2 with
      | _ :: _, _ :: _, c :: _ =>
          if char_eqb c semicolon
          then Some (List.length name + List.length ws + List.length ds + 1)%nat
          else None
      | _, _, _ => None
      end
  | None => None
  end.

(** [re.sub] with a pattern whose matches are never empty: scan from the
    left; at a match emit the replacement and resume after the match, else
    copy one character.  [skip] counts the characters of the current match
    that are still to be passed over. *)
Fixpoint sub_loop (m : text -> option (nat * text))
    (skip : nat) (l : text) : text :=
  match l with
  | [] => []
  | c :: l' =>
      match skip with
      | S k => sub_loop m k l'
      | O =>
          match m l with
          | Some (n, repl) => repl ++ sub_loop m (Nat.pred n) l'
          | None => c :: sub_loop m 0 l'
          end
      end
  end.

Definition re_sub (m : text -> option (nat * text)) (l : text) : text :=
  sub_loop m 0 l.

(** [re.sub(r'name\s+\d+;', f"name {value};", content)] *)
Definition sub_directive (name : string) (value : Z) (content : text) : text :=
  re_sub (fun l =>
            match match_directive (chars name) l with
            | Some n => Some (n, chars name ++ chars " " ++ chars (py_str_int value) ++ [semicolon])
            | None => None
            end) content.

(** The tail [keepalive\s+ \d+ \s*;] at the head of [l]: the lengths of
    the text up to the digits, of the digits, and of the closing group. *)
Definition match_keepalive_tail (l : text) : option (nat * nat * nat) :=
  match strip_prefix (chars "keepalive") l with
  | Some rest =>
      let '(ws, r1) := span re_space rest in
      let '(ds, r2) := span re_digit r1 in
      let '(ws2, r3) := span re_space r2 in
      match ws, ds, r3 with
      | _ :: _, _ :: _, c :: _ =>
          if char_eqb c semicolon
          then Some (9 + List.length ws, List.length ds, List.length ws2 + 1)%nat
          else None
      | _, _, _ => None
      end
  | None => None
  end.

(** The greedy [[^}]*] followed by the tail: the last offset, before the
    first closing brace, at which the tail matches. *)
Fixpoint find_last_keepalive (l : text) : option (nat * (nat * nat * nat)) :=
  match l with
  | [] => None
  | c :: l' =>
      if char_eqb c close_brace then None
      else match find_last_keepalive l' with
           | Some (p, x) => Some (S p, x)
           | None =>
               match match_keepalive_tail l with
               | Some x => Some (O, x)
               | None => None
               end
           end
  end.

Definition upstream_open : text := chars "upstream backend {".

(** One attempt of
    [(upstream backend \{[^}]*keepalive\s+)\d+(\s*;)] at the head of [l],
    with the text [_replace_keepalive] returns for it. *)
Definition match_upstream (value : Z) (l : text) : option (nat * text) :=
  match strip_prefix upstream_open l with
  | Some rest =>
      match find_last_keepalive rest with
      | Some (p, (n1, nd, n2)) =>
          let g1 := (List.length upstream_open + p + n1)%nat in
          let prefix := firstn g1 l in
          let suffix := firstn n2 (skipn (g1 + nd)%nat l) in
          Some (g1 + nd + n2, prefix ++ chars (py_str_int value) ++ suffix)%nat
      | None => None
      end
  | None => None
  end.

Definition sub_upstream (value : Z) (content : text) : text :=
  re_sub (match_upstream value) content.

(** The three substitutions, each under its [if key in config]. *)
Definition rewrite_content (config : gmap string Z) (content : text) : text :=
  let c1 := match config !! "worker_connections"%string with
            | Some v => sub_directive "worker_connections" v content
            | None => content
            end in
  let c2 := match config !! "keepalive_timeout"%string with
            | Some v => sub_directive "keepalive_timeout" v c1
            | None => c1
            end in
  match config !! "upstream_keepalive"%string with
  | Some v => sub_upstream v c2
  | None => c2
  end.

Definition line_feed : N := 10%N.
Definition carriage_return : N := 13%N.

(** [f.read()] on a file opened with [open(path, 'r', encoding='utf-8')]:
    text mode with the default [newline], so the line ends [\r\n] and
    [\r] of the file come back as [\n]. *)
Fixpoint read_text (l : text) : text :=
  match l with
  | [] => []
  | c :: l' =>
      if char_eqb c carriage_return
      then line_feed ::
           match l' with
           | c' :: l'' => if char_eqb c' line_feed then read_text l'' else read_text l'
           | [] => []
           end
      else c :: read_text l'
  end.

(** [os.linesep].  The optimizer starts [run_test_with_balancer.sh] as a
    program and drives [docker compose]: its host is a POSIX system. *)
Definition os_linesep : text := [line_feed].

(** [f.write(content)] on a file opened with
    [open(path, 'w', encoding='utf-8')]: each [\n] is written as
    [os.linesep]. *)
Definition write_text (l : text) : text :=
  flat_map (fun c => if char_eqb c line_feed then os_linesep else [c]) l.

(** The file at [nginx_config_path] is the text stored in it, as decoded;
    [None] when the file cannot be opened or decoded.  Returns the boolean
    of the function and the file afterwards. *)
Definition apply_nginx_config (config : gmap string Z) (file : option text)
    : bool * option text :=
  match file with
  | Some content =>
      (true, Some (write_text (rewrite_content config (read_text content))))
  | None => (false, None)
  end.

End ConfigEditor.

(* ===================================================================== *)
(** * Metrics and the ResultParser: [parse_locust_results]                *)
(* ===================================================================== *)

Module ResultParser.
Import PyFloat PyText.

(** The metrics dict.  ['rps'] is present in every dict the program builds;
    the other keys are present or absent depending on the producer. *)
Record Metrics := mkMetrics {
  rps : float;
  avg_response_time : option float;
  total_requests : option Z;
  success_rate : option float;
  error : option string
}.

(** The initial value of [metrics] in [parse_locust_results]. *)
Definition zero_metrics : Metrics :=
  mkMetrics fzero (Some fzero) (Some 0) (Some fzero) None.

Definition set_rps (x : float) (m : Metrics) : Metrics :=
  mkMetrics x (avg_response_time m) (total_requests m) (success_rate m) (error m).
Definition set_avg_response_time (x : float) (m : Metrics) : Metrics :=
  mkMetrics (rps m) (Some x) (total_requests m) (success_rate m) (error m).
Definition set_total_requests (n : Z) (m : Metrics) : Metrics :=
  mkMetrics (rps m) (avg_response_time m) (Some n) (success_rate m) (error m).
Definition set_success_rate (x : float) (m : Metrics) : Metrics :=
  mkMetrics (rps m) (avg_response_time m) (total_requests m) (Some x) (error m).

(** What the [csv] reader yields for one line: a list of fields, or an
    exception (decoding error, malformed quoting). *)
Inductive read_item :=
| Row (fields : list string)
| ReadError.

(** The file at [stats_file]: it cannot be opened, or it yields items. *)
Inductive artifact :=
| Unreadable
| Readable (items : list read_item).

(** The dict [csv.DictReader] builds for a data row: [dict(zip(fieldnames,
    row))], then [restval = None] for the field names the row is too short
    for.  A value [None] of the map is Python's [None]. *)
Definition row_dict (fieldnames row : list string) : gmap string (option string) :=
  let d := fold_left (fun d kv => <[fst kv := Some (snd kv)]> d)
                     (combine fieldnames row) (∅ : gmap string (option string)) in
  fold_left (fun d k => <[k := None]> d) (skipn (List.length row) fieldnames) d.

(** The argument of a conversion [float(row.get(k, 0))]. *)
Inductive pyarg :=
| ArgDefault            (* the key is absent: the default [0] *)
| ArgNone               (* the value is [None] *)
| ArgStr (s : string).

Definition row_get0 (d : gmap string (option string)) (k : string) : pyarg :=
  match d !! k with
  | None => ArgDefault
  | Some None => ArgNone
  | Some (Some s) => ArgStr s
  end.

(** [row.get(k) == 'Aggregated'] *)
Definition field_is (d : gmap string (option string)) (k v : string) : bool :=
  match d !! k with
  | Some (Some s) => String.eqb s v
  | _ => false
  end.

Definition is_aggregated (d : gmap string (option string)) : bool :=
  field_is d "Type" "Aggregated" || field_is d "Name" "Aggregated".

(** [float(.)] and [int(.)]; [None] is the TypeError or ValueError. *)
Definition py_float (a : pyarg) : option float :=
  match a with
  | ArgDefault => Some (of_Z 0)
  | ArgNone => None
  | ArgStr s => py_float_str s
  end.

Definition py_int (a : pyarg) : option Z :=
  match a with
  | ArgDefault => Some 0
  | ArgNone => None
  | ArgStr s => py_int_str s
  end.

(** Statements that update [metrics] in place and may raise: the state
    reached before the exception is kept. *)
Definition Exc (A : Type) : Type := Metrics -> Metrics * option A.

Definition ret {A} (a : A) : Exc A := fun m => (m, Some a).
Definition bind {A B} (c : Exc A) (k : A -> Exc B) : Exc B :=
  fun m => match c m with
           | (m', Some a) => k a m'
           | (m', None) => (m', None)
           end.
Definition lift {A} (o : option A) : Exc A := fun m => (m, o).
Definition assign (f : Metrics -> Metrics) : Exc unit := fun m => (f m, Some tt).

Notation "x <- c ;; k" := (bind c (fun x => k))
  (at level 100, c at next level, right associativity).
Notation "c ;;; k" := (bind c (fun _ => k))
  (at level 100, right associativity).

(** The body of the [if] for the aggregated row, up to the [break]. *)
Definition read_aggregated (d : gmap string (option string)) : Exc unit :=
  r <- lift (py_float (row_get0 d "Requests/s")) ;;
  assign (set_rps r) ;;;
  a <- lift (py_float (row_get0 d "Average Response Time")) ;;
  assign (set_avg_response_time a) ;;;
  total <- lift (py_int (row_get0 d "Request Count")) ;;
  failures <- lift (py_int (row_get0 d "Failure Count")) ;;
  if total >? 0 then
    assign (set_total_requests total) ;;;
    q <- lift (int_true_div (total - failures) total) ;;
    assign (set_success_rate (fmul q (of_Z 100)))
  else ret tt.

(** The [for row in reader] loop.  Blank rows are skipped by the reader;
    the first aggregated row ends the loop, by [break] or by the exception
    a conversion raises; an exception of the reader ends it too. *)
Fixpoint scan (fieldnames : list string) (items : list read_item) (m : Metrics) : Metrics :=
  match items with
  | [] => m
  | ReadError :: _ => m
  | Row [] :: rest => scan fieldnames rest m
  | Row r :: rest =>
      let d := row_dict fieldnames r in
      if is_aggregated d then fst (read_aggregated d m)
      else scan fieldnames rest m
  end.

Definition parse_locust_results (stats_file : artifact) : Metrics :=
  match stats_file with
  | Unreadable => zero_metrics
  | Readable [] => zero_metrics
  | Readable (ReadError :: _) => zero_metrics
  | Readable (Row fieldnames :: rest) => scan fieldnames rest zero_metrics
  end.

End ResultParser.

(* ===================================================================== *)
(** * LoadRunner: [run_load_test]                                         *)
(* ===================================================================== *)

Module LoadRunner.
Import PyFloat ResultParser.

(** The external load-generation script, as [subprocess.run] sees it. *)
Inductive process :=
| Exits (elapsed : Z)        (* terminates after [elapsed] seconds *)
| Hangs                      (* never terminates *)
| LaunchFails (msg : string) (* [subprocess.run] raises another exception *).

Inductive run_result :=
| Finished
| TimeoutExpired
| OtherError (msg : string).

(** [subprocess.run(..., timeout=t)] without [check=True]: the exit code is
    not looked at. *)
Definition subprocess_run (p : process) (timeout : Z) : run_result :=
  match p with
  | Exits elapsed => if elapsed <=? timeout then Finished else TimeoutExpired
  | Hangs => TimeoutExpired
  | LaunchFails msg => OtherError msg
  end.

(** A file matching [test_*_stats.csv], with its modification time. *)
Record stats_file := mkStats { st_mtime : Z; content : artifact }.

Record load_world := mkLoadWorld {
  script : process;
  results_dir_exists : bool;
  glob_stats : list stats_file   (* in the order [glob] yields them *)
}.

(** [sorted(..., key=mtime, reverse=True)]: stable, newest first. *)
Fixpoint insert_desc (x : stats_file) (l : list stats_file) : list stats_file :=
  match l with
  | [] => [x]
  | y :: l' => if st_mtime y >? st_mtime x then y :: insert_desc x l' else x :: l
  end.

Definition sorted_newest_first (l : list stats_file) : list stats_file :=
  fold_right insert_desc [] l.

Definition error_metrics (msg : string) : Metrics :=
  mkMetrics fzero None None None (Some msg).

(** The error texts, kept as the UTF-8 bytes of the source literals. *)
Definition msg_no_dir : string := "Директория результатов не найдена".
Definition msg_no_csv : string := "CSV файл результатов не найден".
Definition msg_timeout : string := "Тест превысил максимальное время".
Definition msg_other (e : string) : string := "Ошибка: " ++ e.

Definition run_load_test (users spawn_rate duration : Z) (w : load_world) : Metrics :=
  match subprocess_run (script w) (duration + 120) with
  | Finished =>
      if negb (results_dir_exists w) then error_metrics msg_no_dir
      else match sorted_newest_first (glob_stats w) with
           | [] => error_metrics msg_no_csv
           | newest :: _ => parse_locust_results (content newest)
           end
  | TimeoutExpired => error_metrics msg_timeout
  | OtherError e => error_metrics (msg_other e)
  end.

End LoadRunner.

(* ===================================================================== *)
(** * Candidate generation: [generate_grid_configs], shuffle, truncation  *)
(* ===================================================================== *)

Module Grid.
Import PyFloat.

(** A configuration [{'nginx': {...}}]: the inner dict of parameters. *)
Record Config := mkConfig { nginx : gmap string Z }.

Definition nginx_params (wc kt uk : Z) : gmap string Z :=
  <["worker_connections"%string := wc]>
    (<["keepalive_timeout"%string := kt]>
      (<["upstream_keepalive"%string := uk]> ∅)).

Definition get_default_config : Config := mkConfig (nginx_params 1024 65 32).

(** [l[:n]] for any int [n]. *)
Definition slice_to {A} (l : list A) (n : Z) : list A :=
  if n <? 0 then firstn (Z.to_nat (Z.of_nat (List.length l) + n)) l
  else firstn (Z.to_nat n) l.

(** [range(n)] *)
Definition range (n : Z) : list Z := map Z.of_nat (seq 0 (Z.to_nat n)).

(** A sample of an axis before [int(.)]: an int of the fixed table or the
    float [lo + i * (hi - lo) / (grid_size - 1)]. *)
Inductive sample :=
| SInt (n : Z)
| SFloat (x : float).

(** [None] is the exception a division or a conversion raises. *)
Definition spaced (lo hi grid_size i : Z) : option sample :=
  match int_true_div (i * (hi - lo)) (grid_size - 1) with
  | Some q => Some (SFloat (fadd (of_Z lo) q))
  | None => None
  end.

Fixpoint all_some {A} (l : list (option A)) : option (list A) :=
  match l with
  | [] => Some []
  | Some a :: l' => match all_some l' with Some r => Some (a :: r) | None => None end
  | None :: _ => None
  end.

Definition axis_values (fixed : list Z) (lo hi grid_size : Z) : option (list sample) :=
  if grid_size <=? 4 then Some (map SInt (slice_to fixed grid_size))
  else all_some (map (spaced lo hi grid_size) (range grid_size)).

(** [int(v)] *)
Definition py_int_sample (v : sample) : option Z :=
  match v with
  | SInt n => Some n
  | SFloat x => to_Z x
  end.

Definition make_config (wc kt uk : sample) : option Config :=
  match py_int_sample wc, py_int_sample kt, py_int_sample uk with
  | Some a, Some b, Some c => Some (mkConfig (nginx_params a b c))
  | _, _, _ => None
  end.

(** The three nested loops, in their order. *)
Definition cross (wcs kts uks : list sample) : list (option Config) :=
  flat_map (fun wc => flat_map (fun kt => map (fun uk => make_config wc kt uk) uks) kts) wcs.

Definition generate_grid_configs (grid_size : Z) : option (list Config) :=
  match axis_values [512; 1024; 1536; 2048] 512 2048 grid_size,
        axis_values [30; 60; 90; 120] 30 120 grid_size,
        axis_values [16; 32; 48; 64] 16 64 grid_size with
  | Some wcs, Some kts, Some uks => all_some (cross wcs kts uks)
  | _, _, _ => None
  end.

(** [x[i], x[j] = x[j], x[i]] *)
Definition swap {A} (l : list A) (i j : nat) : list A :=
  match l !! i, l !! j with
  | Some a, Some b => <[i := b]> (<[j := a]> l)
  | _, _ => l
  end.

(** [random.shuffle]: for [i] from [len - 1] down to [1], exchange [x[i]]
    with [x[randbelow(i + 1)]].  [rnd i] is the raw draw of step [i]. *)
Fixpoint shuffle_from {A} (rnd : nat -> nat) (i : nat) (l : list A) : list A :=
  match i with
  | O => l
  | S i' => shuffle_from rnd i' (swap l i (rnd i mod (i + 1))%nat)
  end.

Definition shuffle {A} (rnd : nat -> nat) (l : list A) : list A :=
  shuffle_from rnd (List.length l - 1)%nat l.

(** [if len(configs) > iterations: configs = configs[:iterations]] *)
Definition truncate {A} (iterations : Z) (l : list A) : list A :=
  if Z.of_nat (List.length l) >? iterations then slice_to l iterations else l.

(** The candidate list of [main]. *)
Definition candidates (rnd : nat -> nat) (grid_size iterations : Z) : option (list Config) :=
  match generate_grid_configs grid_size with
  | Some configs => Some (truncate iterations (shuffle rnd configs))
  | None => None
  end.

End Grid.

(* ===================================================================== *)
(** * EnvironmentController: [reset_system]                               *)
(* ===================================================================== *)

Module Environment.

(** Whether each [docker compose] command of a reset exits with status 0.
    The readiness poll and the table clearing never change the result. *)
Record compose := mkCompose {
  down_ok : bool;      (* docker compose down *)
  down_v_ok : bool;    (* docker compose down -v *)
  up_ok : bool         (* docker compose up -d *)
}.

Definition reset_system (full_reset : bool) (w : compose) : bool :=
  if negb (down_ok w) then false
  else if full_reset && negb (down_v_ok w) then false
  else up_ok w.

End Environment.

(* ===================================================================== *)
(** * ReportGenerator: the summary figures of [generate_report]           *)
(* ===================================================================== *)

Module Report.
Import PyFloat ResultParser Grid.

Record IterationRecord := mkRecord {
  iteration : Z;
  config : Config;
  metrics : Metrics
}.

(** A Python number that is either the int literal or a float. *)
Inductive pynum :=
| PyInt (n : Z)
| PyFloat (x : float).

(** [improvement = 0; if initial_rps > 0: improvement = ((best_rps -
    initial_rps) / initial_rps) * 100] *)
Definition improvement_of (best_rps initial_rps : float) : pynum :=
  if fgt initial_rps fzero
  then PyFloat (fmul (fdiv (fsub best_rps initial_rps) initial_rps) (of_Z 100))
  else PyInt 0.

(** [max(l, key=k)]: the first item is the running maximum, a later item
    replaces it when its key compares greater; [None] is the ValueError on
    an empty sequence. *)
Definition py_max {A} (k : A -> float) (l : list A) : option A :=
  match l with
  | [] => None
  | x :: rest =>
      Some (fold_left (fun best y => if fgt (k y) (k best) then y else best) rest x)
  end.

Definition record_rps (r : IterationRecord) : float := rps (metrics r).

Record Summary := mkSummary {
  best_iter : IterationRecord;
  best_rps : float;
  initial_rps : float;
  improvement : pynum;
  rows : list IterationRecord
}.

(** The figures the report is rendered from; [None] is the exception of
    [max] on an empty history. *)
Definition generate_report (history : list IterationRecord) : option Summary :=
  match py_max record_rps history, history with
  | Some b, first :: _ =>
      Some (mkSummary b (record_rps b) (record_rps first)
                      (improvement_of (record_rps b) (record_rps first)) history)
  | _, _ => None
  end.

End Report.

(* ===================================================================== *)
(** * SearchDriver: [main]                                                *)
(* ===================================================================== *)

Module Driver.
Import PyFloat ResultParser LoadRunner Grid Environment Report.

Record Args := mkArgs {
  iterations : Z;
  grid_size : Z;
  test_users : Z;
  test_spawn_rate : Z;
  test_duration : Z;
  full_reset : bool
}.

(** What the environment does during one iteration.  An interruption or
    another exception is placed where the helpers of the baseline test or
    of a candidate iteration run; the steps that follow the loop, the
    report and the dump of the history, run to their end. *)
Inductive trial :=
| Runs (c : compose) (w : load_world)  (* the helpers return *)
| Interrupts                           (* KeyboardInterrupt before the record is appended *)
| Crashes.                             (* another exception escapes a helper *)

Record World := mkWorld {
  rnd : nat -> nat;              (* the draws of [random.shuffle] *)
  nginx_conf : option ConfigEditor.text;  (* the file nginx.conf, [None] if unreadable *)
  baseline : trial;
  trials : Z -> trial            (* by iteration index *)
}.

(** The variables of [main] that the loop updates. *)
Record State := mkState {
  conf : option ConfigEditor.text;
  history : list IterationRecord;
  cur_best_rps : float;
  cur_best_config : Config
}.

Inductive loop_exit :=
| Exhausted
| Interrupted
| Crashed.

(** One pass through the body of the [for] loop, for an [iteration] that is
    within [configs]; [None] as exit means the loop goes on. *)
Definition loop_body (a : Args) (t : trial) (iteration : Z) (c : Config) (st : State)
    : State * option loop_exit :=
  let conf' := snd (ConfigEditor.apply_nginx_config (nginx c) (conf st)) in
  let st1 := mkState conf' (history st) (cur_best_rps st) (cur_best_config st) in
  match t with
  | Interrupts => (st1, Some Interrupted)
  | Crashes => (st1, Some Crashed)
  | Runs cw lw =>
      if negb (reset_system false cw) then (st1, None)
      else
        let m := run_load_test (test_users a) (test_spawn_rate a) (test_duration a) lw in
        let h := history st ++ [mkRecord iteration c m] in
        if fgt (rps m) (cur_best_rps st)
        then (mkState conf' h (rps m) c, None)
        else (mkState conf' h (cur_best_rps st) (cur_best_config st), None)
  end.

(** [for iteration in range(1, iterations + 1)] over the remaining indices. *)
Fixpoint search_loop (a : Args) (w : World) (configs : list Config)
    (indices : list Z) (st : State) : State * loop_exit :=
  match indices with
  | [] => (st, Exhausted)
  | iteration :: later =>
      if iteration >? Z.of_nat (List.length configs) then (st, Exhausted)
      else match configs !! Z.to_nat (iteration - 1) with
           | None => (st, Crashed)
           | Some c =>
               match loop_body a (trials w iteration) iteration c st with
               | (st', None) => search_loop a w configs later st'
               | (st', Some e) => (st', e)
               end
           end
  end.

(** [range(1, n + 1)] *)
Definition range1 (n : Z) : list Z := map (fun i => Z.of_nat i + 1) (seq 0 (Z.to_nat n)).

Inductive status :=
| Completed        (* report generated, history persisted *)
| Aborted          (* the first reset failed: [return] *)
| Stopped          (* KeyboardInterrupt handled *)
| Failed           (* another exception handled and logged *)
| Uncaught.        (* an exception raised outside the [try] *)

Record Outcome := mkOutcome {
  exit : status;
  final_history : list IterationRecord;
  final_best : option (float * Config * pynum);  (* best_rps, best_config, improvement *)
  report : option Summary;
  written : list (string * list IterationRecord)  (* the JSON files dumped, by file name *)
}.

Definition history_file : string := "optimization_history.json".
Definition partial_history_file : string := "optimization_history_partial.json".

(** The handler of [KeyboardInterrupt]. *)
Definition on_interrupt (h : list IterationRecord) : Outcome :=
  mkOutcome Stopped h None None
            (match h with [] => [] | _ :: _ => [(partial_history_file, h)] end).

Definition on_exception (h : list IterationRecord) : Outcome :=
  mkOutcome Failed h None None [].

(** Steps 3 and 4 of [main], after the baseline record. *)
Definition finish (st : State) (initial_rps : float) : Outcome :=
  let imp := improvement_of (cur_best_rps st) initial_rps in
  match generate_report (history st) with
  | Some s =>
      mkOutcome Completed (history st)
                (Some (cur_best_rps st, cur_best_config st, imp))
                (Some s) [(history_file, history st)]
  | None => on_exception (history st)
  end.

(** The state on entry of the loop. *)
Definition initial_state (conf0 : option ConfigEditor.text) (initial_metrics : Metrics) : State :=
  mkState conf0 [mkRecord 0 get_default_config initial_metrics]
          (rps initial_metrics) get_default_config.

Definition main (a : Args) (w : World) : Outcome :=
  match candidates (rnd w) (grid_size a) (iterations a) with
  | None => mkOutcome Uncaught [] None None []
  | Some configs =>
      let conf0 := snd (ConfigEditor.apply_nginx_config (nginx get_default_config) (nginx_conf w)) in
      match baseline w with
      | Interrupts => on_interrupt []
      | Crashes => on_exception []
      | Runs cw lw =>
          if negb (reset_system (full_reset a) cw)
          then mkOutcome Aborted [] None None []
          else
            let initial_metrics :=
              run_load_test (test_users a) (test_spawn_rate a) (test_duration a) lw in
            let st0 := initial_state conf0 initial_metrics in
            match search_loop a w configs (range1 (iterations a)) st0 with
            | (st, Exhausted) => finish st (rps initial_metrics)
            | (st, Interrupted) => on_interrupt (history st)
            | (st, Crashed) => on_exception (history st)
            end
      end
  end.

End Driver.

(* ===================================================================== *)
(** * Definitions used to state the properties                            *)
(* ===================================================================== *)

Import PyFloat PyText ConfigEditor ResultParser LoadRunner Grid Environment Report Driver.

(** The running maximum of [max(history, key=rps)], one step. *)
Definition max_step (best y : IterationRecord) : IterationRecord :=
  if fgt (record_rps y) (record_rps best) then y else best.

(** The iteration indices of a history grow strictly. *)
Definition increasing (h : list IterationRecord) : Prop :=
  StronglySorted Z.lt (map iteration h).

(** What the driver knows about its best-so-far after any number of
    iterations: it is the record [max] selects, no record exceeds it, and
    no earlier record ties with it. *)
Definition tracks_best (st : State) : Prop :=
  exists pre b post,
    history st = pre ++ b :: post /\
    cur_best_rps st = record_rps b /\
    cur_best_config st = config b /\
    py_max record_rps (history st) = Some b /\
    (forall r, r ∈ history st -> fgt (record_rps r) (record_rps b) = false) /\
    (forall r, r ∈ pre -> feq (record_rps r) (record_rps b) = false).

Definition below (i : Z) (st : State) : Prop :=
  increasing (history st) /\ Forall (fun r => iteration r < i) (history st).

(** The records of the iterations [idxs], all of which run to their end:
    one record for each iteration whose reset succeeds. *)
Fixpoint completed_records (a : Args) (w : World) (configs : list Config)
    (idxs : list Z) : list IterationRecord :=
  match idxs with
  | [] => []
  | i :: later =>
      match configs !! Z.to_nat (i - 1), trials w i with
      | Some c, Runs cw lw =>
          (if reset_system false cw
           then [mkRecord i c (run_load_test (test_users a) (test_spawn_rate a)
                                 (test_duration a) lw)]
           else [])
          ++ completed_records a w configs later
      | _, _ => []
      end
  end.

Definition stats_header : list string :=
  ["Type"; "Name"; "Request Count"; "Failure Count";
   "Average Response Time"; "Requests/s"]%string.

(** A load test that ends in time and leaves one results file. *)
Definition sample_load (requests_per_s : string) : load_world :=
  mkLoadWorld (Exits 5) true
    [mkStats 1 (Readable [Row stats_header;
                          Row [""; "Aggregated"; "1000"; "10"; "12.3"; requests_per_s]%string])].

Definition all_up : compose := mkCompose true true true.

(** Five candidate iterations requested; the third one is interrupted. *)
Definition interrupted_args : Args := mkArgs 5 2 10 1 5 false.

Definition interrupted_world : World :=
  mkWorld (fun i => i) (Some (chars "events { worker_connections 1024; }"))
          (Runs all_up (sample_load "50.0"))
          (fun i => if i <? 3 then Runs all_up (sample_load "80.0") else Interrupts).

(** An item the loop passes over: a blank row, or a row that is not the
    aggregated one. *)
Definition passed_over (fieldnames : list string) (it : read_item) : bool :=
  match it with
  | Row [] => true
  | Row r => negb (is_aggregated (row_dict fieldnames r))
  | ReadError => false
  end.

(** A run of characters of a class ends where the class ends. *)
Definition stops (p : N -> bool) (rest : text) : Prop :=
  match rest with
  | [] => True
  | c :: _ => p c = false
  end.

(** The line ends of a text file. *)
Definition crlf : text := [carriage_return; line_feed].
Definition lf : text := [line_feed].

Definition only_worker_connections (v : Z) : gmap string Z :=
  {[ "worker_connections"%string := v ]}.

Definition only_upstream_keepalive (v : Z) : gmap string Z :=
  {[ "upstream_keepalive"%string := v ]}.

(** After some halvings by [shr_1], [c] times the mantissa is at most [M]. *)
Definition halved (c M : Z) (mrs : shr_record) : Prop :=
  0 <= shr_m mrs /\ c * shr_m mrs <= M.

(** A float that is a zero or a positive finite number below [2 ^ B]. *)
Definition small (B : Z) (x : float) : Prop :=
  match x with
  | S754_zero _ => True
  | S754_finite false m e => Zpos m < 2 ^ (B - e) /\ e <= B
  | _ => False
  end.

Definition convertible (v : sample) : Prop := exists n, py_int_sample v = Some n.

(** A load test that cannot deliver results: the script runs over its
    time limit or cannot be started, or it leaves no results directory or
    no results file. *)
Definition load_fails (duration : Z) (lw : load_world) : Prop :=
  script lw = Hangs \/
  (exists t, script lw = Exits t /\ duration + 120 < t) \/
  (exists e, script lw = LaunchFails e) \/
  results_dir_exists lw = false \/
  glob_stats lw = [].

(** A record of candidate iteration [iteration r]: the index lies within
    the requested count [n] and the candidate list, and the configuration
    is the candidate at that index. *)
Definition candidate_record (configs : list Config) (n : Z) (r : IterationRecord) : Prop :=
  1 <= iteration r <= n /\
  iteration r <= Z.of_nat (List.length configs) /\
  configs !! Z.to_nat (iteration r - 1) = Some (config r).

(** The characters of a text other than its digits. *)
Definition non_digits (l : text) : text :=
  List.filter (fun c => negb (re_digit c)) l.

(** A run of at least one character of a class. *)
Definition run_of (p : N -> bool) (l : text) : Prop :=
  l <> [] /\ Forall (fun c => p c = true) l.

(** The texts that the pattern [name\s+\d+;] matches. *)
Definition directive (name m : text) : Prop :=
  exists ws ds,
    run_of re_space ws /\ run_of re_digit ds /\
    m = name ++ ws ++ ds ++ [semicolon].

(** The texts that the pattern
    [(upstream backend \{[^}]*keepalive\s+)\d+(\s*;)] matches, by their
    parts: the block up to the directive, the whitespace that ends group
    1, the digits, and the whitespace of group 2. *)
Definition upstream_parts (body ws ds ws2 : text) : Prop :=
  Forall (fun c => c <> close_brace) body /\
  run_of re_space ws /\ run_of re_digit ds /\
  Forall (fun c => re_space c = true) ws2.

Definition upstream_text (body ws ds ws2 : text) : text :=
  upstream_open ++ body ++ chars "keepalive" ++ ws ++ ds ++ ws2 ++ [semicolon].

Definition upstream_block (m : text) : Prop :=
  exists body ws ds ws2,
    upstream_parts body ws ds ws2 /\ m = upstream_text body ws ds ws2.

(** The greedy [[^}]*]: of the matches that begin the text, this one has
    the longest block before its directive. *)
Definition greedy (body ws ds ws2 post : text) : Prop :=
  forall body' ws' ds' ws2' post',
    upstream_parts body' ws' ds' ws2' ->
    upstream_text body' ws' ds' ws2' ++ post' = upstream_text body ws ds ws2 ++ post ->
    (List.length body' <= List.length body)%nat.

(** A text of the language [P] begins [l]. *)
Definition begins (P : text -> Prop) (l : text) : Prop :=
  exists m rest, P m /\ l = m ++ rest.

(** No text of the language [P] begins at a character of [pre] in the
    text [pre ++ rest]. *)
Definition unmatched (P : text -> Prop) (pre rest : text) : Prop :=
  forall p1 p2, pre = p1 ++ p2 -> p2 <> [] -> ~ begins P (p2 ++ rest).

Definition misses {A : Type} (o : option A) : bool :=
  match o with Some _ => false | None => true end.

(** The offsets [0 .. len pre - 1] of [pre ++ rest], tried one by one. *)
Definition scan_misses {A : Type} (m : text -> option A) (pre rest : text) : bool :=
  forallb (fun k => misses (m (skipn k (pre ++ rest)))) (seq 0 (List.length pre)).

(** The text [p] occurs in [l]. *)
Definition occurs (p l : text) : Prop :=
  exists pre post, l = pre ++ p ++ post.

Definition is_prefix (p l : text) : bool :=
  match strip_prefix p l with Some _ => true | None => false end.

(** A directive name that cannot overlap itself and cannot be mistaken for
    the rest of a directive: no proper suffix of it starts the name again,
    and its first character is neither whitespace, a digit nor the
    semicolon. *)
Definition plain_name (name : text) : bool :=
  match name with
  | [] => false
  | c :: _ =>
      negb (re_space c) && negb (re_digit c) && negb (char_eqb c semicolon)
      && forallb (fun k => negb (is_prefix (skipn k name) name))
                 (seq 1 (List.length name - 1))
  end.

(* ===================================================================== *)
(** * The order on floats                                                 *)
(* ===================================================================== *)

Section FloatOrder.

Lemma key_nan (x : float) : key x = None <-> is_nan x = true.
Proof. destruct x as [s|s| |s m e]; try destruct s; simpl; split; congruence. Qed.

Lemma lex_lt_trans a b c : lex_lt a b -> lex_lt b c -> lex_lt a c.
Proof.
  destruct a as [[a1 a2] a3], b as [[b1 b2] b3], c as [[c1 c2] c3].
  unfold lex_lt. lia.
Qed.

Lemma lex_lt_irrefl a : ~ lex_lt a a.
Proof. destruct a as [[a1 a2] a3]. unfold lex_lt. lia. Qed.

Lemma lex_total a b : lex_lt a b \/ a = b \/ lex_lt b a.
Proof.
  destruct a as [[a1 a2] a3], b as [[b1 b2] b3]. unfold lex_lt.
  destruct (Z.lt_total a1 b1) as [?|[?|?]]; [lia| |lia].
  destruct (Z.lt_total a2 b2) as [?|[?|?]]; [lia| |lia].
  destruct (Z.lt_total a3 b3) as [?|[?|?]]; [lia| |lia].
  right; left; congruence.
Qed.

(** [SFcompare] is the comparison of keys. *)
Lemma compare_key (x y : float) :
  match SFcompare x y, key x, key y with
  | Some Lt, Some a, Some b => lex_lt a b
  | Some Eq, Some a, Some b => a = b
  | Some Gt, Some a, Some b => lex_lt b a
  | None, None, _ | None, _, None => True
  | _, _, _ => False
  end.
Proof.
  destruct x as [s|s| |s m e], y as [s'|s'| |s' m' e'];
    try destruct s; try destruct s'; simpl; try lia; auto.
  - destruct (Z.compare_spec e e') as [->| |]; try lia.
    change (Pos.compare_cont Eq m m') with (Pos.compare m m').
    destruct (Pos.compare_spec m m') as [->| |]; simpl; try lia. reflexivity.
  - destruct (Z.compare_spec e e') as [->| |]; try lia.
    change (Pos.compare_cont Eq m m') with (Pos.compare m m').
    destruct (Pos.compare_spec m m') as [->| |]; simpl; try lia. reflexivity.
Qed.

Lemma flt_key (x y : float) :
  flt x y = true <-> exists a b, key x = Some a /\ key y = Some b /\ lex_lt a b.
Proof.
  unfold flt, SFltb. pose proof (compare_key x y) as H.
  destruct (SFcompare x y) as [[]|], (key x) as [a|], (key y) as [b|];
    try contradiction; split; try discriminate; eauto;
    intros (a' & b' & Ha & Hb & Hlt); try discriminate;
    inversion Ha; inversion Hb; subst; exfalso;
    try (eapply lex_lt_irrefl; eassumption);
    eapply lex_lt_irrefl; eapply lex_lt_trans; eassumption.
Qed.

Lemma feq_key (x y : float) :
  feq x y = true <-> exists a, key x = Some a /\ key y = Some a.
Proof.
  unfold feq, SFeqb. pose proof (compare_key x y) as H.
  destruct (SFcompare x y) as [[]|], (key x) as [a|], (key y) as [b|];
    try contradiction; split; try discriminate; subst; eauto;
    intros (a' & Ha & Hb); try discriminate;
    inversion Ha; inversion Hb; subst; exfalso;
    eapply lex_lt_irrefl; eassumption.
Qed.

Lemma fle_key (x y : float) :
  fle x y = true <-> exists a b, key x = Some a /\ key y = Some b /\ lex_le a b.
Proof.
  unfold fle, SFleb, lex_le. pose proof (compare_key x y) as H.
  destruct (SFcompare x y) as [[]|], (key x) as [a|], (key y) as [b|];
    try contradiction; split; try discriminate; subst; eauto 6;
    intros (a' & b' & Ha & Hb & [Hlt|Heq]); try discriminate;
    inversion Ha; inversion Hb; subst; exfalso;
    try (eapply lex_lt_irrefl; eassumption);
    eapply lex_lt_irrefl; eapply lex_lt_trans; eassumption.
Qed.

Lemma flt_trans (x y z : float) : flt x y = true -> flt y z = true -> flt x z = true.
Proof.
  rewrite !flt_key. intros (a & b & Ha & Hb & H1) (b' & c & Hb' & Hc & H2).
  rewrite Hb in Hb'. inversion Hb'; subst b'.
  exists a, c. eauto using lex_lt_trans.
Qed.

Lemma flt_irrefl (x : float) : flt x x = false.
Proof.
  destruct (flt x x) eqn:E; [|reflexivity].
  apply flt_key in E as (a & b & Ha & Hb & H). rewrite Ha in Hb.
  inversion Hb; subst. exfalso. eapply lex_lt_irrefl; eassumption.
Qed.

Lemma feq_flt_r (x y z : float) : feq y z = true -> flt x z = true -> flt x y = true.
Proof.
  rewrite feq_key, !flt_key. intros (a & Hy & Hz) (b & c & Hx & Hz' & H).
  rewrite Hz in Hz'. inversion Hz'; subst c. eauto.
Qed.

Lemma fle_flt_trans (x y z : float) : fle x y = true -> flt y z = true -> flt x z = true.
Proof.
  rewrite fle_key, !flt_key.
  intros (a & b & Ha & Hb & [H1|H1]) (b' & c & Hb' & Hc & H2);
    rewrite Hb in Hb'; inversion Hb'; subst b'; exists a, c.
  - eauto using lex_lt_trans.
  - subst. eauto.
Qed.

Lemma flt_fle (x y : float) : flt x y = true -> fle x y = true.
Proof.
  rewrite fle_key, flt_key. intros (a & b & Ha & Hb & H).
  exists a, b. unfold lex_le. eauto.
Qed.

(** Without NaN the order is total. *)
Lemma not_flt_fle (x y : float) :
  is_nan x = false -> is_nan y = false -> flt y x = false -> fle x y = true.
Proof.
  intros Hx Hy H.
  destruct (key x) as [a|] eqn:Ka; [|apply key_nan in Ka; congruence].
  destruct (key y) as [b|] eqn:Kb; [|apply key_nan in Kb; congruence].
  apply fle_key. exists a, b. repeat split; auto. unfold lex_le.
  destruct (lex_total a b) as [?|[?|Hlt]]; auto.
  assert (flt y x = true) by (apply flt_key; eauto). congruence.
Qed.

Lemma flt_not_nan (x y : float) : flt x y = true -> is_nan x = false /\ is_nan y = false.
Proof.
  rewrite flt_key. intros (a & b & Ha & Hb & _).
  split; [destruct (is_nan x) eqn:E|destruct (is_nan y) eqn:E]; auto;
    apply key_nan in E; congruence.
Qed.

End FloatOrder.

(* ===================================================================== *)
(** * Best-so-far tracking of the driver                                  *)
(* ===================================================================== *)

Section BestSoFar.

Lemma py_max_snoc (h : list IterationRecord) (y b : IterationRecord) :
  py_max record_rps h = Some b ->
  py_max record_rps (h ++ [y]) = Some (max_step b y).
Proof.
  destruct h as [|x rest]; simpl; [discriminate|].
  intros [= <-]. now rewrite fold_left_app.
Qed.

Lemma sorted_snoc (l : list Z) (i : Z) :
  StronglySorted Z.lt l -> Forall (fun j => j < i) l -> StronglySorted Z.lt (l ++ [i]).
Proof.
  induction 1 as [|x l Hs IH Hx]; intros Hlt; simpl.
  - repeat constructor.
  - inversion Hlt; subst. constructor; [auto|].
    apply Forall_app; split; [assumption|]. repeat constructor. assumption.
Qed.

Lemma increasing_after (pre post : list IterationRecord) (b r : IterationRecord) :
  increasing (pre ++ b :: post) -> r ∈ post -> iteration b < iteration r.
Proof.
  unfold increasing. induction pre as [|x pre IH]; simpl; intros Hs Hr.
  - inversion Hs as [|? ? _ Hall]; subst.
    rewrite Forall_forall in Hall. apply Hall.
    change (map iteration post) with (iteration <$> post).
    now apply list_elem_of_fmap_2.
  - inversion Hs; subst. auto.
Qed.

Lemma tracks_best_initial conf0 m0 : tracks_best (initial_state conf0 m0).
Proof.
  exists [], (mkRecord 0 get_default_config m0), []. simpl.
  split; [reflexivity|]. split; [reflexivity|]. split; [reflexivity|].
  split; [reflexivity|]. split.
  - intros r Hr. apply list_elem_of_singleton in Hr as ->. apply flt_irrefl.
  - intros r Hr. inversion Hr.
Qed.

Lemma below_initial conf0 m0 : below 1 (initial_state conf0 m0).
Proof.
  split; simpl.
  - unfold increasing. simpl. repeat constructor.
  - constructor; [simpl; lia|constructor].
Qed.

Lemma tracks_best_conf st conf' :
  tracks_best st ->
  tracks_best (mkState conf' (history st) (cur_best_rps st) (cur_best_config st)).
Proof. intros (pre & b & post & H). exists pre, b, post. exact H. Qed.

Lemma loop_body_tracks a t i c st :
  tracks_best st -> tracks_best (fst (loop_body a t i c st)).
Proof.
  intros Hst. unfold loop_body.
  destruct t as [cw lw| |]; simpl; try (now apply tracks_best_conf).
  destruct (reset_system false cw); simpl; [|now apply tracks_best_conf].
  set (m := run_load_test _ _ _ lw).
  destruct Hst as (pre & b & post & Hh & Hr & Hc & Hmax & Hge & Hpre).
  set (y := mkRecord i c m).
  assert (Hy : rps m = record_rps y) by reflexivity.
  rewrite Hr. destruct (fgt (rps m) (record_rps b)) eqn:Hgt; simpl.
  - exists (history st), y, []. simpl.
    split; [reflexivity|]. split; [reflexivity|]. split; [reflexivity|].
    split; [|split].
    + erewrite py_max_snoc by eassumption. unfold max_step.
      change (rps m) with (record_rps y) in Hgt. now rewrite Hgt.
    + intros r Hin. apply elem_of_app in Hin as [Hin|Hin].
      * specialize (Hge r Hin). unfold fgt in *.
        destruct (SFltb (record_rps y) (record_rps r)) eqn:E; [|reflexivity].
        rewrite <- Hge. symmetry. eapply flt_trans; [exact Hgt|exact E].
      * apply list_elem_of_singleton in Hin as ->. apply flt_irrefl.
    + intros r Hin. specialize (Hge r Hin).
      destruct (feq (record_rps r) (record_rps y)) eqn:E; [|reflexivity].
      rewrite <- Hge. symmetry. unfold fgt. eapply feq_flt_r; [exact E|exact Hgt].
  - exists pre, b, (post ++ [y]). simpl.
    split; [rewrite Hh; now rewrite <- app_assoc|].
    split; [reflexivity|]. split; [exact Hc|]. split; [|split].
    + erewrite py_max_snoc by eassumption. unfold max_step.
      change (rps m) with (record_rps y) in Hgt. now rewrite Hgt.
    + intros r Hin. apply elem_of_app in Hin as [Hin|Hin]; [auto|].
      apply list_elem_of_singleton in Hin as ->. exact Hgt.
    + exact Hpre.
Qed.

Lemma loop_body_below a t i c st :
  below i st -> below (i + 1) (fst (loop_body a t i c st)).
Proof.
  intros [Hinc Hlt].
  assert (Hlt' : Forall (fun r => iteration r < i + 1) (history st))
    by (eapply Forall_impl; [exact Hlt|simpl; intros; lia]).
  unfold loop_body.
  destruct t as [cw lw| |]; simpl; try (split; assumption).
  destruct (reset_system false cw); simpl; [|split; assumption].
  set (m := run_load_test _ _ _ lw).
  assert (Hb : below (i + 1) (mkState (snd (ConfigEditor.apply_nginx_config (nginx c) (conf st)))
                        (history st ++ [mkRecord i c m]) (rps m) c)).
  { split; simpl.
    - unfold increasing. rewrite map_app. simpl. apply sorted_snoc; [exact Hinc|].
      apply Forall_map. exact Hlt.
    - apply Forall_app; split; [exact Hlt'|]. repeat constructor. simpl. lia. }
  destruct (fgt (rps m) (cur_best_rps st)); exact Hb.
Qed.

Lemma below_weaken i j st : i <= j -> below i st -> below j st.
Proof.
  intros Hij [H1 H2]. split; [exact H1|].
  eapply Forall_impl; [exact H2|]. simpl. intros. lia.
Qed.

(** The indices [range(1, n + 1)] from a starting point. *)
Lemma range1_shape n : exists k, range1 n = map (fun i => Z.of_nat i + 1) (seq 0 k).
Proof. eexists. reflexivity. Qed.

Lemma search_loop_inv a w configs (k s : nat) st :
  tracks_best st -> below (Z.of_nat s + 1) st ->
  let st' := fst (search_loop a w configs (map (fun i => Z.of_nat i + 1) (seq s k)) st) in
  tracks_best st' /\ increasing (history st').
Proof.
  revert s st. induction k as [|k IH]; intros s st Ht Hb; simpl.
  - split; [exact Ht|apply Hb].
  - destruct (Z.of_nat s + 1 >? Z.of_nat (List.length configs)); simpl.
    { split; [exact Ht|apply Hb]. }
    destruct (configs !! Z.to_nat (Z.of_nat s + 1 - 1)) as [c|]; simpl.
    2:{ split; [exact Ht|apply Hb]. }
    pose proof (loop_body_tracks a (trials w (Z.of_nat s + 1)) (Z.of_nat s + 1) c st Ht) as Ht'.
    pose proof (loop_body_below a (trials w (Z.of_nat s + 1)) (Z.of_nat s + 1) c st Hb) as Hb'.
    destruct (loop_body a (trials w (Z.of_nat s + 1)) (Z.of_nat s + 1) c st) as [st1 [e|]];
      simpl in *.
    + split; [exact Ht'|apply Hb'].
    + apply IH; [exact Ht'|].
      replace (Z.of_nat (S s) + 1) with (Z.of_nat s + 1 + 1) by lia. exact Hb'.
Qed.

(** The state the loop ends in, against what the report computes. *)
Lemma loop_state_report a w configs (n : Z) conf0 m0 :
  let st := fst (search_loop a w configs (range1 n) (initial_state conf0 m0)) in
  exists b s,
    b ∈ history st /\
    cur_best_rps st = record_rps b /\
    cur_best_config st = config b /\
    generate_report (history st) = Some s /\
    best_iter s = b /\ best_rps s = cur_best_rps st.
Proof.
  intros st.
  destruct (search_loop_inv a w configs (Z.to_nat n) 0 (initial_state conf0 m0)
              (tracks_best_initial conf0 m0) (below_initial conf0 m0)) as [Ht _].
  fold (range1 n) in Ht. fold st in Ht.
  destruct Ht as (pre & b & post & Hh & Hr & Hc & Hmax & _ & _).
  assert (Hb : b ∈ history st).
  { rewrite Hh. apply elem_of_app. right. apply list_elem_of_here. }
  unfold generate_report. rewrite Hmax.
  destruct (history st) as [|first rest] eqn:E; [inversion Hb|].
  eexists b, _. split; [exact Hb|]. split; [exact Hr|]. split; [exact Hc|].
  split; [reflexivity|]. simpl. split; [reflexivity|]. now rewrite Hr.
Qed.

End BestSoFar.

Section DriverClaims.

(** C1, counterexample.  A results file whose throughput reads [nan] at
    the baseline: no candidate compares greater than NaN, so the driver's
    best result stays the baseline record, and [max] selects it too,
    although the history holds the throughputs 80.0 and 90.0.  The best
    result is not the record with the maximum throughput. *)
Lemma nan_baseline_is_not_maximum :
  let a := mkArgs 2 2 10 1 5 false in
  let w := mkWorld (fun i => i) (Some (chars "worker_connections 1024;"))
             (Runs all_up (sample_load "nan"))
             (fun i => Runs all_up (sample_load (if i =? 1 then "80.0" else "90.0"))) in
  exists b r1 r2 s imp,
    exit (main a w) = Completed /\
    final_history (main a w) = [b; r1; r2] /\
    record_rps r1 = of_Z 80 /\ record_rps r2 = of_Z 90 /\
    final_best (main a w) = Some (record_rps b, config b, imp) /\
    report (main a w) = Some s /\ best_iter s = b /\
    is_nan (record_rps b) = true /\
    fle (record_rps r1) (record_rps b) = false /\
    fle (record_rps r2) (record_rps b) = false.
Proof.
  intros a w. remember (main a w) as o eqn:E. vm_compute in E. subst o.
  cbn [exit final_history final_best report].
  eexists _, _, _, _, _.
  split; [reflexivity|]. split; [reflexivity|].
  split; [vm_compute; reflexivity|]. split; [vm_compute; reflexivity|].
  split; [reflexivity|]. split; [reflexivity|].
  split; [reflexivity|]. split; [reflexivity|].
  split; vm_compute; reflexivity.
Qed.

(** C1, as amended.  Best result of the search driver.  After any number
    of passes of the loop (whatever ends it), the non-empty history holds
    a record [b] such that: the driver's best-so-far throughput and
    configuration are those of [b]; the report generator's [max] by
    throughput selects the same [b]; no record of the history has a
    greater throughput than [b]; when no throughput of the history is
    NaN, every throughput is [<=] that of [b], which is then the maximum;
    and every record whose throughput equals that of [b] has an iteration
    index at least that of [b], so the earliest of the tied records
    wins. *)
Theorem best_result_is_earliest_maximum
    (a : Args) (w : World) (configs : list Config) (n : Z)
    (conf0 : option text) (m0 : Metrics) :
  let st := fst (search_loop a w configs (range1 n) (initial_state conf0 m0)) in
  exists b : IterationRecord,
    b ∈ history st /\
    cur_best_rps st = record_rps b /\
    cur_best_config st = config b /\
    (exists s, generate_report (history st) = Some s /\
               best_iter s = b /\ best_rps s = cur_best_rps st) /\
    (forall r, r ∈ history st -> fgt (record_rps r) (record_rps b) = false) /\
    (Forall (fun r => is_nan (record_rps r) = false) (history st) ->
     forall r, r ∈ history st -> fle (record_rps r) (record_rps b) = true) /\
    (forall r, r ∈ history st -> feq (record_rps r) (record_rps b) = true ->
               iteration b <= iteration r).
Proof.
  intros st.
  destruct (search_loop_inv a w configs (Z.to_nat n) 0 (initial_state conf0 m0)
              (tracks_best_initial conf0 m0) (below_initial conf0 m0)) as [Ht Hinc].
  fold (range1 n) in Ht, Hinc. fold st in Ht, Hinc.
  destruct Ht as (pre & b & post & Hh & Hr & Hc & Hmax & Hge & Hpre).
  assert (Hb : b ∈ history st).
  { rewrite Hh. apply elem_of_app. right. apply list_elem_of_here. }
  exists b. split; [exact Hb|]. split; [exact Hr|]. split; [exact Hc|].
  split; [|split; [exact Hge|split]].
  - unfold generate_report. rewrite Hmax.
    destruct (history st) as [|first rest] eqn:E; [inversion Hb|].
    eexists. split; [reflexivity|]. simpl. split; [reflexivity|]. now rewrite Hr.
  - intros Hnan r Hin. rewrite Forall_forall in Hnan.
    apply not_flt_fle; auto. apply (Hge r Hin).
  - intros r Hin Heq. rewrite Hh in Hin, Hinc.
    apply elem_of_app in Hin as [Hin|Hin].
    + rewrite (Hpre r Hin) in Heq. discriminate.
    + apply elem_of_cons in Hin as [->|Hin]; [lia|].
      pose proof (increasing_after pre post b r Hinc Hin). lia.
Qed.

Lemma best_result_is_earliest_maximum_witness :
  let a := mkArgs 2 2 10 1 5 false in
  let w := mkWorld (fun i => i) None (Runs all_up (sample_load "50.0"))
             (fun i => Runs all_up (sample_load (if i =? 1 then "90.0" else "80.0"))) in
  let m0 := run_load_test 10 1 5 (sample_load "50.0") in
  let st := fst (search_loop a w [get_default_config; get_default_config] (range1 2)
                   (initial_state None m0)) in
  exists b,
    b ∈ history st /\ cur_best_rps st = record_rps b /\
    record_rps b = of_Z 90 /\ iteration b = 1 /\
    forall r, r ∈ history st -> fle (record_rps r) (record_rps b) = true.
Proof.
  intros a w m0 st.
  destruct (best_result_is_earliest_maximum a w [get_default_config; get_default_config]
              2 None m0) as (b & Hb & Hr & _ & _ & _ & Hle & _).
  fold st in Hb, Hr, Hle.
  exists b. split; [exact Hb|]. split; [exact Hr|].
  assert (Hst : cur_best_rps st = of_Z 90) by (vm_compute; reflexivity).
  split; [congruence|]. split.
  - assert (Hh : history st = [mkRecord 0 get_default_config m0;
                               mkRecord 1 get_default_config
                                 (run_load_test 10 1 5 (sample_load "90.0"));
                               mkRecord 2 get_default_config
                                 (run_load_test 10 1 5 (sample_load "80.0"))])
      by (vm_compute; reflexivity).
    rewrite Hh in Hb. rewrite Hst in Hr.
    apply elem_of_cons in Hb as [->|Hb]; [vm_compute in Hr; discriminate Hr|].
    apply elem_of_cons in Hb as [->|Hb]; [reflexivity|].
    apply list_elem_of_singleton in Hb as ->. vm_compute in Hr. discriminate Hr.
  - apply Hle. vm_compute. repeat constructor.
Defined.

(** C7. A candidate whose environment reset fails: the pass through the
    loop body appends no record, leaves the best-so-far throughput and
    configuration as they were, does not end the loop, and the loop goes
    on with the next candidate. *)
Theorem failed_reset_skips_candidate
    (a : Args) (w : World) (configs : list Config) (i : Z) (later : list Z)
    (st : State) (c : Config) (cw : compose) (lw : load_world) :
  i <= Z.of_nat (List.length configs) ->
  configs !! Z.to_nat (i - 1) = Some c ->
  trials w i = Runs cw lw ->
  reset_system false cw = false ->
  let st' := fst (loop_body a (trials w i) i c st) in
  snd (loop_body a (trials w i) i c st) = None /\
  history st' = history st /\
  cur_best_rps st' = cur_best_rps st /\
  cur_best_config st' = cur_best_config st /\
  search_loop a w configs (i :: later) st = search_loop a w configs later st'.
Proof.
  intros Hle Hc Ht Hreset. simpl.
  assert (Hgt : (i >? Z.of_nat (List.length configs)) = false) by lia.
  rewrite Hgt, Hc, Ht. unfold loop_body. rewrite Hreset. simpl. auto.
Qed.

Lemma failed_reset_skips_candidate_witness :
  let a := mkArgs 2 1 10 1 5 false in
  let w := mkWorld (fun _ => O) None Crashes
             (fun _ => Runs (mkCompose false true true) (mkLoadWorld Hangs false [])) in
  let st := initial_state None zero_metrics in
  history (fst (search_loop a w [get_default_config] [1] st)) = history st.
Proof.
  intros a w st.
  pose proof (failed_reset_skips_candidate a w [get_default_config] 1 [] st
                get_default_config (mkCompose false true true)
                (mkLoadWorld Hangs false [])) as H.
  destruct H as (_ & Hh & _ & _ & Hloop);
    [simpl; lia|reflexivity|reflexivity|reflexivity|].
  rewrite Hloop. simpl. exact Hh.
Defined.

Lemma feq_fle_not_flt (y z b : float) :
  feq y z = true -> fle z b = true -> flt b y = false.
Proof.
  intros Heq Hle. destruct (flt b y) eqn:E; [|reflexivity].
  assert (H : flt z y = true) by (eapply fle_flt_trans; eassumption).
  apply feq_key in Heq as (k & Hy & Hz).
  apply flt_key in H as (k1 & k2 & H1 & H2 & Hlt).
  rewrite Hz in H1. rewrite Hy in H2. inversion H1; inversion H2; subst.
  exfalso. eapply lex_lt_irrefl; eassumption.
Qed.

Lemma loop_body_nonneg a t i c st :
  fle fzero (cur_best_rps st) = true ->
  fle fzero (cur_best_rps (fst (loop_body a t i c st))) = true.
Proof.
  intros H. unfold loop_body. destruct t as [cw lw| |]; simpl; auto.
  destruct (reset_system false cw); simpl; auto.
  destruct (fgt _ (cur_best_rps st)) eqn:E; simpl; auto.
  apply flt_fle. eapply fle_flt_trans; [exact H|exact E].
Qed.

Lemma search_loop_nonneg a w configs idxs st :
  fle fzero (cur_best_rps st) = true ->
  fle fzero (cur_best_rps (fst (search_loop a w configs idxs st))) = true.
Proof.
  revert st. induction idxs as [|i later IH]; intros st H; simpl; auto.
  destruct (i >? _); simpl; auto.
  destruct (configs !! _) as [c|]; simpl; auto.
  pose proof (loop_body_nonneg a (trials w i) i c st H) as H'.
  destruct (loop_body a (trials w i) i c st) as [st1 [e|]]; simpl in *; auto.
Qed.

(** C10. With a nonnegative baseline throughput the best-so-far stays
    nonnegative in every state the loop reaches, and an iteration whose
    load test yields a throughput equal to 0 changes neither the
    best-so-far throughput nor the best configuration. *)
Theorem zero_throughput_never_best
    (a : Args) (w : World) (configs : list Config) (idxs : list Z)
    (conf0 : option text) (m0 : Metrics)
    (i : Z) (c : Config) (cw : compose) (lw : load_world) :
  fle fzero (rps m0) = true ->
  feq (rps (run_load_test (test_users a) (test_spawn_rate a) (test_duration a) lw))
      fzero = true ->
  let st := fst (search_loop a w configs idxs (initial_state conf0 m0)) in
  let st' := fst (loop_body a (Runs cw lw) i c st) in
  fle fzero (cur_best_rps st) = true /\
  cur_best_rps st' = cur_best_rps st /\
  cur_best_config st' = cur_best_config st.
Proof.
  intros H0 Hz st st'.
  assert (Hst : fle fzero (cur_best_rps st) = true)
    by (apply search_loop_nonneg; exact H0).
  split; [exact Hst|]. subst st'. unfold loop_body.
  destruct (reset_system false cw); simpl; auto.
  assert (E : fgt (rps (run_load_test (test_users a) (test_spawn_rate a)
                          (test_duration a) lw)) (cur_best_rps st) = false)
    by (unfold fgt; eapply feq_fle_not_flt; eassumption).
  rewrite E. simpl. auto.
Qed.

Lemma zero_throughput_never_best_witness :
  let a := mkArgs 1 1 10 1 5 false in
  let w := mkWorld (fun _ => O) None Crashes (fun _ => Crashes) in
  let lw := mkLoadWorld Hangs true [] in
  let st := initial_state None zero_metrics in
  cur_best_config (fst (loop_body a (Runs (mkCompose true true true) lw) 1
                          (mkConfig (nginx_params 512 30 16)) st))
  = get_default_config.
Proof.
  intros a w lw st.
  apply (zero_throughput_never_best a w [] [] None zero_metrics 1
           (mkConfig (nginx_params 512 30 16)) (mkCompose true true true) lw);
    reflexivity.
Defined.

End DriverClaims.

Section DriverRuns.

Lemma loop_body_runs a i c st cw lw :
  snd (loop_body a (Runs cw lw) i c st) = None /\
  history (fst (loop_body a (Runs cw lw) i c st)) =
    history st ++
    (if reset_system false cw
     then [mkRecord i c (run_load_test (test_users a) (test_spawn_rate a)
                           (test_duration a) lw)]
     else []).
Proof.
  unfold loop_body. destruct (reset_system false cw); simpl.
  - destruct (fgt _ _); simpl; auto.
  - now rewrite app_nil_r.
Qed.

Lemma search_loop_runs a w configs idxs later st :
  Forall (fun i => 1 <= i <= Z.of_nat (List.length configs) /\
                   exists cw lw, trials w i = Runs cw lw) idxs ->
  exists st',
    search_loop a w configs (idxs ++ later) st = search_loop a w configs later st' /\
    history st' = history st ++ completed_records a w configs idxs.
Proof.
  revert st. induction idxs as [|i idxs IH]; intros st Hall.
  - exists st. simpl. now rewrite app_nil_r.
  - inversion Hall as [|? ? [Hi (cw & lw & Ht)] Hrest]; subst. simpl.
    assert (Hgt : (i >? Z.of_nat (List.length configs)) = false) by lia.
    rewrite Hgt.
    destruct (lookup_lt_is_Some_2 configs (Z.to_nat (i - 1))) as [c Hc]; [lia|].
    rewrite Hc, Ht.
    destruct (loop_body_runs a i c st cw lw) as [Hnone Hhist].
    destruct (loop_body a (Runs cw lw) i c st) as [st1 e]; simpl in *. subst e.
    destruct (IH st1 Hrest) as (st' & Hloop & Hh).
    exists st'. split; [exact Hloop|].
    rewrite Hh, Hhist. now rewrite <- app_assoc.
Qed.

Lemma range1_split (n k : Z) :
  1 <= k <= n ->
  exists rest, range1 n = range1 (k - 1) ++ k :: rest.
Proof.
  intros Hk. unfold range1.
  replace (Z.to_nat n) with (Z.to_nat (k - 1) + S (Z.to_nat (n - k)))%nat by lia.
  rewrite seq_app, map_app. simpl. eexists. f_equal. f_equal. lia.
Qed.

Lemma range1_bounds (n : Z) : Forall (fun i => 1 <= i <= n) (range1 n).
Proof.
  unfold range1. apply Forall_forall. intros x Hx.
  apply list_elem_of_In in Hx. apply in_map_iff in Hx as (i & <- & Hi).
  apply in_seq in Hi. lia.
Qed.

(** C8. An interruption during candidate iteration [k], the iterations
    before it having run to their end: the driver dumps the baseline record
    followed by the records completed so far to
    [optimization_history_partial.json] and to no other file, a name
    distinct from [optimization_history.json]; it generates no report and
    ends in the state of a handled interruption, not of a raised one. *)
Theorem interruption_persists_partial_history
    (a : Args) (w : World) (configs : list Config)
    (cw : compose) (lw : load_world) (k : Z) :
  candidates (rnd w) (grid_size a) (iterations a) = Some configs ->
  baseline w = Runs cw lw ->
  reset_system (full_reset a) cw = true ->
  1 <= k <= iterations a ->
  k <= Z.of_nat (List.length configs) ->
  (forall j, 1 <= j < k -> exists cw' lw', trials w j = Runs cw' lw') ->
  trials w k = Interrupts ->
  let h := mkRecord 0 get_default_config
             (run_load_test (test_users a) (test_spawn_rate a) (test_duration a) lw)
           :: completed_records a w configs (range1 (k - 1)) in
  exit (main a w) = Stopped /\
  report (main a w) = None /\
  final_best (main a w) = None /\
  final_history (main a w) = h /\
  written (main a w) = [(partial_history_file, h)] /\
  partial_history_file <> history_file.
Proof.
  intros Hc Hb Hreset Hk Hlen Hruns Hint h.
  unfold main. rewrite Hc, Hb, Hreset. simpl negb. cbv iota.
  destruct (range1_split (iterations a) k Hk) as [rest ->].
  set (st0 := initial_state _ _).
  destruct (search_loop_runs a w configs (range1 (k - 1)) (k :: rest) st0) as (st' & -> & Hh).
  { pose proof (range1_bounds (k - 1)) as Hr.
    eapply Forall_impl; [exact Hr|]. simpl. intros j Hj. split; [lia|].
    apply Hruns. lia. }
  simpl search_loop.
  assert (Hgt : (k >? Z.of_nat (List.length configs)) = false) by lia.
  rewrite Hgt.
  destruct (lookup_lt_is_Some_2 configs (Z.to_nat (k - 1))) as [c Hck]; [lia|].
  rewrite Hck, Hint. simpl.
  assert (Hhist : history st' = h) by (rewrite Hh; reflexivity).
  unfold on_interrupt. rewrite Hhist. subst h. simpl.
  repeat split; discriminate.
Qed.

End DriverRuns.

Section DriverExamples.

Lemma interruption_persists_partial_history_witness :
  written (main interrupted_args interrupted_world)
    = [(partial_history_file, final_history (main interrupted_args interrupted_world))] /\
  map iteration (final_history (main interrupted_args interrupted_world)) = [0; 1; 2] /\
  report (main interrupted_args interrupted_world) = None.
Proof.
  pose (cs := truncate 5 (shuffle (rnd interrupted_world)
                            (default [] (generate_grid_configs 2)))).
  destruct (interruption_persists_partial_history interrupted_args interrupted_world
              cs all_up (sample_load "50.0") 3)
    as (_ & Hrep & _ & Hh & Hw & _).
  - vm_compute. reflexivity.
  - reflexivity.
  - reflexivity.
  - simpl. lia.
  - vm_compute. discriminate.
  - intros j Hj. assert (E : (j <? 3) = true) by lia.
    simpl. rewrite E. eauto.
  - reflexivity.
  - rewrite Hw, Hh, Hrep. split; [reflexivity|]. split; [|reflexivity].
    vm_compute. reflexivity.
Defined.

End DriverExamples.

Section ReportClaims.

Lemma feq_zero_not_gt (x : float) : feq x fzero = true -> fgt x fzero = false.
Proof.
  intros H. unfold fgt. eapply feq_fle_not_flt; [exact H|reflexivity].
Qed.

(** The history only grows at its end. *)
Lemma loop_body_extends a t i c st :
  exists extra, history (fst (loop_body a t i c st)) = history st ++ extra.
Proof.
  unfold loop_body. destruct t as [cw lw| |]; simpl;
    try (exists []; now rewrite app_nil_r).
  destruct (reset_system false cw); simpl; [|exists []; now rewrite app_nil_r].
  destruct (fgt _ _); simpl; eexists; reflexivity.
Qed.

Lemma search_loop_extends a w configs idxs st :
  exists extra,
    history (fst (search_loop a w configs idxs st)) = history st ++ extra.
Proof.
  revert st. induction idxs as [|i later IH]; intros st; simpl.
  - exists []. now rewrite app_nil_r.
  - destruct (i >? _); simpl; [exists []; now rewrite app_nil_r|].
    destruct (configs !! _) as [c|]; simpl; [|exists []; now rewrite app_nil_r].
    destruct (loop_body_extends a (trials w i) i c st) as [e1 H1].
    destruct (loop_body a (trials w i) i c st) as [st1 [e|]]; simpl in *.
    + eauto.
    + destruct (IH st1) as [e2 H2]. rewrite H2, H1, <- app_assoc. eauto.
Qed.

(** C2. The improvement figure.  For a history of three records with
    throughputs 50, 80 and 65 the report selects the record with throughput
    80 and computes the improvement 60.0.  For every history the report
    computes [(best - initial) / initial * 100] in float arithmetic when
    the throughput of the first record is positive, and leaves the int 0
    when that throughput equals 0.  The figure the driver logs on
    completion is the same one. *)
Theorem improvement_over_baseline :
  (forall (c0 c1 c2 : Config) (m0 m1 m2 : Metrics),
      rps m0 = of_Z 50 -> rps m1 = of_Z 80 -> rps m2 = of_Z 65 ->
      exists s,
        generate_report [mkRecord 0 c0 m0; mkRecord 1 c1 m1; mkRecord 2 c2 m2] = Some s /\
        best_iter s = mkRecord 1 c1 m1 /\
        best_rps s = of_Z 80 /\
        improvement s = PyFloat (of_Z 60)) /\
  (forall (h : list IterationRecord) (s : Summary),
      generate_report h = Some s ->
      exists first rest,
        h = first :: rest /\
        initial_rps s = record_rps first /\
        best_rps s = record_rps (best_iter s) /\
        (fgt (initial_rps s) fzero = true ->
         improvement s =
           PyFloat (fmul (fdiv (fsub (best_rps s) (initial_rps s)) (initial_rps s))
                         (of_Z 100))) /\
        (feq (initial_rps s) fzero = true -> improvement s = PyInt 0)) /\
  (forall (a : Args) (w : World) (brps : float) (bcfg : Config) (imp : pynum),
      final_best (main a w) = Some (brps, bcfg, imp) ->
      exists s,
        report (main a w) = Some s /\
        brps = best_rps s /\ bcfg = config (best_iter s) /\ imp = improvement s).
Proof.
  split; [|split].
  - intros c0 c1 c2 m0 m1 m2 H0 H1 H2.
    assert (E1 : fgt (of_Z 80) (of_Z 50) = true) by (vm_compute; reflexivity).
    assert (E2 : fgt (of_Z 65) (of_Z 80) = false) by (vm_compute; reflexivity).
    assert (E3 : improvement_of (of_Z 80) (of_Z 50) = PyFloat (of_Z 60))
      by (vm_compute; reflexivity).
    unfold generate_report, py_max, record_rps.
    cbn [fold_left metrics]. rewrite H1, H0, E1.
    cbn [metrics]. rewrite H2, H1, E2.
    eexists. split; [reflexivity|].
    cbn [best_iter best_rps improvement metrics]. rewrite ?H1, ?H0, E3. auto.
  - intros h s Hs. unfold generate_report in Hs.
    destruct (py_max record_rps h) as [b|]; [|discriminate].
    destruct h as [|first rest]; [discriminate|].
    inversion Hs; subst; clear Hs. simpl.
    exists first, rest. repeat split.
    + intros Hpos. unfold improvement_of. now rewrite Hpos.
    + intros Hz. unfold improvement_of. now rewrite (feq_zero_not_gt _ Hz).
  - intros a w brps bcfg imp. unfold main.
    destruct (candidates _ _ _) as [configs|]; [|discriminate].
    destruct (baseline w) as [cw lw| |]; try discriminate.
    destruct (negb (reset_system (full_reset a) cw)); [discriminate|].
    set (m0 := run_load_test _ _ _ lw).
    set (conf0 := snd _).
    pose proof (loop_state_report a w configs (iterations a) conf0 m0) as Hbest.
    destruct (search_loop_extends a w configs (range1 (iterations a))
                (initial_state conf0 m0)) as [extra Hext].
    destruct (search_loop a w configs (range1 (iterations a)) (initial_state conf0 m0))
      as [st e]. simpl in Hbest, Hext.
    destruct Hbest as (b & s & _ & Hr & Hc & Hs & Hbi & Hbr).
    assert (Himp : improvement s = improvement_of (best_rps s) (rps m0)).
    { pose proof Hs as Hs'. unfold generate_report in Hs'. rewrite Hext in Hs'.
      simpl in Hs'. inversion Hs'. reflexivity. }
    destruct e; try discriminate.
    unfold finish. rewrite Hs. simpl. intros [= <- <- <-].
    exists s. split; [reflexivity|]. split; [now rewrite Hbr|].
    split; [now rewrite Hbi|]. now rewrite Himp, Hbr.
Qed.

End ReportClaims.

Section LoadRunnerClaims.

(** C9. The failure paths of the load-test runner.  A script that runs for
    more than [duration + 120] seconds, or never ends, yields the metrics
    with throughput 0.0 and the error of the exceeded time; another
    exception of the invocation, a missing results directory and the
    absence of a results file each yield throughput 0.0 with their own
    error text; the text of the exceeded time differs from all others. *)
Theorem load_test_failures_yield_zero_metrics
    (users spawn_rate duration : Z) (w : load_world) :
  let m := run_load_test users spawn_rate duration w in
  ((script w = Hangs \/ exists t, script w = Exits t /\ duration + 120 < t) ->
     m = error_metrics msg_timeout) /\
  (forall e, script w = LaunchFails e -> m = error_metrics (msg_other e)) /\
  (forall t, script w = Exits t -> t <= duration + 120 ->
     results_dir_exists w = false -> m = error_metrics msg_no_dir) /\
  (forall t, script w = Exits t -> t <= duration + 120 ->
     results_dir_exists w = true -> glob_stats w = [] ->
     m = error_metrics msg_no_csv) /\
  (forall msg, rps (error_metrics msg) = fzero /\
               error (error_metrics msg) = Some msg /\
               avg_response_time (error_metrics msg) = None /\
               total_requests (error_metrics msg) = None /\
               success_rate (error_metrics msg) = None) /\
  msg_timeout <> msg_no_dir /\ msg_timeout <> msg_no_csv /\
  (forall e, msg_timeout <> msg_other e).
Proof.
  intros m. subst m. unfold run_load_test, subprocess_run.
  split; [|split; [|split; [|split; [|split; [|split; [|split]]]]]].
  - intros [->|(t & -> & Ht)]; [reflexivity|].
    assert (E : (t <=? duration + 120) = false) by lia. now rewrite E.
  - intros e ->. reflexivity.
  - intros t -> Ht Hd. assert (E : (t <=? duration + 120) = true) by lia.
    now rewrite E, Hd.
  - intros t -> Ht Hd Hg. assert (E : (t <=? duration + 120) = true) by lia.
    now rewrite E, Hd, Hg.
  - intros msg. simpl. auto.
  - discriminate.
  - discriminate.
  - intros e. unfold msg_timeout, msg_other. simpl. discriminate.
Qed.

Lemma load_test_failures_yield_zero_metrics_witness :
  run_load_test 100 4 60 (mkLoadWorld (Exits 181) true []) = error_metrics msg_timeout /\
  run_load_test 100 4 60 (mkLoadWorld (Exits 180) true []) = error_metrics msg_no_csv.
Proof.
  split.
  - apply (load_test_failures_yield_zero_metrics 100 4 60 (mkLoadWorld (Exits 181) true [])).
    right. exists 181. split; [reflexivity|lia].
  - apply (load_test_failures_yield_zero_metrics 100 4 60 (mkLoadWorld (Exits 180) true []))
      with (t := 180); [reflexivity|lia|reflexivity|reflexivity].
Defined.

End LoadRunnerClaims.

Section ResultParserClaims.

Lemma scan_passes (fieldnames : list string) (pre rest : list read_item) (m : Metrics) :
  forallb (passed_over fieldnames) pre = true ->
  scan fieldnames (pre ++ rest) m = scan fieldnames rest m.
Proof.
  induction pre as [|it pre IH]; simpl; [reflexivity|].
  intros H. apply andb_true_iff in H as [Hit Hpre].
  destruct it as [[|f fs]|]; simpl in *; try discriminate; auto.
  destruct (is_aggregated _); [discriminate|]. auto.
Qed.

Lemma scan_no_match (fieldnames : list string) (items : list read_item) (m : Metrics) :
  forallb (passed_over fieldnames) items = true ->
  scan fieldnames items m = m.
Proof.
  intros H. rewrite <- (app_nil_r items). now rewrite scan_passes.
Qed.



(** The paths on which the parser does return its zero defaults. *)
Lemma parse_zero_defaults (fieldnames : list string) (items rest : list read_item) :
  forallb (passed_over fieldnames) items = true ->
  parse_locust_results Unreadable = zero_metrics /\
  parse_locust_results (Readable []) = zero_metrics /\
  parse_locust_results (Readable (ReadError :: rest)) = zero_metrics /\
  parse_locust_results (Readable (Row fieldnames :: items)) = zero_metrics /\
  parse_locust_results (Readable (Row fieldnames :: items ++ ReadError :: rest)) = zero_metrics.
Proof.
  intros H. repeat split; simpl.
  - now apply scan_no_match.
  - now rewrite scan_passes.
Qed.

(** C5. An aggregated row whose throughput and latency convert and whose
    request count does not: the exception is swallowed, and the metrics
    returned keep the throughput and latency assigned before it, so they
    are not the zero-valued metrics. *)
Theorem parse_keeps_fields_assigned_before_exception :
  let m := parse_locust_results
             (Readable [Row stats_header;
                        Row [""; "Aggregated"; "n/a"; "10"; "12.3"; "150.5"]]%string) in
  m = mkMetrics (fdiv (of_Z 301) (of_Z 2)) (Some (fdiv (of_Z 123) (of_Z 10)))
                (Some 0) (Some fzero) None /\
  fgt (rps m) fzero = true /\
  m <> zero_metrics.
Proof.
  vm_compute. repeat split. discriminate.
Qed.

End ResultParserClaims.

Section ConfigEditorLemmas.

Lemma char_eqb_refl (c : N) : char_eqb c c = true.
Proof. unfold char_eqb. apply N.eqb_refl. Qed.

Lemma strip_prefix_app (p l : text) : strip_prefix p (p ++ l) = Some l.
Proof.
  induction p as [|a p IH]; simpl; [now destruct l|].
  now rewrite char_eqb_refl.
Qed.

Lemma char_eqb_eq (a b : N) : char_eqb a b = true -> a = b.
Proof. unfold char_eqb. intros H. now apply N.eqb_eq in H. Qed.

Lemma strip_prefix_spec (p l rest : text) :
  strip_prefix p l = Some rest -> l = p ++ rest.
Proof.
  revert l. induction p as [|a p IH]; intros l H; simpl in H.
  - destruct l; inversion H; reflexivity.
  - destruct l as [|b l]; [discriminate|].
    destruct (char_eqb a b) eqn:E; [|discriminate].
    apply char_eqb_eq in E as ->. simpl. f_equal. now apply IH.
Qed.

Lemma span_spec (p : N -> bool) (l : text) :
  l = fst (span p l) ++ snd (span p l) /\
  Forall (fun c => p c = true) (fst (span p l)) /\
  stops p (snd (span p l)).
Proof.
  induction l as [|c l (IH1 & IH2 & IH3)]; simpl; [repeat split; constructor|].
  destruct (p c) eqn:E.
  - destruct (span p l) as [a b]. simpl in *. repeat split; auto. now f_equal.
  - simpl. repeat split; auto.
Qed.

Lemma in_ranges_spec (ranges : list (N * N)) (c : N) :
  in_ranges ranges c = true ->
  exists lo hi, In (lo, hi) ranges /\ (lo <= c <= hi)%N.
Proof.
  unfold in_ranges. intros H. apply existsb_exists in H as ([lo hi] & Hin & Hc).
  simpl in Hc. apply andb_true_iff in Hc as [H1 H2].
  apply N.leb_le in H1, H2. eauto.
Qed.

(** The classes [\s] and [\d] have no character in common. *)
Lemma digit_space_apart (c : N) : re_digit c = true -> re_space c = true -> False.
Proof.
  intros Hd Hs.
  apply in_ranges_spec in Hs as (lo' & hi' & Hin' & Hc').
  apply in_ranges_spec in Hd as (lo & hi & Hin & Hc).
  assert (Hsp : (c <= 13 \/ 28 <= c <= 32 \/ c = 133 \/ c = 160 \/ c = 5760
                 \/ 8192 <= c <= 8202 \/ 8232 <= c <= 8233 \/ c = 8239
                 \/ c = 8287 \/ c = 12288)%N).
  { unfold space_ranges in Hin'. simpl in Hin'.
    repeat (destruct Hin' as [Hin'|Hin']; [injection Hin' as <- <-; lia|]).
    contradiction. }
  clear Hin' Hc'.
  unfold decimal_ranges in Hin. simpl in Hin.
  repeat (destruct Hin as [Hin|Hin]; [injection Hin as <- <-; lia|]).
  contradiction.
Qed.

Lemma digit_not_space (c : N) : re_digit c = true -> re_space c = false.
Proof.
  intros Hd. destruct (re_space c) eqn:Hs; [|reflexivity].
  exfalso. exact (digit_space_apart c Hd Hs).
Qed.

Lemma space_not_digit (c : N) : re_space c = true -> re_digit c = false.
Proof.
  intros Hs. destruct (re_digit c) eqn:Hd; [|reflexivity].
  exfalso. exact (digit_space_apart c Hd Hs).
Qed.

Lemma span_run (p : N -> bool) (run rest : text) :
  Forall (fun c => p c = true) run -> stops p rest ->
  span p (run ++ rest) = (run, rest).
Proof.
  induction 1 as [|c run Hc Hrun IH]; intros Hstop; simpl.
  - destruct rest as [|c rest]; simpl in *; [reflexivity|]. now rewrite Hstop.
  - rewrite Hc, IH by assumption. reflexivity.
Qed.

Lemma sub_loop_skip (m : text -> option (nat * text)) (l1 l2 : text) :
  sub_loop m (List.length l1) (l1 ++ l2) = sub_loop m 0 l2.
Proof. induction l1 as [|c l1 IH]; simpl; auto. Qed.

(** At a match the replacement is emitted and the scan resumes after it. *)
Lemma re_sub_match (m : text -> option (nat * text))
    (matched post repl : text) :
  matched <> [] ->
  m (matched ++ post) = Some (List.length matched, repl) ->
  re_sub m (matched ++ post) = repl ++ re_sub m post.
Proof.
  intros Hne Hm. unfold re_sub.
  destruct matched as [|c matched]; [congruence|].
  change ((c :: matched) ++ post) with (c :: (matched ++ post)) in *.
  cbn [sub_loop]. rewrite Hm. cbn [List.length Nat.pred].
  now rewrite sub_loop_skip.
Qed.

(** Where the pattern does not match, one character is copied. *)
Lemma re_sub_copy (m : text -> option (nat * text)) (c : N) (l : text) :
  m (c :: l) = None -> re_sub m (c :: l) = c :: re_sub m l.
Proof. intros Hm. unfold re_sub. cbn [sub_loop]. now rewrite Hm. Qed.

Lemma match_directive_at (name ws ds post : text) :
  ws <> [] -> Forall (fun c => re_space c = true) ws ->
  ds <> [] -> Forall (fun c => re_digit c = true) ds ->
  match_directive name (name ++ ws ++ ds ++ semicolon :: post)
  = Some (List.length (name ++ ws ++ ds ++ [semicolon])).
Proof.
  intros Hws Fws Hds Fds. unfold match_directive.
  rewrite strip_prefix_app.
  rewrite (span_run re_space ws).
  2: exact Fws.
  2:{ destruct ds as [|d ds]; [congruence|]. simpl.
      inversion Fds; subst. now apply digit_not_space. }
  rewrite (span_run re_digit ds); [|exact Fds|reflexivity].
  destruct ws as [|w ws]; [congruence|]. destruct ds as [|d ds]; [congruence|].
  rewrite char_eqb_refl. f_equal.
  rewrite !length_app. simpl. lia.
Qed.

Lemma match_keepalive_tail_at (ws ds ws2 post : text) :
  ws <> [] -> Forall (fun c => re_space c = true) ws ->
  ds <> [] -> Forall (fun c => re_digit c = true) ds ->
  Forall (fun c => re_space c = true) ws2 ->
  match_keepalive_tail (chars "keepalive" ++ ws ++ ds ++ ws2 ++ semicolon :: post)
  = Some ((9 + List.length ws)%nat, List.length ds, (List.length ws2 + 1)%nat).
Proof.
  intros Hws Fws Hds Fds Fws2. unfold match_keepalive_tail.
  rewrite strip_prefix_app.
  rewrite (span_run re_space ws).
  2: exact Fws.
  2:{ destruct ds as [|d ds]; [congruence|]. simpl.
      inversion Fds; subst. now apply digit_not_space. }
  rewrite (span_run re_digit ds).
  2: exact Fds.
  2:{ destruct ws2 as [|w ws2]; simpl; [reflexivity|].
      inversion Fws2; subst. now apply space_not_digit. }
  rewrite (span_run re_space ws2); [|exact Fws2|reflexivity].
  destruct ws as [|w ws]; [congruence|]. destruct ds as [|d ds]; [congruence|].
  now rewrite char_eqb_refl.
Qed.

(** The greedy block stops at the given occurrence when no later one
    matches before the closing brace. *)
Lemma find_last_keepalive_at (body tail : text) (c : N) (x : nat * nat * nat) :
  Forall (fun b => char_eqb b close_brace = false) body ->
  char_eqb c close_brace = false ->
  match_keepalive_tail (c :: tail) = Some x ->
  find_last_keepalive tail = None ->
  find_last_keepalive (body ++ c :: tail) = Some (List.length body, x).
Proof.
  intros Fb Hc Hm Hlast. induction Fb as [|b body Hb Fb IH]; simpl.
  - now rewrite Hc, Hlast, Hm.
  - now rewrite Hb, IH.
Qed.

End ConfigEditorLemmas.

Section ConfigEditorClaims.

Lemma match_upstream_at (value : Z) (body ws ds ws2 post : text) :
  Forall (fun b => char_eqb b close_brace = false) body ->
  ws <> [] -> Forall (fun c => re_space c = true) ws ->
  ds <> [] -> Forall (fun c => re_digit c = true) ds ->
  Forall (fun c => re_space c = true) ws2 ->
  find_last_keepalive (chars "eepalive" ++ ws ++ ds ++ ws2 ++ semicolon :: post) = None ->
  match_upstream value
    (upstream_open ++ body ++ chars "keepalive" ++ ws ++ ds ++ ws2 ++ semicolon :: post)
  = Some (List.length (upstream_open ++ body ++ chars "keepalive" ++ ws ++ ds ++ ws2 ++ [semicolon]),
          upstream_open ++ body ++ chars "keepalive" ++ ws
            ++ chars (py_str_int value) ++ ws2 ++ [semicolon]).
Proof.
  intros Fb Hws Fws Hds Fds Fws2 Hlast. unfold match_upstream.
  rewrite strip_prefix_app.
  pose proof (match_keepalive_tail_at ws ds ws2 post Hws Fws Hds Fds Fws2) as Htail.
  change (chars "keepalive" ++ ws ++ ds ++ ws2 ++ semicolon :: post)
    with (107%N :: (chars "eepalive" ++ ws ++ ds ++ ws2 ++ semicolon :: post)) in *.
  rewrite (find_last_keepalive_at body _ 107%N _ Fb eq_refl Htail Hlast).
  set (A := upstream_open ++ body ++ chars "keepalive" ++ ws).
  assert (HA : (List.length upstream_open + List.length body + (9 + List.length ws))%nat
               = List.length A).
  { unfold A. rewrite !length_app. simpl. lia. }
  assert (Hl : upstream_open ++ body ++
                 107%N :: (chars "eepalive" ++ ws ++ ds ++ ws2 ++ semicolon :: post)
               = A ++ ds ++ (ws2 ++ [semicolon]) ++ post).
  { unfold A. rewrite <- !app_assoc. reflexivity. }
  rewrite Hl, HA. f_equal. f_equal.
  - change (107%N :: (chars "eepalive" ++ ws ++ ds ++ ws2 ++ [semicolon]))
      with (chars "keepalive" ++ ws ++ ds ++ ws2 ++ [semicolon]).
    replace (upstream_open ++ body ++ chars "keepalive" ++ ws ++ ds ++ ws2 ++ [semicolon])
      with (A ++ ds ++ ws2 ++ [semicolon]) by (unfold A; now rewrite <- !app_assoc).
    rewrite !length_app. simpl. lia.
  - rewrite take_app_length.
    rewrite (app_assoc A ds).
    replace (List.length A + List.length ds)%nat with (List.length (A ++ ds))
      by (now rewrite length_app).
    rewrite drop_app_length.
    replace (List.length ws2 + 1)%nat with (List.length (ws2 ++ [semicolon]))
      by (rewrite length_app; reflexivity).
    rewrite take_app_length.
    unfold A. now rewrite <- !app_assoc.
Qed.

Lemma char_eqb_neq (a b : N) : char_eqb a b = false <-> a <> b.
Proof.
  split.
  - intros H ->. now rewrite char_eqb_refl in H.
  - intros H. destruct (char_eqb a b) eqn:E; [|reflexivity].
    now apply char_eqb_eq in E.
Qed.

(** Text mode. *)
Lemma write_text_id (l : text) : write_text l = l.
Proof.
  unfold write_text. induction l as [|c l IH]; [reflexivity|].
  cbn [flat_map]. rewrite IH.
  destruct (char_eqb c line_feed) eqn:E; [|reflexivity].
  apply char_eqb_eq in E as ->. reflexivity.
Qed.

Lemma read_text_clean (l1 l2 : text) :
  Forall (fun c => c <> carriage_return) l1 ->
  read_text (l1 ++ l2) = l1 ++ read_text l2.
Proof.
  induction 1 as [|c l1 Hc _ IH]; [reflexivity|].
  apply char_eqb_neq in Hc.
  change ((c :: l1) ++ l2) with (c :: (l1 ++ l2)).
  cbn [read_text]. rewrite Hc, IH. reflexivity.
Qed.

Lemma read_text_id (l : text) :
  Forall (fun c => c <> carriage_return) l -> read_text l = l.
Proof.
  intros H. rewrite <- (app_nil_r l) at 1. rewrite (read_text_clean l [] H).
  now rewrite app_nil_r.
Qed.

Lemma read_text_no_cr (l : text) :
  Forall (fun c => c <> carriage_return) (read_text l).
Proof.
  remember (List.length l) as k eqn:Hk. revert l Hk.
  induction k as [k IH] using lt_wf_ind. intros l Hk.
  destruct l as [|c l]; [constructor|]. cbn [read_text].
  destruct (char_eqb c carriage_return) eqn:E.
  - constructor; [discriminate|].
    destruct l as [|c' l]; [constructor|].
    destruct (char_eqb c' line_feed).
    + apply (IH (List.length l)); [subst k; simpl; lia|reflexivity].
    + apply (IH (List.length (c' :: l))); [subst k; simpl; lia|reflexivity].
  - constructor; [now apply char_eqb_neq|].
    apply (IH (List.length l)); [subst k; simpl; lia|reflexivity].
Qed.

(** The scan of [re.sub] over a stretch in which the pattern never
    matches copies the stretch. *)
Lemma re_sub_unmatched (m : text -> option (nat * text)) (pre rest : text) :
  (forall p1 p2, pre = p1 ++ p2 -> p2 <> [] -> m (p2 ++ rest) = None) ->
  re_sub m (pre ++ rest) = pre ++ re_sub m rest.
Proof.
  induction pre as [|c pre IH]; intros H; [reflexivity|].
  change ((c :: pre) ++ rest) with (c :: (pre ++ rest)).
  rewrite re_sub_copy.
  - rewrite IH; [reflexivity|].
    intros p1 p2 -> Hne. apply (H (c :: p1) p2); [reflexivity|exact Hne].
  - apply (H [] (c :: pre)); [reflexivity|discriminate].
Qed.

Lemma unmatched_scan {A : Type} (P : text -> Prop)
    (m : text -> option A) (pre rest : text) :
  (forall l, begins P l -> m l <> None) ->
  scan_misses m pre rest = true ->
  unmatched P pre rest.
Proof.
  intros Hm Hall p1 p2 -> Hne Hb. apply Hm in Hb.
  unfold scan_misses in Hall. rewrite forallb_forall in Hall.
  assert (Hin : In (List.length p1) (seq 0 (List.length (p1 ++ p2)))).
  { apply in_seq. rewrite length_app. destruct p2; [congruence|simpl; lia]. }
  specialize (Hall _ Hin).
  rewrite <- app_assoc in Hall.
  change (skipn (List.length p1) (p1 ++ p2 ++ rest))
    with (drop (List.length p1) (p1 ++ p2 ++ rest)) in Hall.
  rewrite drop_app_length in Hall.
  destruct (m (p2 ++ rest)); [discriminate|congruence].
Qed.

(** The pattern of a directive matches at the head of a text exactly when
    a directive begins the text. *)
Lemma directive_match (name l m rest : text) :
  directive name m -> l = m ++ rest -> match_directive name l = Some (List.length m).
Proof.
  intros (ws & ds & [Hws Fws] & [Hds Fds] & ->) ->.
  rewrite <- (match_directive_at name ws ds rest Hws Fws Hds Fds).
  f_equal. now rewrite <- !app_assoc.
Qed.

Lemma directive_begins (name l : text) :
  begins (directive name) l -> match_directive name l <> None.
Proof.
  intros (m & rest & Hd & Hl). now rewrite (directive_match name l m rest Hd Hl).
Qed.

Lemma match_directive_begins (name l : text) (n : nat) :
  match_directive name l = Some n -> begins (directive name) l.
Proof.
  unfold match_directive.
  destruct (strip_prefix name l) as [rest|] eqn:Hp; [|discriminate].
  apply strip_prefix_spec in Hp.
  destruct (span_spec re_space rest) as (H1 & H2 & _).
  destruct (span re_space rest) as [ws r1]. simpl in H1, H2.
  destruct (span_spec re_digit r1) as (H3 & H4 & _).
  destruct (span re_digit r1) as [ds r2]. simpl in H3, H4.
  destruct ws as [|w ws]; [discriminate|]. destruct ds as [|d ds]; [discriminate|].
  destruct r2 as [|c r2]; [discriminate|].
  destruct (char_eqb c semicolon) eqn:E; [|discriminate].
  apply char_eqb_eq in E as ->. intros _.
  exists (name ++ (w :: ws) ++ (d :: ds) ++ [semicolon]), r2. split.
  - exists (w :: ws), (d :: ds). split; [split; [discriminate|exact H2]|].
    split; [split; [discriminate|exact H4]|reflexivity].
  - subst l rest r1. now rewrite <- !app_assoc.
Qed.

Lemma no_directive (name l : text) :
  ~ begins (directive name) l -> match_directive name l = None.
Proof.
  intros H. destruct (match_directive name l) as [n|] eqn:E; [|reflexivity].
  exfalso. apply H. eapply match_directive_begins. exact E.
Qed.

(** The parts of a match of the tail [keepalive\s+\d+\s*;]. *)
Lemma match_keepalive_tail_parts (l : text) (x : nat * nat * nat) :
  match_keepalive_tail l = Some x ->
  exists ws ds ws2 post,
    l = chars "keepalive" ++ ws ++ ds ++ ws2 ++ semicolon :: post /\
    run_of re_space ws /\ run_of re_digit ds /\
    Forall (fun c => re_space c = true) ws2.
Proof.
  unfold match_keepalive_tail.
  destruct (strip_prefix (chars "keepalive") l) as [rest|] eqn:Hp; [|discriminate].
  apply strip_prefix_spec in Hp.
  destruct (span_spec re_space rest) as (H1 & H2 & _).
  destruct (span re_space rest) as [ws r1]. simpl in H1, H2.
  destruct (span_spec re_digit r1) as (H3 & H4 & _).
  destruct (span re_digit r1) as [ds r2]. simpl in H3, H4.
  destruct (span_spec re_space r2) as (H5 & H6 & _).
  destruct (span re_space r2) as [ws2 r3]. simpl in H5, H6.
  destruct ws as [|w ws]; [discriminate|]. destruct ds as [|d ds]; [discriminate|].
  destruct r3 as [|c r3]; [discriminate|].
  destruct (char_eqb c semicolon) eqn:E; [|discriminate].
  apply char_eqb_eq in E as ->. intros _.
  exists (w :: ws), (d :: ds), ws2, r3. subst l rest r1 r2.
  split; [reflexivity|]. split; [split; [discriminate|exact H2]|].
  split; [split; [discriminate|exact H4]|exact H6].
Qed.

Lemma find_last_keepalive_parts (l : text) (p : nat) (x : nat * nat * nat) :
  find_last_keepalive l = Some (p, x) ->
  exists body tail,
    l = body ++ tail /\ List.length body = p /\
    Forall (fun c => c <> close_brace) body /\
    match_keepalive_tail tail = Some x.
Proof.
  revert p. induction l as [|c l IH]; intros p H; simpl in H; [discriminate|].
  destruct (char_eqb c close_brace) eqn:Hc; [discriminate|].
  apply char_eqb_neq in Hc.
  destruct (find_last_keepalive l) as [[q y]|].
  - inversion H; subst. destruct (IH q eq_refl) as (body & tail & -> & <- & Fb & Hm).
    exists (c :: body), tail. repeat split; auto.
  - destruct (match_keepalive_tail (c :: l)) as [y|] eqn:Hm; [|discriminate].
    inversion H; subst. exists [], (c :: l). repeat split; auto.
Qed.

(** Where a tail matches after a stretch without closing brace, the
    greedy block finds a tail at that offset or later. *)
Lemma find_last_keepalive_complete (body tail : text) (x : nat * nat * nat) :
  Forall (fun c => c <> close_brace) body ->
  match_keepalive_tail tail = Some x ->
  exists p y, find_last_keepalive (body ++ tail) = Some (p, y) /\
              (List.length body <= p)%nat.
Proof.
  intros Fb Hm. induction Fb as [|c body Hc _ IH].
  - destruct tail as [|c tail]; [discriminate|]. cbn [app find_last_keepalive].
    assert (Hc : char_eqb c close_brace = false).
    { unfold match_keepalive_tail in Hm.
      destruct (strip_prefix (chars "keepalive") (c :: tail)) as [rest|] eqn:Hp;
        [|discriminate].
      apply strip_prefix_spec in Hp. injection Hp as -> _. reflexivity. }
    rewrite Hc. destruct (find_last_keepalive tail) as [[q y]|].
    + exists (S q), y. split; [reflexivity|simpl; lia].
    + rewrite Hm. exists O, x. split; [reflexivity|simpl; lia].
  - destruct IH as (p & y & Hf & Hle).
    apply char_eqb_neq in Hc.
    change ((c :: body) ++ tail) with (c :: (body ++ tail)).
    cbn [find_last_keepalive]. rewrite Hc, Hf.
    exists (S p), y. split; [reflexivity|simpl; lia].
Qed.

(** The upstream pattern matches at the head of a text exactly when a
    block with its directive begins the text. *)
Lemma upstream_begins (value : Z) (l : text) :
  begins upstream_block l -> match_upstream value l <> None.
Proof.
  intros (m & rest & (body & ws & ds & ws2 & (Fb & [Hws Fws] & [Hds Fds] & Fws2) & ->) & ->).
  unfold upstream_text, match_upstream. rewrite <- !app_assoc.
  rewrite strip_prefix_app.
  pose proof (match_keepalive_tail_at ws ds ws2 rest Hws Fws Hds Fds Fws2) as Ht.
  destruct (find_last_keepalive_complete body _ _ Fb Ht) as (p & [[n1 nd] n2] & Hf & _).
  change ([semicolon] ++ rest) with (semicolon :: rest).
  rewrite Hf. discriminate.
Qed.

Lemma match_upstream_begins (value : Z) (l : text) (x : nat * text) :
  match_upstream value l = Some x -> begins upstream_block l.
Proof.
  unfold match_upstream.
  destruct (strip_prefix upstream_open l) as [rest|] eqn:Hp; [|discriminate].
  apply strip_prefix_spec in Hp.
  destruct (find_last_keepalive rest) as [[p [[n1 nd] n2]]|] eqn:Hf; [|discriminate].
  apply find_last_keepalive_parts in Hf as (body & tail & -> & _ & Fb & Hm).
  apply match_keepalive_tail_parts in Hm as (ws & ds & ws2 & post & -> & Rws & Rds & Fws2).
  intros _. exists (upstream_text body ws ds ws2), post. split.
  - exists body, ws, ds, ws2. repeat split; auto; apply Rws || apply Rds.
  - rewrite Hp. unfold upstream_text. now rewrite <- !app_assoc.
Qed.

Lemma no_upstream (value : Z) (l : text) :
  ~ begins upstream_block l -> match_upstream value l = None.
Proof.
  intros H. destruct (match_upstream value l) as [x|] eqn:E; [|reflexivity].
  exfalso. apply H. eapply match_upstream_begins. exact E.
Qed.

(** The greedy choice is the last directive of the block: none begins
    later before the closing brace. *)
Lemma greedy_last (body ws ds ws2 post : text) :
  Forall (fun c => c <> close_brace) body ->
  greedy body ws ds ws2 post ->
  find_last_keepalive (chars "eepalive" ++ ws ++ ds ++ ws2 ++ semicolon :: post) = None.
Proof.
  intros Fb Hg.
  destruct (find_last_keepalive _) as [[p x]|] eqn:Hf; [exfalso|reflexivity].
  apply find_last_keepalive_parts in Hf as (b2 & t2 & Hl & Hp & Fb2 & Hm).
  apply match_keepalive_tail_parts in Hm as (ws' & ds' & ws2' & post' & Ht2 & Rws & Rds & Fws2).
  assert (Hle : (List.length (body ++ 107%N :: b2) <= List.length body)%nat).
  { apply (Hg (body ++ 107%N :: b2) ws' ds' ws2' post').
    - split; [|auto].
      apply Forall_app. split; [exact Fb|]. constructor; [discriminate|exact Fb2].
    - unfold upstream_text. rewrite <- !app_assoc. f_equal. f_equal.
      change (chars "keepalive" ++ ws ++ ds ++ ws2 ++ [semicolon] ++ post)
        with (107%N :: (chars "eepalive" ++ ws ++ ds ++ ws2 ++ semicolon :: post)).
      rewrite Hl, Ht2. reflexivity. }
  rewrite length_app in Hle. simpl in Hle. lia.
Qed.

Lemma last_greedy (body ws ds ws2 post : text) :
  find_last_keepalive (chars "eepalive" ++ ws ++ ds ++ ws2 ++ semicolon :: post) = None ->
  greedy body ws ds ws2 post.
Proof.
  intros Hnone body' ws' ds' ws2' post' (Fb' & [Hws' Fws'] & [Hds' Fds'] & Fws2') Heq.
  unfold upstream_text in Heq. rewrite <- !app_assoc in Heq.
  apply app_inv_head in Heq.
  destruct (Nat.le_gt_cases (List.length body') (List.length body)) as [H|H];
    [exact H|exfalso].
  apply app_eq_app in Heq as [k [[H1 H2]|[H1 H2]]].
  - destruct k as [|c k].
    { rewrite app_nil_r in H1. subst body'. lia. }
    change (chars "keepalive" ++ ws ++ ds ++ ws2 ++ [semicolon] ++ post)
      with (107%N :: (chars "eepalive" ++ ws ++ ds ++ ws2 ++ semicolon :: post)) in H2.
    change ((c :: k) ++ chars "keepalive" ++ ws' ++ ds' ++ ws2' ++ [semicolon] ++ post')
      with (c :: (k ++ chars "keepalive" ++ ws' ++ ds' ++ ws2' ++ semicolon :: post')) in H2.
    assert (H3 : chars "eepalive" ++ ws ++ ds ++ ws2 ++ semicolon :: post
                 = k ++ chars "keepalive" ++ ws' ++ ds' ++ ws2' ++ semicolon :: post')
      by congruence.
    rewrite H3 in Hnone.
    subst body'. apply Forall_app in Fb' as [_ Fk]. inversion Fk as [|? ? _ Fk']; subst.
    pose proof (match_keepalive_tail_at ws' ds' ws2' post' Hws' Fws' Hds' Fds' Fws2') as Ht.
    destruct (find_last_keepalive_complete k _ _ Fk' Ht) as (p & y & Hf & _).
    rewrite Hf in Hnone. discriminate.
  - subst body. rewrite length_app in H. lia.
Qed.

Lemma re_sub_none (m : text -> option (nat * text)) (l : text) :
  (forall p1 p2, l = p1 ++ p2 -> p2 <> [] -> m p2 = None) -> re_sub m l = l.
Proof.
  induction l as [|c l IH]; intros H; [reflexivity|].
  rewrite re_sub_copy.
  - f_equal. apply IH. intros p1 p2 -> Hne. apply (H (c :: p1) p2); [reflexivity|exact Hne].
  - apply (H [] (c :: l)); [reflexivity|discriminate].
Qed.

(** C6, counterexample.  A directive written with two spaces: the
    substitution changes a byte that is not part of the numeric token. *)
Lemma directive_whitespace_not_preserved :
  exists out,
    apply_nginx_config (only_worker_connections 2048)
                       (Some (chars "worker_connections  1024;")) = (true, Some out) /\
    out = chars "worker_connections 2048;" /\
    non_digits out <> non_digits (chars "worker_connections  1024;").
Proof.
  eexists. split; [vm_compute; reflexivity|]. split; [reflexivity|].
  vm_compute. discriminate.
Qed.

(** A second way in which bytes outside the numeric tokens change: the
    file is read and written in text mode, so a file with CRLF line ends
    comes back with LF line ends, even when no parameter is applied. *)
Lemma line_ends_not_preserved :
  apply_nginx_config ∅ (Some (chars "events {}" ++ crlf ++ chars "http {}" ++ crlf))
  = (true, Some (chars "events {}" ++ lf ++ chars "http {}" ++ lf)).
Proof. vm_compute. reflexivity. Qed.

(** C6, as amended.  The file is read as text, which turns the line ends
    [\r\n] and [\r] into [\n]; the substitutions of the parameters
    present in the configuration are applied in the order
    [worker_connections], [keepalive_timeout], [upstream_keepalive]; the
    result is written back and the function returns [True] (a file that
    cannot be opened gives [False] and stays as it is).

    A [worker_connections] or [keepalive_timeout] substitution copies the
    text up to the first directive [name\s+\d+;], replaces that directive
    as a whole by the name, one space, the new value and the semicolon,
    and goes on after it; a text in which no directive begins is left as
    it is.  The [upstream_keepalive] substitution copies the text up to
    the first [upstream backend {] that is followed, before any closing
    brace, by a directive [keepalive\s+\d+\s*;]; of these directives it
    takes the last one, replaces its digits only, and goes on after it; a
    text without such a block is left as it is, so a [keepalive]
    directive outside a block is untouched. *)
Theorem config_editor_rewrites_matched_directives :
  (forall config : gmap string Z, apply_nginx_config config None = (false, None)) /\
  (forall (config : gmap string Z) (content : text),
      let t0 := read_text content in
      let t1 := from_option (fun v => sub_directive "worker_connections" v t0) t0
                  (config !! "worker_connections"%string) in
      let t2 := from_option (fun v => sub_directive "keepalive_timeout" v t1) t1
                  (config !! "keepalive_timeout"%string) in
      let t3 := from_option (fun v => sub_upstream v t2) t2
                  (config !! "upstream_keepalive"%string) in
      apply_nginx_config config (Some content) = (true, Some t3)) /\
  (forall l1 l2 : text,
      Forall (fun c => c <> carriage_return) l1 ->
      read_text l1 = l1 /\
      read_text (l1 ++ carriage_return :: line_feed :: l2)
      = l1 ++ line_feed :: read_text l2 /\
      (stops (fun c => char_eqb c line_feed) l2 ->
       read_text (l1 ++ carriage_return :: l2) = l1 ++ line_feed :: read_text l2)) /\
  (forall (name : string) (value : Z) (content : text),
      unmatched (directive (chars name)) content [] ->
      sub_directive name value content = content) /\
  (forall (name : string) (value : Z) (pre m post : text),
      directive (chars name) m ->
      unmatched (directive (chars name)) pre (m ++ post) ->
      sub_directive name value (pre ++ m ++ post)
      = pre ++ chars name ++ chars " " ++ chars (py_str_int value)
          ++ semicolon :: sub_directive name value post) /\
  (forall (value : Z) (content : text),
      unmatched upstream_block content [] ->
      sub_upstream value content = content) /\
  (forall (value : Z) (pre body ws ds ws2 post : text),
      upstream_parts body ws ds ws2 ->
      greedy body ws ds ws2 post ->
      unmatched upstream_block pre (upstream_text body ws ds ws2 ++ post) ->
      sub_upstream value (pre ++ upstream_text body ws ds ws2 ++ post)
      = pre ++ upstream_open ++ body ++ chars "keepalive" ++ ws
          ++ chars (py_str_int value) ++ ws2 ++ semicolon :: sub_upstream value post) /\
  apply_nginx_config (only_worker_connections 2048)
    (Some (chars "events { worker_connections 1024; } http { keepalive_timeout 65; }"))
  = (true, Some (chars "events { worker_connections 2048; } http { keepalive_timeout 65; }")) /\
  apply_nginx_config (only_upstream_keepalive 64)
    (Some (chars "keepalive 16; upstream backend { server app:8000; keepalive 32; } keepalive 8;"))
  = (true, Some (chars "keepalive 16; upstream backend { server app:8000; keepalive 64; } keepalive 8;")).
Proof.
  split; [reflexivity|].
  split.
  { intros config content t0 t1 t2 t3. subst t0 t1 t2 t3.
    unfold apply_nginx_config, rewrite_content. rewrite write_text_id.
    destruct (config !! "worker_connections"%string),
             (config !! "keepalive_timeout"%string),
             (config !! "upstream_keepalive"%string); reflexivity. }
  split.
  { intros l1 l2 Hl1. split; [now apply read_text_id|].
    rewrite !(read_text_clean l1 _ Hl1). split; [reflexivity|].
    intros Hstop. f_equal. destruct l2 as [|c l2]; [reflexivity|].
    simpl in Hstop. cbn [read_text].
    change (char_eqb carriage_return carriage_return) with true. cbv iota.
    now rewrite Hstop. }
  split.
  { intros name value content Hun. unfold sub_directive. apply re_sub_none.
    intros p1 p2 -> Hne. rewrite no_directive; [reflexivity|].
    intros Hb. apply (Hun p1 p2 eq_refl Hne). now rewrite app_nil_r. }
  split.
  { intros name value pre m post Hd Hun. unfold sub_directive.
    rewrite re_sub_unmatched.
    2:{ intros p1 p2 -> Hne. rewrite no_directive; [reflexivity|].
        apply (Hun p1 p2 eq_refl Hne). }
    rewrite re_sub_match with
      (repl := chars name ++ chars " " ++ chars (py_str_int value) ++ [semicolon]).
    - now rewrite <- !app_assoc.
    - destruct Hd as (ws & ds & [Hws _] & _ & ->).
      destruct (chars name); [destruct ws; [congruence|]|]; discriminate.
    - now rewrite (directive_match (chars name) (m ++ post) m post Hd eq_refl). }
  split.
  { intros value content Hun. unfold sub_upstream. apply re_sub_none.
    intros p1 p2 -> Hne. apply no_upstream.
    intros Hb. apply (Hun p1 p2 eq_refl Hne). now rewrite app_nil_r. }
  split.
  { intros value pre body ws ds ws2 post Hparts Hg Hun. unfold sub_upstream.
    rewrite re_sub_unmatched.
    2:{ intros p1 p2 -> Hne. apply no_upstream. apply (Hun p1 p2 eq_refl Hne). }
    destruct Hparts as (Fb & [Hws Fws] & [Hds Fds] & Fws2).
    assert (Fb' : Forall (fun b => char_eqb b close_brace = false) body).
    { eapply Forall_impl; [exact Fb|]. intros c Hc. now apply char_eqb_neq. }
    pose proof (match_upstream_at value body ws ds ws2 post Fb' Hws Fws Hds Fds Fws2
                  (greedy_last body ws ds ws2 post Fb Hg)) as Hm.
    rewrite re_sub_match with
      (repl := upstream_open ++ body ++ chars "keepalive" ++ ws
                 ++ chars (py_str_int value) ++ ws2 ++ [semicolon]).
    - now rewrite <- !app_assoc.
    - discriminate.
    - unfold upstream_text. rewrite <- !app_assoc. exact Hm. }
  split; vm_compute; reflexivity.
Qed.

Lemma config_editor_rewrites_matched_directives_witness :
  sub_directive "worker_connections" 2048 (chars "events { worker_connections 1024; }")
  = chars "events { worker_connections 2048; }" /\
  sub_upstream 64
    (chars "keepalive 16; upstream backend { server app:8000; keepalive 32; } keepalive 8;")
  = chars "keepalive 16; upstream backend { server app:8000; keepalive 64; } keepalive 8;".
Proof.
  destruct config_editor_rewrites_matched_directives
    as (_ & _ & _ & _ & Hdir & _ & Hup & _).
  split.
  - assert (H : sub_directive "worker_connections" 2048
                  (chars "events { " ++ chars "worker_connections 1024;" ++ chars " }")
                = chars "events { " ++ chars "worker_connections" ++ chars " "
                    ++ chars (py_str_int 2048)
                    ++ semicolon :: sub_directive "worker_connections" 2048 (chars " }")).
    { apply Hdir.
      - exists (chars " "), (chars "1024").
        split; [split; [discriminate|repeat constructor]|].
        split; [split; [discriminate|repeat constructor]|reflexivity].
      - apply (unmatched_scan _ (match_directive (chars "worker_connections")));
          [apply directive_begins|vm_compute; reflexivity]. }
    etransitivity; [exact H|]. vm_compute. reflexivity.
  - assert (H : sub_upstream 64
                  (chars "keepalive 16; "
                     ++ upstream_text (chars " server app:8000; ") (chars " ") (chars "32") []
                     ++ chars " } keepalive 8;")
                = chars "keepalive 16; " ++ upstream_open ++ chars " server app:8000; "
                    ++ chars "keepalive" ++ chars " " ++ chars (py_str_int 64) ++ []
                    ++ semicolon :: sub_upstream 64 (chars " } keepalive 8;")).
    { apply Hup.
      - split; [repeat (constructor; [discriminate|]); constructor|].
        split; [split; [discriminate|repeat constructor]|].
        split; [split; [discriminate|repeat constructor]|constructor].
      - apply last_greedy. vm_compute. reflexivity.
      - apply (unmatched_scan _ (match_upstream 0));
          [apply upstream_begins|vm_compute; reflexivity]. }
    etransitivity; [exact H|]. vm_compute. reflexivity.
Defined.

End ConfigEditorClaims.


(* ===================================================================== *)
(** * Magnitude of rounded results                                        *)
(* ===================================================================== *)

Section FloatBounds.

Lemma digits2_pos_bounds (p : positive) :
  2 ^ (Zpos (digits2_pos p) - 1) <= Zpos p < 2 ^ Zpos (digits2_pos p).
Proof.
  induction p as [p IH|p IH|]; simpl digits2_pos.
  - rewrite Pos2Z.inj_succ. change (Zpos p~1) with (2 * Zpos p + 1).
    replace (Z.succ (Zpos (digits2_pos p)) - 1) with (Z.succ (Zpos (digits2_pos p) - 1)) by lia.
    rewrite !Z.pow_succ_r by lia. lia.
  - rewrite Pos2Z.inj_succ. change (Zpos p~0) with (2 * Zpos p).
    replace (Z.succ (Zpos (digits2_pos p)) - 1) with (Z.succ (Zpos (digits2_pos p) - 1)) by lia.
    rewrite !Z.pow_succ_r by lia. lia.
  - simpl. lia.
Qed.

Lemma digits_upper (m k : Z) : 0 <= m -> m < 2 ^ k -> 0 <= k -> Zdigits2 m <= k.
Proof.
  intros Hm Hlt Hk. destruct m as [|p|p]; simpl; [lia| |lia].
  pose proof (digits2_pos_bounds p) as [Hlo _].
  assert (H : 2 ^ (Zpos (digits2_pos p) - 1) < 2 ^ k) by lia.
  apply Z.pow_lt_mono_r_iff in H; lia.
Qed.

Lemma shr_1_halved (c M : Z) (mrs : shr_record) :
  0 <= c -> halved c M mrs -> halved (2 * c) M (shr_1 mrs).
Proof.
  intros Hc [H0 H1]. destruct mrs as [m r s]. simpl in *.
  destruct m as [|[p|p|]|p]; simpl; unfold halved; simpl;
    try change (Zpos p~1) with (2 * Zpos p + 1) in *;
    try change (Zpos p~0) with (2 * Zpos p) in *; try lia; nia.
Qed.

Lemma iter_pos_halved (M : Z) (p : positive) :
  forall (c : Z) (mrs : shr_record),
    0 <= c -> halved c M mrs -> halved (c * 2 ^ Zpos p) M (SpecFloat.iter_pos shr_1 p mrs).
Proof.
  induction p as [p IH|p IH|]; intros c mrs Hc H; simpl SpecFloat.iter_pos.
  - replace (c * 2 ^ Zpos p~1) with ((2 * c * 2 ^ Zpos p) * 2 ^ Zpos p).
    + apply IH; [nia|]. apply IH; [lia|]. now apply shr_1_halved.
    + change (Zpos p~1) with (2 * Zpos p + 1).
      replace (2 * Zpos p + 1) with (Z.succ (Zpos p + Zpos p)) by lia.
      rewrite Z.pow_succ_r, Z.pow_add_r by lia. ring.
  - replace (c * 2 ^ Zpos p~0) with ((c * 2 ^ Zpos p) * 2 ^ Zpos p).
    + apply IH; [nia|]. now apply IH.
    + change (Zpos p~0) with (2 * Zpos p).
      replace (2 * Zpos p) with (Zpos p + Zpos p) by lia.
      rewrite Z.pow_add_r by lia. ring.
  - replace (c * 2 ^ 1) with (2 * c) by lia. now apply shr_1_halved.
Qed.

Lemma shr_bound (mrs : shr_record) (e n k : Z) :
  0 <= shr_m mrs -> shr_m mrs < 2 ^ k -> n <= k -> 0 <= k ->
  0 <= shr_m (fst (shr mrs e n)) /\
  shr_m (fst (shr mrs e n)) < 2 ^ (k - Z.max n 0) /\
  snd (shr mrs e n) = e + Z.max n 0.
Proof.
  intros H0 Hlt Hn Hk. destruct n as [|p|p]; simpl.
  - rewrite Z.sub_0_r. repeat split; auto. lia.
  - destruct (iter_pos_halved (shr_m mrs) p 1 mrs) as [Ha Hb]; [lia|split; lia|].
    split; [exact Ha|]. split; [|lia].
    assert (Hp : 0 < 2 ^ Zpos p) by (apply Z.pow_pos_nonneg; lia).
    assert (Hsplit : 2 ^ k = 2 ^ Zpos p * 2 ^ (k - Zpos p)).
    { rewrite <- Z.pow_add_r by lia. f_equal. lia. }
    replace (Z.max (Zpos p) 0) with (Zpos p) by lia.
    apply (Z.mul_lt_mono_pos_l (2 ^ Zpos p)); [exact Hp|]. lia.
  - rewrite Z.sub_0_r. repeat split; auto. lia.
Qed.

Lemma shr_m_of_loc (m : Z) (l : location) : shr_m (shr_record_of_loc m l) = m.
Proof. destruct l as [|[]]; reflexivity. Qed.

Lemma fexp_le (x B : Z) : x <= B -> -1074 <= B -> fexp prec emax x <= B.
Proof. unfold fexp, emin, prec, emax. lia. Qed.

Lemma shr_fexp_bound (m e B : Z) (l : location) :
  0 <= m -> m < 2 ^ (B - e) -> e <= B -> -1074 <= B ->
  0 <= shr_m (fst (shr_fexp prec emax m e l)) /\
  shr_m (fst (shr_fexp prec emax m e l)) < 2 ^ (B - snd (shr_fexp prec emax m e l)) /\
  snd (shr_fexp prec emax m e l) <= B.
Proof.
  intros H0 Hlt He HB. unfold shr_fexp.
  pose proof (digits_upper m (B - e) H0 Hlt ltac:(lia)) as Hd.
  pose proof (fexp_le (Zdigits2 m + e) B ltac:(lia) HB) as Hf.
  set (n := fexp prec emax (Zdigits2 m + e) - e) in *.
  destruct (shr_bound (shr_record_of_loc m l) e n (B - e)) as (Ha & Hb & Hc);
    rewrite ?shr_m_of_loc; try lia.
  rewrite Hc. split; [exact Ha|]. split; [|lia].
  replace (B - (e + Z.max n 0)) with (B - e - Z.max n 0) by lia. exact Hb.
Qed.

Lemma round_nearest_even_bound (m : Z) (l : location) :
  0 <= m -> 0 <= round_nearest_even m l <= m + 1.
Proof.
  intros H. unfold round_nearest_even.
  destruct l as [|[]]; try lia. destruct (Z.even m); lia.
Qed.

Lemma small_mono (B B' : Z) (x : float) : B <= B' -> small B x -> small B' x.
Proof.
  intros HB. destruct x as [s|s| |[] m e]; simpl; auto.
  intros [H1 H2]. split; [|lia].
  eapply Z.lt_le_trans; [exact H1|]. apply Z.pow_le_mono_r; lia.
Qed.

Lemma small_to_Z (B : Z) (x : float) : small B x -> exists n, to_Z x = Some n.
Proof. destruct x as [s|s| |[] m e]; simpl; intros H; try contradiction; eauto. Qed.

Lemma binary_round_aux_small (mx ex B : Z) (lx : location) :
  0 <= mx -> mx < 2 ^ (B - ex) -> ex <= B -> -1074 <= B -> B + 1 <= 971 ->
  small (B + 1) (binary_round_aux prec emax false mx ex lx).
Proof.
  intros H0 Hlt He HB HB'. unfold binary_round_aux.
  destruct (shr_fexp_bound mx ex B lx H0 Hlt He HB) as (Ha & Hb & Hc).
  destruct (shr_fexp prec emax mx ex lx) as [mrs' e']. simpl in Ha, Hb, Hc.
  pose proof (round_nearest_even_bound (shr_m mrs') (loc_of_shr_record mrs') Ha) as Hr.
  set (mr := round_nearest_even (shr_m mrs') (loc_of_shr_record mrs')) in *.
  assert (Hmr : mr < 2 ^ (B + 1 - e')).
  { replace (B + 1 - e') with (Z.succ (B - e')) by lia.
    rewrite Z.pow_succ_r by lia. lia. }
  destruct (shr_fexp_bound mr e' (B + 1) loc_Exact) as (Ha2 & Hb2 & Hc2); try lia.
  destruct (shr_fexp prec emax mr e' loc_Exact) as [mrs'' e'']. simpl in Ha2, Hb2, Hc2.
  destruct (shr_m mrs'') as [|m|m]; [exact I| |lia].
  assert (E : (e'' <=? emax - prec) = true) by (unfold emax, prec; lia).
  rewrite E. simpl. split; [exact Hb2|exact Hc2].
Qed.

End FloatBounds.

Section FloatArithmeticBounds.

Lemma pos_iter_xO (m d : positive) : Zpos (Pos.iter xO m d) = Zpos m * 2 ^ Zpos d.
Proof.
  induction d as [|d IH] using Pos.peano_ind.
  - simpl. lia.
  - rewrite Pos.iter_succ, Pos2Z.inj_succ, Z.pow_succ_r by lia.
    change (Zpos (Pos.iter xO m d)~0) with (2 * Zpos (Pos.iter xO m d)).
    rewrite IH. ring.
Qed.

(** Aligning a mantissa to a smaller exponent keeps the value. *)
Lemma shl_align_spec (mx : positive) (ex ex' : Z) :
  snd (shl_align mx ex ex') <= ex /\
  (ex' <= ex -> snd (shl_align mx ex ex') = ex') /\
  Zpos (fst (shl_align mx ex ex')) = Zpos mx * 2 ^ (ex - snd (shl_align mx ex ex')).
Proof.
  unfold shl_align. destruct (ex' - ex) as [|d|d] eqn:E; simpl.
  - rewrite Z.sub_diag. simpl. lia.
  - rewrite Z.sub_diag. simpl. lia.
  - rewrite pos_iter_xO. replace (ex - ex') with (Zpos d) by lia. lia.
Qed.

Lemma pow2_split (a b : Z) : 0 <= a -> 0 <= b -> 2 ^ (a + b) = 2 ^ a * 2 ^ b.
Proof. intros. now rewrite Z.pow_add_r. Qed.

(** Rounding a positive integer mantissa below [2 ^ (B - e)]. *)
Lemma binary_round_small (m : positive) (e B : Z) :
  Zpos m < 2 ^ (B - e) -> e <= B -> -1074 <= B -> B + 1 <= 971 ->
  small (B + 1) (binary_round prec emax false m e).
Proof.
  intros Hlt He HB HB'. unfold binary_round.
  destruct (shl_align_spec m e (fexp prec emax (Zpos (digits2_pos m) + e)))
    as (H1 & _ & H3).
  destruct (shl_align m e (fexp prec emax (Zpos (digits2_pos m) + e))) as [mz ez].
  simpl in H1, H3.
  apply binary_round_aux_small; try lia.
  rewrite H3. replace (B - ez) with ((B - e) + (e - ez)) by lia.
  rewrite pow2_split by lia.
  apply Z.mul_lt_mono_pos_r; [apply Z.pow_pos_nonneg; lia|exact Hlt].
Qed.

(** The quotient of two ints, as [int_true_div] rounds it. *)
Lemma fdiv_exact_small (a b K : Z) :
  0 <= a -> 0 < b -> a < 2 ^ K * b -> 0 <= K -> K + 1 <= 971 ->
  small (K + 1) (fdiv (exact a) (exact b)).
Proof.
  intros Ha Hb Hab HK HK'.
  destruct b as [|pb|pb]; try lia. destruct a as [|pa|pa]; try lia.
  - exact I.
  - unfold fdiv, SFdiv, exact, SFdiv_core_binary.
    set (e' := Z.min _ (0 - 0)).
    assert (He' : e' <= 0) by (unfold e'; lia).
    set (m' := match 0 - 0 - e' with
               | 0 => Zpos pa
               | Zpos _ => Z.shiftl (Zpos pa) (0 - 0 - e')
               | Zneg _ => 0
               end).
    assert (Hm' : m' = Zpos pa * 2 ^ (- e')).
    { unfold m'. destruct (0 - 0 - e') as [|s|s] eqn:Es; try lia.
      - replace (- e') with 0 by lia. simpl. lia.
      - rewrite Z.shiftl_mul_pow2 by lia. f_equal. f_equal. lia. }
    assert (Hq : fst (Z.div_eucl m' (Zpos pb)) = m' / Zpos pb) by reflexivity.
    destruct (Z.div_eucl m' (Zpos pb)) as [q r]. simpl in Hq. simpl xorb.
    assert (Hpow : 0 < 2 ^ (- e')) by (apply Z.pow_pos_nonneg; lia).
    apply binary_round_aux_small; try lia.
    + rewrite Hq. apply Z.div_pos; lia.
    + rewrite Hq. apply Z.div_lt_upper_bound; [lia|].
      replace (K - e') with (K + - e') by lia. rewrite pow2_split by lia.
      rewrite Hm'. nia.
Qed.

Lemma int_true_div_small (a b K : Z) :
  0 <= a -> 0 < b -> a < 2 ^ K * b -> 0 <= K -> K + 1 <= 971 ->
  exists q, int_true_div a b = Some q /\ small (K + 1) q.
Proof.
  intros Ha Hb Hab HK HK'. unfold int_true_div.
  assert (E : (b =? 0) = false) by lia. rewrite E.
  pose proof (fdiv_exact_small a b K Ha Hb Hab HK HK') as Hs.
  destruct (fdiv (exact a) (exact b)) as [s|s| |[] m e]; simpl in Hs;
    try contradiction; eauto.
Qed.

(** The sum of a positive finite float and a small one. *)
Lemma fadd_small (mx : positive) (ex B : Z) (y : float) :
  Zpos mx < 2 ^ (B - ex) -> ex <= B -> small B y ->
  -1074 <= B -> B + 2 <= 971 ->
  small (B + 2) (fadd (S754_finite false mx ex) y).
Proof.
  intros Hx Hex Hy HB HB'.
  destruct y as [s|s| |[] my ey]; simpl in Hy; try contradiction.
  - simpl. split; [|lia].
    eapply Z.lt_le_trans; [exact Hx|]. apply Z.pow_le_mono_r; lia.
  - destruct Hy as [Hy Hey]. unfold fadd, SFadd.
    set (ez := Z.min ex ey).
    destruct (shl_align_spec mx ex ez) as (_ & Hx2 & Hx3).
    destruct (shl_align_spec my ey ez) as (_ & Hy2 & Hy3).
    rewrite Hx2 in Hx3 by (unfold ez; lia).
    rewrite Hy2 in Hy3 by (unfold ez; lia).
    unfold cond_Zopp.
    set (ax := fst (shl_align mx ex ez)) in *.
    set (ay := fst (shl_align my ey ez)) in *.
    change (Zpos ax + Zpos ay) with (Zpos (ax + ay)).
    unfold binary_normalize.
    replace (B + 2) with (B + 1 + 1) by lia.
    apply binary_round_small; try (unfold ez; lia).
    assert (Hax : Zpos ax < 2 ^ (B - ez)).
    { rewrite Hx3. replace (B - ez) with ((B - ex) + (ex - ez)) by lia.
      rewrite pow2_split by (unfold ez; lia).
      apply Z.mul_lt_mono_pos_r; [apply Z.pow_pos_nonneg; unfold ez; lia|exact Hx]. }
    assert (Hay : Zpos ay < 2 ^ (B - ez)).
    { rewrite Hy3. replace (B - ez) with ((B - ey) + (ey - ez)) by lia.
      rewrite pow2_split by (unfold ez; lia).
      apply Z.mul_lt_mono_pos_r; [apply Z.pow_pos_nonneg; unfold ez; lia|exact Hy]. }
    replace (B + 1 - ez) with (Z.succ (B - ez)) by lia.
    rewrite Z.pow_succ_r by (unfold ez; lia).
    rewrite Pos2Z.inj_add. lia.
Qed.

End FloatArithmeticBounds.

Section GridClaims.

Lemma all_some_map {A B : Type} (f : A -> option B) (P : B -> Prop) (l : list A) :
  Forall (fun x => exists y, f x = Some y /\ P y) l ->
  exists r, all_some (map f l) = Some r /\ List.length r = List.length l /\ Forall P r.
Proof.
  induction 1 as [|x l (y & Hy & HP) _ (r & Hr & Hlen & HPr)]; simpl.
  - exists []. auto.
  - rewrite Hy, Hr. exists (y :: r). simpl. auto.
Qed.

Lemma all_some_total {A : Type} (l : list (option A)) :
  Forall (fun o => exists y, o = Some y) l ->
  exists r, all_some l = Some r /\ List.length r = List.length l.
Proof.
  induction 1 as [|o l (y & ->) _ (r & Hr & Hlen)]; simpl.
  - exists []. auto.
  - rewrite Hr. exists (y :: r). simpl. auto.
Qed.

(** A sample of a spaced axis exists and converts to an int. *)
Lemma spaced_convertible (lo hi grid_size i : Z) (mx : positive) (ex : Z) :
  of_Z lo = S754_finite false mx ex ->
  Zpos mx < 2 ^ (12 - ex) -> ex <= 12 ->
  0 <= hi - lo < 2 ^ 11 ->
  4 < grid_size -> 0 <= i < grid_size ->
  exists v, spaced lo hi grid_size i = Some v /\ convertible v.
Proof.
  intros Hlo Hmx Hex Hspan Hg Hi. unfold spaced.
  destruct (int_true_div_small (i * (hi - lo)) (grid_size - 1) 11)
    as (q & -> & Hq); try lia; [nia|nia|].
  eexists. split; [reflexivity|]. unfold convertible. simpl.
  rewrite Hlo. apply (small_to_Z 14).
  apply (fadd_small mx ex 12 q); auto; lia.
Qed.

Lemma range_bounds (n : Z) : Forall (fun i => 0 <= i < n) (range n).
Proof.
  unfold range. apply Forall_forall. intros x Hx.
  apply list_elem_of_In in Hx. apply in_map_iff in Hx as (i & <- & Hi).
  apply in_seq in Hi. lia.
Qed.

Lemma range_length (n : Z) : List.length (range n) = Z.to_nat n.
Proof. unfold range. now rewrite length_map, length_seq. Qed.

Lemma axis_values_total (fixed : list Z) (lo hi grid_size : Z) (mx : positive) (ex : Z) :
  List.length fixed = 4%nat ->
  of_Z lo = S754_finite false mx ex ->
  Zpos mx < 2 ^ (12 - ex) -> ex <= 12 ->
  0 <= hi - lo < 2 ^ 11 ->
  0 <= grid_size ->
  exists vs, axis_values fixed lo hi grid_size = Some vs /\
             List.length vs = Z.to_nat grid_size /\
             Forall convertible vs.
Proof.
  intros Hfix Hlo Hmx Hex Hspan Hg. unfold axis_values.
  destruct (grid_size <=? 4) eqn:E.
  - eexists. split; [reflexivity|]. split.
    + unfold slice_to. assert (E0 : (grid_size <? 0) = false) by lia.
      rewrite E0, length_map, length_take, Hfix. lia.
    + apply Forall_forall. intros v Hv.
      apply list_elem_of_In in Hv. apply in_map_iff in Hv as (n & <- & _).
      exists n. reflexivity.
  - destruct (all_some_map (spaced lo hi grid_size) convertible (range grid_size))
      as (r & Hr & Hlen & HP).
    + eapply Forall_impl; [apply range_bounds|]. simpl. intros i Hi.
      eapply spaced_convertible; eauto. lia.
    + exists r. rewrite Hlen, range_length. auto.
Qed.

Lemma cross_some (wcs kts uks : list sample) :
  Forall convertible wcs -> Forall convertible kts -> Forall convertible uks ->
  Forall (fun o => exists c, o = Some c) (cross wcs kts uks) /\
  List.length (cross wcs kts uks)
  = (List.length wcs * (List.length kts * List.length uks))%nat.
Proof.
  intros Hw Hk Hu. unfold cross.
  induction Hw as [|wc wcs (a & Ha) Hw IHw]; simpl; [split; [constructor|reflexivity]|].
  destruct IHw as [IH1 IH2].
  assert (Hrow : Forall (fun o => exists c, o = Some c)
                   (flat_map (fun kt => map (fun uk => make_config wc kt uk) uks) kts) /\
                 List.length (flat_map (fun kt => map (fun uk => make_config wc kt uk) uks) kts)
                 = (List.length kts * List.length uks)%nat).
  { clear IH1 IH2. induction Hk as [|kt kts (b & Hb) Hk IHk]; simpl;
      [split; [constructor|reflexivity]|].
    destruct IHk as [IHk1 IHk2]. split.
    - apply Forall_app. split; [|exact IHk1].
      apply Forall_forall. intros o Ho.
      apply list_elem_of_In in Ho. apply in_map_iff in Ho as (uk & <- & Huk).
      rewrite Forall_forall in Hu. apply list_elem_of_In in Huk.
      destruct (Hu uk Huk) as (c & Hc).
      unfold make_config. rewrite Ha, Hb, Hc. eauto.
    - rewrite length_app, length_map, IHk2. reflexivity. }
  destruct Hrow as [Hr1 Hr2]. split.
  - apply Forall_app. split; assumption.
  - rewrite length_app, Hr2, IH2. reflexivity.
Qed.

Lemma generate_grid_configs_total (grid_size : Z) :
  0 <= grid_size ->
  exists configs,
    generate_grid_configs grid_size = Some configs /\
    List.length configs
    = (Z.to_nat grid_size * (Z.to_nat grid_size * Z.to_nat grid_size))%nat.
Proof.
  intros Hg. unfold generate_grid_configs.
  destruct (axis_values_total [512; 1024; 1536; 2048] 512 2048 grid_size
              4503599627370496 (-43)) as (wcs & -> & Lw & Cw);
    [reflexivity|reflexivity|vm_compute; reflexivity|lia|vm_compute; split; congruence|lia|].
  destruct (axis_values_total [30; 60; 90; 120] 30 120 grid_size
              8444249301319680 (-48)) as (kts & -> & Lk & Ck);
    [reflexivity|reflexivity|vm_compute; reflexivity|lia|vm_compute; split; congruence|lia|].
  destruct (axis_values_total [16; 32; 48; 64] 16 64 grid_size
              4503599627370496 (-48)) as (uks & -> & Lu & Cu);
    [reflexivity|reflexivity|vm_compute; reflexivity|lia|vm_compute; split; congruence|lia|].
  destruct (cross_some wcs kts uks Cw Ck Cu) as [Hsome Hlen].
  destruct (all_some_total _ Hsome) as (r & Hr & Hrl).
  exists r. split; [exact Hr|]. now rewrite Hrl, Hlen, Lw, Lk, Lu.
Qed.

Lemma swap_length {A : Type} (l : list A) (i j : nat) :
  List.length (swap l i j) = List.length l.
Proof.
  unfold swap. destruct (l !! i), (l !! j); auto.
  now rewrite !length_insert.
Qed.

Lemma shuffle_from_length {A : Type} (rnd : nat -> nat) (i : nat) (l : list A) :
  List.length (shuffle_from rnd i l) = List.length l.
Proof.
  revert l. induction i as [|i IH]; intros l; simpl; [reflexivity|].
  now rewrite IH, swap_length.
Qed.

Lemma shuffle_length {A : Type} (rnd : nat -> nat) (l : list A) :
  List.length (shuffle rnd l) = List.length l.
Proof. apply shuffle_from_length. Qed.

Lemma truncate_length {A : Type} (iterations : Z) (l : list A) :
  0 <= iterations ->
  Z.of_nat (List.length (truncate iterations l))
  = Z.min iterations (Z.of_nat (List.length l)).
Proof.
  intros H. unfold truncate, slice_to.
  destruct (Z.of_nat (List.length l) >? iterations) eqn:E; [|lia].
  assert (E0 : (iterations <? 0) = false) by lia.
  rewrite E0, length_take. lia.
Qed.

(** C3. For every grid size [g >= 0] the generator returns a list of
    exactly [g * g * g] configurations (each axis is sampled at [g] values,
    for [g <= 4] from the fixed table and otherwise evenly spaced), and for
    every requested iteration count [>= 0] the list the driver keeps after
    shuffling and truncating has length [min iterations (g * g * g)]. *)
Theorem candidate_count (grid_size : Z) :
  0 <= grid_size ->
  exists configs,
    generate_grid_configs grid_size = Some configs /\
    Z.of_nat (List.length configs) = grid_size * grid_size * grid_size /\
    forall (rnd : nat -> nat) (iterations : Z),
      0 <= iterations ->
      exists kept,
        candidates rnd grid_size iterations = Some kept /\
        Z.of_nat (List.length kept)
        = Z.min iterations (grid_size * grid_size * grid_size).
Proof.
  intros Hg. destruct (generate_grid_configs_total grid_size Hg) as (configs & Hc & Hlen).
  assert (Hz : Z.of_nat (List.length configs) = grid_size * grid_size * grid_size).
  { rewrite Hlen. rewrite !Nat2Z.inj_mul, !Z2Nat.id by lia. ring. }
  exists configs. split; [exact Hc|]. split; [exact Hz|].
  intros rnd iterations Hi. unfold candidates. rewrite Hc.
  eexists. split; [reflexivity|].
  now rewrite truncate_length, shuffle_length, Hz.
Qed.

Lemma candidate_count_witness :
  exists configs,
    generate_grid_configs 3 = Some configs /\
    Z.of_nat (List.length configs) = 27 /\
    exists kept,
      candidates (fun i => (i * 7 + 3)%nat) 3 9 = Some kept /\
      Z.of_nat (List.length kept) = 9.
Proof.
  destruct (candidate_count 3) as (configs & Hc & Hlen & Hkeep); [lia|].
  exists configs. split; [exact Hc|]. split; [exact Hlen|].
  destruct (Hkeep (fun i => (i * 7 + 3)%nat) 9) as (kept & Hk & Hkl); [lia|].
  exists kept. split; [exact Hk|exact Hkl].
Defined.

End GridClaims.

(* ===================================================================== *)
(** * Further properties of candidate generation                          *)
(* ===================================================================== *)

Section CandidateProperties.

Lemma insert_head_perm {A : Type} (l : list A) (j : nat) (x b : A) :
  l !! j = Some b -> b :: <[j := x]> l ≡ₚ x :: l.
Proof.
  revert j. induction l as [|y l IH]; intros [|j] H; simpl in *; try discriminate.
  - inversion H; subst. apply perm_swap.
  - rewrite (perm_swap y b). rewrite (IH j H). apply perm_swap.
Qed.

Lemma swap_perm {A : Type} (l : list A) (i j : nat) : swap l i j ≡ₚ l.
Proof.
  unfold swap. destruct (l !! i) as [a|] eqn:Hi; [|reflexivity].
  destruct (l !! j) as [b|] eqn:Hj; [|reflexivity].
  revert i j Hi Hj. induction l as [|x l IH]; intros [|i] [|j] Hi Hj;
    simpl in *; try discriminate.
  - inversion Hi; inversion Hj; subst. reflexivity.
  - inversion Hi; subst. now apply insert_head_perm.
  - inversion Hj; subst. now apply insert_head_perm.
  - now rewrite (IH i j Hi Hj).
Qed.

Lemma shuffle_from_perm {A : Type} (rnd : nat -> nat) (i : nat) (l : list A) :
  shuffle_from rnd i l ≡ₚ l.
Proof.
  revert l. induction i as [|i IH]; intros l; simpl; [reflexivity|].
  now rewrite IH, swap_perm.
Qed.

Lemma slice_to_sublist {A : Type} (l : list A) (n : Z) : slice_to l n `sublist_of` l.
Proof. unfold slice_to. destruct (n <? 0); apply sublist_take. Qed.

(** The list [main] tests is drawn from the grid: whatever the random
    draws and the iteration count, shuffling permutes the grid and the
    truncation keeps a part of it, each configuration at most as often as
    the grid has it; when the grid is not longer than the iteration count
    the whole grid, reordered, is kept. *)
Theorem candidates_drawn_from_grid
    (rnd : nat -> nat) (grid_size iterations : Z) (configs : list Config) :
  generate_grid_configs grid_size = Some configs ->
  shuffle rnd configs ≡ₚ configs /\
  exists kept,
    candidates rnd grid_size iterations = Some kept /\
    kept ⊆+ configs /\
    (forall c, c ∈ kept -> c ∈ configs) /\
    (Z.of_nat (List.length configs) <= iterations -> kept ≡ₚ configs).
Proof.
  intros Hg. assert (Hp : shuffle rnd configs ≡ₚ configs) by apply shuffle_from_perm.
  split; [exact Hp|]. unfold candidates. rewrite Hg.
  eexists. split; [reflexivity|].
  assert (Hsub : truncate iterations (shuffle rnd configs) ⊆+ configs).
  { rewrite <- Hp at 2. unfold truncate.
    destruct (_ >? _); [|reflexivity].
    apply sublist_submseteq, slice_to_sublist. }
  split; [exact Hsub|]. split.
  - intros c Hc. eapply elem_of_submseteq; eassumption.
  - intros Hlen. unfold truncate. rewrite shuffle_length.
    assert (E : (Z.of_nat (List.length configs) >? iterations) = false) by lia.
    now rewrite E.
Qed.

Lemma candidates_drawn_from_grid_witness :
  exists kept,
    candidates (fun i => (i * 5 + 1)%nat) 2 3 = Some kept /\
    kept ⊆+ default [] (generate_grid_configs 2).
Proof.
  destruct (candidates_drawn_from_grid (fun i => (i * 5 + 1)%nat) 2 3
              (default [] (generate_grid_configs 2)))
    as (_ & kept & Hk & Hsub & _).
  - vm_compute. reflexivity.
  - exists kept. split; [exact Hk|exact Hsub].
Defined.

(** The number of samples of an axis, for any int given as grid size: a
    negative size slices the fixed table from its end. *)
Lemma axis_values_any (fixed : list Z) (lo hi grid_size : Z) (mx : positive) (ex : Z) :
  List.length fixed = 4%nat ->
  of_Z lo = S754_finite false mx ex ->
  Zpos mx < 2 ^ (12 - ex) -> ex <= 12 ->
  0 <= hi - lo < 2 ^ 11 ->
  exists vs, axis_values fixed lo hi grid_size = Some vs /\
             List.length vs = Z.to_nat (if grid_size <? 0 then 4 + grid_size else grid_size) /\
             Forall convertible vs.
Proof.
  intros Hfix Hlo Hmx Hex Hspan.
  destruct (grid_size <? 0) eqn:E.
  - unfold axis_values. assert (E4 : (grid_size <=? 4) = true) by lia. rewrite E4.
    eexists. split; [reflexivity|]. split.
    + unfold slice_to. rewrite E, length_map, length_take, Hfix. lia.
    + apply Forall_forall. intros v Hv.
      apply list_elem_of_In in Hv. apply in_map_iff in Hv as (n & <- & _).
      exists n. reflexivity.
  - apply (axis_values_total fixed lo hi grid_size mx ex); auto. lia.
Qed.

Lemma generate_grid_configs_any (grid_size : Z) :
  exists configs,
    generate_grid_configs grid_size = Some configs /\
    Z.of_nat (List.length configs)
    = (if grid_size <? 0 then Z.max 0 (4 + grid_size) else grid_size) ^ 3.
Proof.
  unfold generate_grid_configs.
  destruct (axis_values_any [512; 1024; 1536; 2048] 512 2048 grid_size
              4503599627370496 (-43)) as (wcs & -> & Lw & Cw);
    [reflexivity|reflexivity|vm_compute; reflexivity|lia|vm_compute; split; congruence|].
  destruct (axis_values_any [30; 60; 90; 120] 30 120 grid_size
              8444249301319680 (-48)) as (kts & -> & Lk & Ck);
    [reflexivity|reflexivity|vm_compute; reflexivity|lia|vm_compute; split; congruence|].
  destruct (axis_values_any [16; 32; 48; 64] 16 64 grid_size
              4503599627370496 (-48)) as (uks & -> & Lu & Cu);
    [reflexivity|reflexivity|vm_compute; reflexivity|lia|vm_compute; split; congruence|].
  destruct (cross_some wcs kts uks Cw Ck Cu) as [Hsome Hlen].
  destruct (all_some_total _ Hsome) as (r & Hr & Hrl).
  exists r. split; [exact Hr|]. rewrite Hrl, Hlen, Lw, Lk, Lu.
  rewrite !Nat2Z.inj_mul. destruct (grid_size <? 0) eqn:E.
  - replace (Z.of_nat (Z.to_nat (4 + grid_size))) with (Z.max 0 (4 + grid_size)) by lia.
    ring.
  - rewrite !Z2Nat.id by lia. ring.
Qed.

(** The generator never raises, whatever int is given as grid size: every
    division has a non-zero divisor and every sample converts to an int.
    A negative grid size [g] yields [max 0 (4 + g)] values per axis, so
    [-1] gives 27 configurations.  Hence no exception escapes [main]
    before its [try]. *)
Theorem generator_never_raises (grid_size : Z) :
  (exists configs,
      generate_grid_configs grid_size = Some configs /\
      Z.of_nat (List.length configs)
      = (if grid_size <? 0 then Z.max 0 (4 + grid_size) else grid_size) ^ 3) /\
  (forall (a : Args) (w : World), exit (main a w) <> Uncaught).
Proof.
  split; [apply generate_grid_configs_any|].
  intros a w. unfold main, candidates.
  destruct (generate_grid_configs_any (Driver.grid_size a)) as (configs & -> & _).
  destruct (baseline w) as [cw lw| |]; simpl; try discriminate.
  destruct (negb _); simpl; [discriminate|].
  destruct (search_loop _ _ _ _ _) as [st []]; simpl; try discriminate.
  unfold finish. destruct (generate_report _); simpl; discriminate.
Qed.

End CandidateProperties.

Section GridContents.

Lemma all_some_elem {A : Type} (l : list (option A)) (r : list A) (x : A) :
  all_some l = Some r -> x ∈ r -> Some x ∈ l.
Proof.
  revert r. induction l as [|[a|] l IH]; intros r H Hx; simpl in H.
  - inversion H; subst. inversion Hx.
  - destruct (all_some l) as [r'|]; [|discriminate]. inversion H; subst.
    apply elem_of_cons in Hx as [->|Hx]; [apply list_elem_of_here|].
    apply list_elem_of_further. now apply (IH r').
  - discriminate.
Qed.

Lemma cross_elem (wcs kts uks : list sample) (o : option Config) :
  o ∈ cross wcs kts uks ->
  exists wc kt uk, wc ∈ wcs /\ kt ∈ kts /\ uk ∈ uks /\ o = make_config wc kt uk.
Proof.
  unfold cross. intros H. apply list_elem_of_In in H.
  apply in_flat_map in H as (wc & Hwc & H).
  apply in_flat_map in H as (kt & Hkt & H).
  apply in_map_iff in H as (uk & <- & Huk).
  exists wc, kt, uk. rewrite !list_elem_of_In. auto.
Qed.

Lemma axis_values_fixed (fixed : list Z) (lo hi grid_size : Z) (vs : list sample) (v : sample) :
  grid_size <= 4 ->
  axis_values fixed lo hi grid_size = Some vs -> v ∈ vs ->
  exists n, v = SInt n /\ n ∈ fixed.
Proof.
  intros Hg. unfold axis_values. assert (E : (grid_size <=? 4) = true) by lia.
  rewrite E. intros [= <-] Hv.
  apply list_elem_of_In in Hv. apply in_map_iff in Hv as (n & <- & Hn).
  exists n. split; [reflexivity|]. apply list_elem_of_In in Hn.
  eapply elem_of_sublist; [exact Hn|apply slice_to_sublist].
Qed.

(** Every generated configuration has the three parameters of the default
    configuration and no other; for a grid size up to 4 their values come
    from the fixed tables. *)
Theorem generated_config_parameters
    (grid_size : Z) (configs : list Config) (c : Config) :
  generate_grid_configs grid_size = Some configs ->
  c ∈ configs ->
  exists wc kt uk,
    c = mkConfig (nginx_params wc kt uk) /\
    nginx c !! "worker_connections"%string = Some wc /\
    nginx c !! "keepalive_timeout"%string = Some kt /\
    nginx c !! "upstream_keepalive"%string = Some uk /\
    dom (nginx c) = dom (nginx get_default_config) /\
    (grid_size <= 4 ->
     wc ∈ [512; 1024; 1536; 2048] /\ kt ∈ [30; 60; 90; 120] /\ uk ∈ [16; 32; 48; 64]).
Proof.
  unfold generate_grid_configs. intros Hgen Hc.
  destruct (axis_values [512; 1024; 1536; 2048] 512 2048 grid_size) as [wcs|] eqn:Ew;
    [|discriminate].
  destruct (axis_values [30; 60; 90; 120] 30 120 grid_size) as [kts|] eqn:Ek;
    [|discriminate].
  destruct (axis_values [16; 32; 48; 64] 16 64 grid_size) as [uks|] eqn:Eu;
    [|discriminate].
  pose proof (all_some_elem _ _ _ Hgen Hc) as Ho.
  apply cross_elem in Ho as (swc & skt & suk & Hwc & Hkt & Huk & Hmk).
  unfold make_config in Hmk.
  destruct (py_int_sample swc) as [wc|] eqn:Pw; [|discriminate].
  destruct (py_int_sample skt) as [kt|] eqn:Pk; [|discriminate].
  destruct (py_int_sample suk) as [uk|] eqn:Pu; [|discriminate].
  inversion Hmk; subst c. exists wc, kt, uk.
  split; [reflexivity|]. split; [reflexivity|]. split; [reflexivity|].
  split; [reflexivity|]. split.
  - simpl. unfold nginx_params. now rewrite !dom_insert_L.
  - intros Hg.
    destruct (axis_values_fixed _ _ _ _ _ _ Hg Ew Hwc) as (n1 & -> & H1).
    destruct (axis_values_fixed _ _ _ _ _ _ Hg Ek Hkt) as (n2 & -> & H2).
    destruct (axis_values_fixed _ _ _ _ _ _ Hg Eu Huk) as (n3 & -> & H3).
    simpl in Pw, Pk, Pu. inversion Pw; inversion Pk; inversion Pu; subst. auto.
Qed.

Lemma generated_config_parameters_witness :
  nginx (mkConfig (nginx_params 1024 60 32)) !! "keepalive_timeout"%string = Some 60 /\
  dom (nginx (mkConfig (nginx_params 1024 60 32))) = dom (nginx get_default_config).
Proof.
  destruct (generated_config_parameters 2 (default [] (generate_grid_configs 2))
              (mkConfig (nginx_params 1024 60 32)))
    as (wc & kt & uk & Hc & _ & Hkt & _ & Hdom & _).
  - vm_compute. reflexivity.
  - vm_compute. do 7 apply list_elem_of_further. apply list_elem_of_here.
  - split; [reflexivity|exact Hdom].
Defined.

(** The first sample of a spaced axis is its lower end, exactly. *)
Lemma spaced_first (lo hi grid_size : Z) (mx : positive) (ex : Z) :
  of_Z lo = S754_finite false mx ex ->
  1 < grid_size ->
  spaced lo hi grid_size 0 = Some (SFloat (of_Z lo)).
Proof.
  intros Hlo Hg. unfold spaced, int_true_div.
  assert (E : (grid_size - 1 =? 0) = false) by lia. rewrite E.
  destruct (grid_size - 1) as [|p|p] eqn:Ep; try lia.
  simpl. now rewrite Hlo.
Qed.

Lemma axis_values_head (fixed : list Z) (lo hi grid_size : Z) (mx : positive) (ex : Z)
    (f0 : Z) (frest : list Z) (vs : list sample) :
  fixed = f0 :: frest -> f0 = lo ->
  of_Z lo = S754_finite false mx ex ->
  to_Z (of_Z lo) = Some lo ->
  1 <= grid_size ->
  axis_values fixed lo hi grid_size = Some vs ->
  exists v rest, vs = v :: rest /\ py_int_sample v = Some lo.
Proof.
  intros -> -> Hlo Hto Hg. unfold axis_values.
  destruct (grid_size <=? 4) eqn:E.
  - intros [= <-]. unfold slice_to.
    assert (E0 : (grid_size <? 0) = false) by lia. rewrite E0.
    destruct (Z.to_nat grid_size) as [|n] eqn:En; [lia|].
    simpl. eauto.
  - unfold range. destruct (Z.to_nat grid_size) as [|n] eqn:En; [lia|].
    simpl seq. simpl map.
    change (Z.of_nat 0) with 0.
    rewrite (spaced_first lo hi grid_size mx ex Hlo) by lia.
    simpl. destruct (all_some _) as [r|]; [|discriminate].
    intros [= <-]. eexists _, _. split; [reflexivity|]. exact Hto.
Qed.

(** For every grid size of at least 1 the first generated configuration is
    the lower corner of the grid: 512 connections, timeout 30, keepalive
    16. *)
Theorem grid_starts_at_lower_corner (grid_size : Z) :
  1 <= grid_size ->
  exists rest,
    generate_grid_configs grid_size = Some (mkConfig (nginx_params 512 30 16) :: rest).
Proof.
  intros Hg.
  destruct (generate_grid_configs_any grid_size) as (configs & Hgen & _).
  revert Hgen. unfold generate_grid_configs.
  destruct (axis_values [512; 1024; 1536; 2048] 512 2048 grid_size) as [wcs|] eqn:Ew;
    [|discriminate].
  destruct (axis_values [30; 60; 90; 120] 30 120 grid_size) as [kts|] eqn:Ek;
    [|discriminate].
  destruct (axis_values [16; 32; 48; 64] 16 64 grid_size) as [uks|] eqn:Eu;
    [|discriminate].
  destruct (axis_values_head [512; 1024; 1536; 2048] 512 2048 grid_size
              4503599627370496 (-43) 512 [1024; 1536; 2048] wcs
              eq_refl eq_refl eq_refl eq_refl Hg Ew) as (w0 & wr & -> & Hw).
  destruct (axis_values_head [30; 60; 90; 120] 30 120 grid_size
              8444249301319680 (-48) 30 [60; 90; 120] kts
              eq_refl eq_refl eq_refl eq_refl Hg Ek) as (k0 & kr & -> & Hk).
  destruct (axis_values_head [16; 32; 48; 64] 16 64 grid_size
              4503599627370496 (-48) 16 [32; 48; 64] uks
              eq_refl eq_refl eq_refl eq_refl Hg Eu) as (u0 & ur & -> & Hu).
  assert (Hmk : make_config w0 k0 u0 = Some (mkConfig (nginx_params 512 30 16)))
    by (unfold make_config; now rewrite Hw, Hk, Hu).
  unfold cross. simpl flat_map. simpl all_some. rewrite Hmk.
  destruct (all_some _) as [r|]; [|discriminate].
  intros _. eauto.
Qed.

Lemma grid_starts_at_lower_corner_witness :
  exists rest,
    generate_grid_configs 6 = Some (mkConfig (nginx_params 512 30 16) :: rest).
Proof. apply (grid_starts_at_lower_corner 6). lia. Defined.

End GridContents.

(* ===================================================================== *)
(** * Further properties of the report and the driver                     *)
(* ===================================================================== *)

Section ReportProperties.

Lemma py_max_first_maximum (h : list IterationRecord) :
  h <> [] ->
  exists pre b post,
    h = pre ++ b :: post /\
    py_max record_rps h = Some b /\
    (forall r, r ∈ h -> fgt (record_rps r) (record_rps b) = false) /\
    (forall r, r ∈ pre -> feq (record_rps r) (record_rps b) = false).
Proof.
  induction h as [|y h IH] using rev_ind; [congruence|]. intros _.
  destruct h as [|x h].
  - exists [], y, []. simpl. split; [reflexivity|]. split; [reflexivity|]. split.
    + intros r Hr. apply list_elem_of_singleton in Hr as ->. apply flt_irrefl.
    + intros r Hr. inversion Hr.
  - destruct IH as (pre & b & post & Hh & Hmax & Hge & Hpre); [discriminate|].
    rewrite (py_max_snoc _ y b Hmax). unfold max_step.
    destruct (fgt (record_rps y) (record_rps b)) eqn:Hgt.
    + exists (x :: h), y, []. split; [reflexivity|]. split; [reflexivity|]. split.
      * intros r Hin. apply elem_of_app in Hin as [Hin|Hin].
        -- specialize (Hge r Hin). unfold fgt in *.
           destruct (SFltb (record_rps y) (record_rps r)) eqn:E; [|reflexivity].
           rewrite <- Hge. symmetry. eapply flt_trans; [exact Hgt|exact E].
        -- apply list_elem_of_singleton in Hin as ->. apply flt_irrefl.
      * intros r Hin. specialize (Hge r Hin).
        destruct (feq (record_rps r) (record_rps y)) eqn:E; [|reflexivity].
        rewrite <- Hge. symmetry. unfold fgt. eapply feq_flt_r; [exact E|exact Hgt].
    + exists pre, b, (post ++ [y]). split; [rewrite Hh; now rewrite <- app_assoc|].
      split; [reflexivity|]. split; [|exact Hpre].
      intros r Hin. apply elem_of_app in Hin as [Hin|Hin]; [auto|].
      apply list_elem_of_singleton in Hin as ->. exact Hgt.
Qed.

(** The report generator on any history, not only one the driver built:
    it raises exactly on the empty history; otherwise it renders every
    record, and its best record is a record of the history that none
    exceeds in throughput and that no record before it in the list
    equals in throughput. *)
Theorem report_selects_first_maximum (h : list IterationRecord) :
  (generate_report h = None <-> h = []) /\
  (h <> [] ->
   exists s pre post,
     generate_report h = Some s /\
     rows s = h /\
     h = pre ++ best_iter s :: post /\
     best_rps s = record_rps (best_iter s) /\
     (forall r, r ∈ h -> fgt (record_rps r) (best_rps s) = false) /\
     (forall r, r ∈ pre -> feq (record_rps r) (best_rps s) = false) /\
     (Forall (fun r => is_nan (record_rps r) = false) h ->
      forall r, r ∈ h -> fle (record_rps r) (best_rps s) = true)).
Proof.
  split.
  - split; [|intros ->; reflexivity].
    destruct h as [|x h]; [reflexivity|]. unfold generate_report. simpl. discriminate.
  - intros Hne.
    destruct (py_max_first_maximum h Hne) as (pre & b & post & Hh & Hmax & Hge & Hpre).
    unfold generate_report. rewrite Hmax.
    destruct h as [|first rest] eqn:E; [congruence|].
    eexists _, pre, post. split; [reflexivity|]. simpl.
    split; [reflexivity|]. split; [exact Hh|]. split; [reflexivity|].
    split; [exact Hge|]. split; [exact Hpre|].
    intros Hnan r Hin. rewrite Forall_forall in Hnan.
    apply not_flt_fle; auto.
    + apply Hnan. rewrite Hh. apply elem_of_app. right. apply list_elem_of_here.
    + apply (Hge r Hin).
Qed.

Lemma report_selects_first_maximum_witness :
  exists s,
    generate_report [mkRecord 0 get_default_config zero_metrics;
                     mkRecord 1 get_default_config zero_metrics] = Some s /\
    iteration (best_iter s) = 0.
Proof.
  destruct (report_selects_first_maximum
              [mkRecord 0 get_default_config zero_metrics;
               mkRecord 1 get_default_config zero_metrics]) as [_ H].
  destruct H as (s & pre & post & Hs & _); [discriminate|].
  exists s. split; [exact Hs|].
  vm_compute in Hs. inversion Hs. reflexivity.
Defined.

Lemma fsub_self (s : bool) (m : positive) (e : Z) :
  fsub (S754_finite s m e) (S754_finite s m e) = S754_zero false.
Proof. unfold fsub, SFsub. now rewrite Z.sub_diag. Qed.

(** The improvement figure at its edges: a finite positive baseline that
    no candidate beats gives exactly 0.0; a baseline that is not greater
    than 0 (zero, negative or NaN) leaves the int 0 whatever the best
    throughput is. *)
Theorem improvement_edge_cases :
  (forall (m : positive) (e : Z),
      improvement_of (S754_finite false m e) (S754_finite false m e) = PyFloat fzero) /\
  (forall best initial : float,
      fgt initial fzero = false -> improvement_of best initial = PyInt 0) /\
  (forall best : float, improvement_of best S754_nan = PyInt 0).
Proof.
  split; [|split].
  - intros m e. unfold improvement_of.
    change (fgt (S754_finite false m e) fzero) with true. cbv iota.
    now rewrite fsub_self.
  - intros best initial H. unfold improvement_of. now rewrite H.
  - reflexivity.
Qed.

End ReportProperties.

Section DriverProperties.

Lemma fle_refl (x : float) : is_nan x = false -> fle x x = true.
Proof. intros H. apply not_flt_fle; auto. apply flt_irrefl. Qed.

Lemma fgt_nan_r (x : float) : fgt x S754_nan = false.
Proof. reflexivity. Qed.

Lemma loop_body_lower (z : float) a t i c st :
  fle z (cur_best_rps st) = true ->
  fle z (cur_best_rps (fst (loop_body a t i c st))) = true.
Proof.
  intros H. unfold loop_body. destruct t as [cw lw| |]; simpl; auto.
  destruct (reset_system false cw); simpl; auto.
  destruct (fgt _ (cur_best_rps st)) eqn:E; simpl; auto.
  apply flt_fle. eapply fle_flt_trans; [exact H|exact E].
Qed.

Lemma search_loop_lower (z : float) a w configs idxs st :
  fle z (cur_best_rps st) = true ->
  fle z (cur_best_rps (fst (search_loop a w configs idxs st))) = true.
Proof.
  revert st. induction idxs as [|i later IH]; intros st H; simpl; auto.
  destruct (i >? _); simpl; auto.
  destruct (configs !! _) as [c|]; simpl; auto.
  pose proof (loop_body_lower z a (trials w i) i c st H) as H'.
  destruct (loop_body a (trials w i) i c st) as [st1 [e|]]; simpl in *; auto.
Qed.

Lemma loop_body_nan a t i c st :
  cur_best_rps st = S754_nan ->
  cur_best_rps (fst (loop_body a t i c st)) = S754_nan /\
  cur_best_config (fst (loop_body a t i c st)) = cur_best_config st.
Proof.
  intros H. unfold loop_body. destruct t as [cw lw| |]; simpl; auto.
  destruct (reset_system false cw); simpl; auto.
  rewrite H, fgt_nan_r. simpl. auto.
Qed.

Lemma search_loop_nan a w configs idxs st :
  cur_best_rps st = S754_nan ->
  cur_best_rps (fst (search_loop a w configs idxs st)) = S754_nan /\
  cur_best_config (fst (search_loop a w configs idxs st)) = cur_best_config st.
Proof.
  revert st. induction idxs as [|i later IH]; intros st H; simpl; auto.
  destruct (i >? _); simpl; auto.
  destruct (configs !! _) as [c|]; simpl; auto.
  destruct (loop_body_nan a (trials w i) i c st H) as [H1 H2].
  destruct (loop_body a (trials w i) i c st) as [st1 [e|]]; simpl in *; auto.
  destruct (IH st1 H1) as [H3 H4]. split; [exact H3|congruence].
Qed.

(** The best-so-far throughput never falls below the baseline: with a
    baseline that is a number it stays a number and at least the baseline
    in every state the loop reaches; with a NaN baseline no candidate ever
    replaces the default configuration as best. *)
Theorem best_never_below_baseline
    (a : Args) (w : World) (configs : list Config) (idxs : list Z)
    (conf0 : option text) (m0 : Metrics) :
  let st := fst (search_loop a w configs idxs (initial_state conf0 m0)) in
  (is_nan (rps m0) = false ->
   fle (rps m0) (cur_best_rps st) = true /\ is_nan (cur_best_rps st) = false) /\
  (is_nan (rps m0) = true ->
   is_nan (cur_best_rps st) = true /\ cur_best_config st = get_default_config).
Proof.
  intros st. split.
  - intros Hn.
    assert (H : fle (rps m0) (cur_best_rps st) = true).
    { apply search_loop_lower. simpl. now apply fle_refl. }
    split; [exact H|].
    apply fle_key in H as (k1 & k2 & _ & Hk & _).
    destruct (is_nan (cur_best_rps st)) eqn:E; [|reflexivity].
    apply key_nan in E. congruence.
  - intros Hn. assert (E : rps m0 = S754_nan) by (destruct (rps m0); try discriminate; reflexivity).
    destruct (search_loop_nan a w configs idxs (initial_state conf0 m0)) as [H1 H2];
      [exact E|].
    fold st in H1, H2. rewrite H1. split; [reflexivity|exact H2].
Qed.

Lemma best_never_below_baseline_witness :
  let a := mkArgs 1 1 10 1 5 false in
  let w := mkWorld (fun _ => O) None Crashes
             (fun _ => Runs all_up (sample_load "80.0")) in
  let m0 := run_load_test 10 1 5 (sample_load "50.0") in
  fle (rps m0)
      (cur_best_rps (fst (search_loop a w [get_default_config] [1]
                            (initial_state None m0)))) = true.
Proof.
  intros a w m0.
  apply (best_never_below_baseline a w [get_default_config] [1] None m0).
  vm_compute. reflexivity.
Defined.

Lemma run_load_test_failure (users spawn_rate duration : Z) (lw : load_world) :
  load_fails duration lw ->
  exists msg, run_load_test users spawn_rate duration lw = error_metrics msg.
Proof.
  unfold load_fails, run_load_test, subprocess_run.
  intros [H|[(t & H & Ht)|[(e & H)|[H|H]]]].
  - rewrite H. eauto.
  - rewrite H. assert (E : (t <=? duration + 120) = false) by lia. rewrite E. eauto.
  - rewrite H. eauto.
  - destruct (script lw) as [t| |e]; eauto.
    destruct (t <=? duration + 120); eauto. rewrite H. simpl. eauto.
  - destruct (script lw) as [t| |e]; eauto.
    destruct (t <=? duration + 120); eauto.
    destruct (negb (results_dir_exists lw)); eauto. rewrite H. simpl. eauto.
Qed.

(** A load test that cannot deliver results does not stop the search and
    never yields the best configuration: its iteration is recorded with
    throughput 0.0 and an error text, and with a nonnegative baseline the
    best-so-far throughput and configuration stay as they were. *)
Theorem failed_load_test_is_recorded_not_best
    (a : Args) (w : World) (configs : list Config) (idxs : list Z)
    (conf0 : option text) (m0 : Metrics)
    (i : Z) (c : Config) (cw : compose) (lw : load_world) :
  fle fzero (rps m0) = true ->
  reset_system false cw = true ->
  load_fails (test_duration a) lw ->
  let st := fst (search_loop a w configs idxs (initial_state conf0 m0)) in
  let st' := fst (loop_body a (Runs cw lw) i c st) in
  snd (loop_body a (Runs cw lw) i c st) = None /\
  (exists msg, history st' = history st ++ [mkRecord i c (error_metrics msg)]) /\
  cur_best_rps st' = cur_best_rps st /\
  cur_best_config st' = cur_best_config st.
Proof.
  intros H0 Hreset Hfail st st'.
  destruct (run_load_test_failure (test_users a) (test_spawn_rate a) (test_duration a)
              lw Hfail) as [msg Hmsg].
  assert (Hst : fle fzero (cur_best_rps st) = true)
    by (apply search_loop_lower; exact H0).
  assert (E : fgt (rps (error_metrics msg)) (cur_best_rps st) = false).
  { unfold fgt. eapply feq_fle_not_flt; [|exact Hst]. reflexivity. }
  subst st'. unfold loop_body. rewrite Hreset, Hmsg. simpl negb. cbv iota.
  rewrite E. simpl. eauto.
Qed.

Lemma failed_load_test_is_recorded_not_best_witness :
  let a := mkArgs 1 1 10 1 5 false in
  let w := mkWorld (fun _ => O) None Crashes (fun _ => Crashes) in
  let st := initial_state None zero_metrics in
  cur_best_config (fst (loop_body a (Runs all_up (mkLoadWorld (Exits 126) true [])) 1
                          (mkConfig (nginx_params 512 30 16)) st))
  = get_default_config.
Proof.
  intros a w st.
  apply (failed_load_test_is_recorded_not_best a w [] [] None zero_metrics 1
           (mkConfig (nginx_params 512 30 16)) all_up (mkLoadWorld (Exits 126) true [])).
  - reflexivity.
  - reflexivity.
  - right. left. exists 126. split; [reflexivity|simpl; lia].
Defined.

End DriverProperties.

Section HistoryProperties.

Lemma loop_body_records a t i c st configs (n : Z) :
  1 <= i <= n -> i <= Z.of_nat (List.length configs) ->
  configs !! Z.to_nat (i - 1) = Some c ->
  exists extra,
    history (fst (loop_body a t i c st)) = history st ++ extra /\
    Forall (candidate_record configs n) extra.
Proof.
  intros Hi Hlen Hc. unfold loop_body.
  destruct t as [cw lw| |]; simpl;
    try (exists []; split; [now rewrite app_nil_r|constructor]).
  destruct (reset_system false cw); simpl;
    [|exists []; split; [now rewrite app_nil_r|constructor]].
  destruct (fgt _ _); simpl; eexists; (split; [reflexivity|]);
    repeat constructor; simpl; auto; lia.
Qed.

Lemma search_loop_records a w configs (n : Z) idxs st :
  Forall (fun i => 1 <= i <= n) idxs ->
  exists extra,
    history (fst (search_loop a w configs idxs st)) = history st ++ extra /\
    Forall (candidate_record configs n) extra.
Proof.
  revert st. induction idxs as [|i later IH]; intros st Hall; simpl.
  - exists []. split; [now rewrite app_nil_r|constructor].
  - inversion Hall as [|? ? Hi Hlater]; subst.
    destruct (i >? Z.of_nat (List.length configs)) eqn:E; simpl;
      [exists []; split; [now rewrite app_nil_r|constructor]|].
    destruct (configs !! Z.to_nat (i - 1)) as [c|] eqn:Hc; simpl;
      [|exists []; split; [now rewrite app_nil_r|constructor]].
    destruct (loop_body_records a (trials w i) i c st configs n Hi ltac:(lia) Hc)
      as (e1 & H1 & F1).
    destruct (loop_body a (trials w i) i c st) as [st1 [e|]]; simpl in *.
    + eauto.
    + destruct (IH st1 Hlater) as (e2 & H2 & F2).
      exists (e1 ++ e2). rewrite H2, H1, <- app_assoc. split; [reflexivity|].
      apply Forall_app. auto.
Qed.

Lemma sorted_bounded_length (l : list Z) (lo hi : Z) :
  StronglySorted Z.lt l -> Forall (fun x => lo < x <= hi) l ->
  Z.of_nat (List.length l) <= Z.max 0 (hi - lo).
Proof.
  intros Hs. revert lo. induction Hs as [|x l Hs IH Hx]; intros lo Hb; simpl; [lia|].
  inversion Hb as [|? ? Hx0 Hl]; subst.
  assert (Hl' : Forall (fun y => x < y <= hi) l).
  { rewrite Forall_forall in *. intros y Hy. specialize (Hx y Hy).
    specialize (Hl y Hy). simpl in *. lia. }
  specialize (IH x Hl'). lia.
Qed.

(** The history the loop builds: it starts with the baseline record
    (iteration 0, default configuration); every later record carries the
    candidate of its own iteration index, an index within the requested
    count and the candidate list; the indices grow strictly, so no
    iteration is recorded twice and there are at most
    [min iterations (len configs)] candidate records. *)
Theorem history_records_candidates_in_order
    (a : Args) (w : World) (configs : list Config) (n : Z)
    (conf0 : option text) (m0 : Metrics) :
  let st := fst (search_loop a w configs (range1 n) (initial_state conf0 m0)) in
  exists rest,
    history st = mkRecord 0 get_default_config m0 :: rest /\
    Forall (candidate_record configs n) rest /\
    StronglySorted Z.lt (map iteration (history st)) /\
    Z.of_nat (List.length rest) <= Z.max 0 (Z.min n (Z.of_nat (List.length configs))).
Proof.
  intros st.
  destruct (search_loop_records a w configs n (range1 n) (initial_state conf0 m0)
              (range1_bounds n)) as (rest & Hh & Hrec).
  fold st in Hh. simpl in Hh.
  destruct (search_loop_inv a w configs (Z.to_nat n) 0 (initial_state conf0 m0)
              (tracks_best_initial conf0 m0) (below_initial conf0 m0)) as [_ Hinc].
  fold (range1 n) in Hinc. fold st in Hinc. unfold increasing in Hinc.
  exists rest. split; [exact Hh|]. split; [exact Hrec|]. split; [exact Hinc|].
  rewrite Hh in Hinc. simpl in Hinc. inversion Hinc as [|? ? Hs _]; subst.
  rewrite <- (length_map iteration rest).
  replace (Z.min n (Z.of_nat (List.length configs)))
    with (Z.min n (Z.of_nat (List.length configs)) - 0) by lia.
  apply sorted_bounded_length; [exact Hs|].
  apply Forall_map. eapply Forall_impl; [exact Hrec|].
  unfold candidate_record. simpl. intros r (H1 & H2 & _). lia.
Qed.

End HistoryProperties.

Section CompletionProperties.




End CompletionProperties.

(* ===================================================================== *)
(** * Further properties of the load runner                               *)
(* ===================================================================== *)

Section LoadRunnerProperties.

Lemma insert_desc_perm (x : stats_file) (l : list stats_file) :
  insert_desc x l ≡ₚ x :: l.
Proof.
  induction l as [|y l IH]; simpl; [reflexivity|].
  destruct (st_mtime y >? st_mtime x); [|reflexivity].
  rewrite IH. apply perm_swap.
Qed.

Lemma sorted_newest_first_perm (l : list stats_file) : sorted_newest_first l ≡ₚ l.
Proof.
  induction l as [|x l IH]; simpl; [reflexivity|].
  now rewrite insert_desc_perm, IH.
Qed.

Lemma insert_desc_sorted (x : stats_file) (l : list stats_file) :
  StronglySorted (fun f g => st_mtime g <= st_mtime f) l ->
  StronglySorted (fun f g => st_mtime g <= st_mtime f) (insert_desc x l).
Proof.
  induction 1 as [|y l Hs IH Hy]; simpl; [repeat constructor|].
  destruct (st_mtime y >? st_mtime x) eqn:E.
  - constructor; [exact IH|].
    rewrite insert_desc_perm. constructor; [lia|exact Hy].
  - constructor; [constructor; assumption|].
    constructor; [lia|]. eapply Forall_impl; [exact Hy|]. simpl. intros. lia.
Qed.

Lemma sorted_newest_first_sorted (l : list stats_file) :
  StronglySorted (fun f g => st_mtime g <= st_mtime f) (sorted_newest_first l).
Proof.
  induction l as [|x l IH]; simpl; [constructor|now apply insert_desc_sorted].
Qed.

Lemma sorted_newest_first_head (pre post : list stats_file) (f : stats_file) :
  Forall (fun g => st_mtime g < st_mtime f) pre ->
  Forall (fun g => st_mtime g <= st_mtime f) post ->
  exists others, sorted_newest_first (pre ++ f :: post) = f :: others.
Proof.
  intros Hpre Hpost. induction Hpre as [|x pre Hx Hpre IH]; simpl.
  - pose proof (sorted_newest_first_perm post) as Hp.
    destruct (sorted_newest_first post) as [|y s] eqn:E; simpl; [eauto|].
    assert (Hy : st_mtime y <= st_mtime f).
    { rewrite Forall_forall in Hpost. apply Hpost. rewrite <- Hp. apply list_elem_of_here. }
    assert (E' : (st_mtime y >? st_mtime f) = false) by lia.
    rewrite E'. eauto.
  - destruct IH as [others ->]. simpl.
    assert (E : (st_mtime f >? st_mtime x) = true) by lia.
    rewrite E. eauto.
Qed.

(** The results file that is parsed.  The files are ordered from the
    newest to the oldest without losing or adding one; when the script ends
    within its time limit and the results directory exists, the metrics are
    those parsed from the file with the greatest modification time, the
    first such file in the listing if several share it, and they carry no
    error text. *)
Theorem newest_results_file_is_parsed
    (users spawn_rate duration t : Z) (w : load_world)
    (pre post : list stats_file) (f : stats_file) :
  script w = Exits t -> t <= duration + 120 ->
  results_dir_exists w = true ->
  glob_stats w = pre ++ f :: post ->
  Forall (fun g => st_mtime g < st_mtime f) pre ->
  Forall (fun g => st_mtime g <= st_mtime f) post ->
  sorted_newest_first (glob_stats w) ≡ₚ glob_stats w /\
  StronglySorted (fun g1 g2 => st_mtime g2 <= st_mtime g1)
                 (sorted_newest_first (glob_stats w)) /\
  run_load_test users spawn_rate duration w = parse_locust_results (content f).
Proof.
  intros Hs Ht Hd Hg Hpre Hpost.
  split; [apply sorted_newest_first_perm|]. split.
  - apply sorted_newest_first_sorted.
  - unfold run_load_test, subprocess_run. rewrite Hs.
    assert (E : (t <=? duration + 120) = true) by lia. rewrite E, Hd, Hg. simpl negb.
    cbv iota. destruct (sorted_newest_first_head pre post f Hpre Hpost) as [others ->].
    reflexivity.
Qed.

Lemma newest_results_file_is_parsed_witness :
  let old := mkStats 10 Unreadable in
  let new1 := mkStats 20 (Readable [Row stats_header;
                Row [""; "Aggregated"; "1000"; "10"; "12.3"; "150.5"]%string]) in
  let new2 := mkStats 20 (Readable []) in
  rps (run_load_test 100 4 60 (mkLoadWorld (Exits 61) true [old; new1; new2]))
  = fdiv (of_Z 301) (of_Z 2).
Proof.
  intros old new1 new2.
  destruct (newest_results_file_is_parsed 100 4 60 61
              (mkLoadWorld (Exits 61) true [old; new1; new2]) [old] [new2] new1)
    as (_ & _ & ->).
  - reflexivity.
  - lia.
  - reflexivity.
  - reflexivity.
  - repeat constructor.
  - repeat constructor. simpl. lia.
  - vm_compute. reflexivity.
Defined.

End LoadRunnerProperties.

(* ===================================================================== *)
(** * Further properties of the result parser                             *)
(* ===================================================================== *)

Section ResultParserProperties.

Lemma scan_cases (fieldnames : list string) (items : list read_item) (m : Metrics) :
  scan fieldnames items m = m \/
  exists d, is_aggregated d = true /\ scan fieldnames items m = fst (read_aggregated d m).
Proof.
  induction items as [|[[|c cs]|] items IH]; simpl; auto.
  destruct (is_aggregated (row_dict fieldnames (c :: cs))) eqn:E; eauto.
Qed.

Lemma read_aggregated_shape (d : gmap string (option string)) :
  let m := fst (read_aggregated d zero_metrics) in
  error m = None /\
  (exists v, avg_response_time m = Some v) /\
  (exists s, success_rate m = Some s) /\
  (exists n, total_requests m = Some n /\ 0 <= n /\
             (n = 0 -> success_rate m = Some fzero)).
Proof.
  unfold read_aggregated, bind, lift, assign, ret.
  destruct (py_float (row_get0 d "Requests/s")) as [x|]; simpl;
    [|repeat split; eauto; exists 0; repeat split; auto; lia].
  destruct (py_float (row_get0 d "Average Response Time")) as [a|]; simpl;
    [|repeat split; eauto; exists 0; repeat split; auto; lia].
  destruct (py_int (row_get0 d "Request Count")) as [t|]; simpl;
    [|repeat split; eauto; exists 0; repeat split; auto; lia].
  destruct (py_int (row_get0 d "Failure Count")) as [f|]; simpl;
    [|repeat split; eauto; exists 0; repeat split; auto; lia].
  destruct (t >? 0) eqn:E; simpl;
    [|repeat split; eauto; exists 0; repeat split; auto; lia].
  destruct (int_true_div (t - f) t) as [q|]; simpl;
    repeat split; eauto; exists t; repeat split; auto; lia.
Qed.

(** Whatever the results file holds, the metrics the parser returns have
    all four keys and no error text, a request count that is never
    negative, and a success rate that is 0.0 whenever the request count is
    0; the throughput differs from its default only if an aggregated row
    was read. *)
Theorem parse_result_shape (stats_file : artifact) :
  let m := parse_locust_results stats_file in
  error m = None /\
  (exists v, avg_response_time m = Some v) /\
  (exists s, success_rate m = Some s) /\
  (exists n, total_requests m = Some n /\ 0 <= n /\
             (n = 0 -> success_rate m = Some fzero)) /\
  (m = zero_metrics \/
   exists d, is_aggregated d = true /\ m = fst (read_aggregated d zero_metrics)).
Proof.
  assert (Hz : error zero_metrics = None /\
               (exists v, avg_response_time zero_metrics = Some v) /\
               (exists s, success_rate zero_metrics = Some s) /\
               (exists n, total_requests zero_metrics = Some n /\ 0 <= n /\
                          (n = 0 -> success_rate zero_metrics = Some fzero)) /\
               (zero_metrics = zero_metrics \/
                exists d, is_aggregated d = true /\
                          zero_metrics = fst (read_aggregated d zero_metrics))).
  { simpl. repeat split; eauto. exists 0. repeat split; auto. lia. }
  destruct stats_file as [|[|[fieldnames|] rest]]; simpl; try exact Hz.
  destruct (scan_cases fieldnames rest zero_metrics) as [->|(d & Hd & ->)]; [exact Hz|].
  destruct (read_aggregated_shape d) as (H1 & H2 & H3 & H4).
  repeat split; eauto.
Qed.

Lemma fold_insert_none_lookup (ks : list string) (d : gmap string (option string))
    (k : string) :
  k ∈ ks ->
  fold_left (fun d k => <[k := None]> d) ks d !! k = Some None.
Proof.
  revert d. induction ks as [|x ks IH]; intros d Hk; [inversion Hk|]. simpl.
  destruct (decide (k ∈ ks)) as [Hin|Hnin]; [now apply IH|].
  apply elem_of_cons in Hk as [->|Hk]; [|contradiction].
  clear IH. revert d. induction ks as [|y ks IH']; intros d; simpl.
  - apply lookup_insert_eq.
  - apply not_elem_of_cons in Hnin as [Hne Hnin].
    rewrite insert_insert_ne by congruence. now apply IH'.
Qed.

Lemma fold_insert_none_other (ks : list string) (d : gmap string (option string))
    (k : string) :
  k ∉ ks ->
  fold_left (fun d k => <[k := None]> d) ks d !! k = d !! k.
Proof.
  revert d. induction ks as [|x ks IH]; intros d Hk; simpl; [reflexivity|].
  apply not_elem_of_cons in Hk as [Hne Hk].
  rewrite IH by exact Hk. now rewrite lookup_insert_ne.
Qed.

Lemma fold_insert_pairs_other (kvs : list (string * string))
    (d : gmap string (option string)) (k : string) :
  k ∉ map fst kvs ->
  fold_left (fun d kv => <[fst kv := Some (snd kv)]> d) kvs d !! k = d !! k.
Proof.
  revert d. induction kvs as [|[x v] kvs IH]; intros d Hk; simpl; [reflexivity|].
  simpl in Hk. apply not_elem_of_cons in Hk as [Hne Hk].
  rewrite IH by exact Hk. now rewrite lookup_insert_ne.
Qed.

Lemma combine_keys (a : list string) (b : list string) (k : string) :
  k ∈ map fst (combine a b) -> k ∈ a.
Proof.
  intros H. apply list_elem_of_In in H. apply in_map_iff in H as ([x v] & <- & Hin).
  apply in_combine_l in Hin. now apply list_elem_of_In.
Qed.

Lemma row_dict_absent (fieldnames row : list string) (k : string) :
  k ∉ fieldnames -> row_dict fieldnames row !! k = None.
Proof.
  intros Hk. unfold row_dict. rewrite fold_insert_none_other.
  - rewrite fold_insert_pairs_other; [apply lookup_empty|].
    intros H. apply Hk. eapply combine_keys. exact H.
  - intros H. apply Hk. eapply elem_of_sublist; [exact H|apply sublist_drop].
Qed.

Lemma row_dict_short (fieldnames row : list string) (k : string) :
  k ∈ skipn (List.length row) fieldnames -> row_dict fieldnames row !! k = Some None.
Proof. intros Hk. unfold row_dict. now apply fold_insert_none_lookup. Qed.

(** Missing fields.  A column that the header does not name reads as the
    default 0 and converts without error; a column the header names but
    the row is too short for reads as [None] and makes the conversion
    raise.  So an aggregated row too short for its throughput field gives
    the zero metrics, and a file without a request-count column gives the
    throughput and latency read with the request count 0 and the success
    rate 0.0. *)
Theorem missing_fields_are_zero_or_errors :
  (forall (fieldnames row : list string) (k : string),
      k ∉ fieldnames ->
      py_float (row_get0 (row_dict fieldnames row) k) = Some fzero /\
      py_int (row_get0 (row_dict fieldnames row) k) = Some 0) /\
  (forall (fieldnames row : list string) (k : string),
      k ∈ skipn (List.length row) fieldnames ->
      py_float (row_get0 (row_dict fieldnames row) k) = None /\
      py_int (row_get0 (row_dict fieldnames row) k) = None) /\
  (forall (fieldnames r : list string) (pre post : list read_item),
      forallb (passed_over fieldnames) pre = true ->
      r <> [] -> is_aggregated (row_dict fieldnames r) = true ->
      "Requests/s"%string ∈ skipn (List.length r) fieldnames ->
      parse_locust_results (Readable (Row fieldnames :: pre ++ Row r :: post))
      = zero_metrics) /\
  (forall (fieldnames r : list string) (pre post : list read_item) (x a : float) (f : Z),
      forallb (passed_over fieldnames) pre = true ->
      r <> [] -> is_aggregated (row_dict fieldnames r) = true ->
      py_float (row_get0 (row_dict fieldnames r) "Requests/s") = Some x ->
      py_float (row_get0 (row_dict fieldnames r) "Average Response Time") = Some a ->
      "Request Count"%string ∉ fieldnames ->
      py_int (row_get0 (row_dict fieldnames r) "Failure Count") = Some f ->
      parse_locust_results (Readable (Row fieldnames :: pre ++ Row r :: post))
      = mkMetrics x (Some a) (Some 0) (Some fzero) None).
Proof.
  split; [|split; [|split]].
  - intros fieldnames row k Hk. unfold row_get0.
    rewrite (row_dict_absent _ _ _ Hk). split; reflexivity.
  - intros fieldnames row k Hk. unfold row_get0.
    rewrite (row_dict_short _ _ _ Hk). split; reflexivity.
  - intros fieldnames r pre post Hpre Hr Hagg Hk.
    unfold parse_locust_results. rewrite scan_passes by exact Hpre.
    destruct r as [|c cs]; [congruence|]. cbn [scan]. rewrite Hagg.
    unfold read_aggregated, bind, lift. unfold row_get0 at 1.
    now rewrite (row_dict_short _ _ _ Hk).
  - intros fieldnames r pre post x a f Hpre Hr Hagg Hx Ha Hk Hf.
    unfold parse_locust_results. rewrite scan_passes by exact Hpre.
    destruct r as [|c cs]; [congruence|]. cbn [scan]. rewrite Hagg.
    unfold read_aggregated, bind, lift, assign, ret. rewrite Hx, Ha, Hf.
    unfold row_get0 at 1. now rewrite (row_dict_absent _ _ _ Hk).
Qed.

Lemma missing_fields_are_zero_or_errors_witness :
  parse_locust_results
    (Readable [Row stats_header; Row ["Aggregated"; ""; "1000"; "10"]%string])
  = zero_metrics.
Proof.
  destruct missing_fields_are_zero_or_errors as (_ & _ & H & _).
  apply (H stats_header ["Aggregated"; ""; "1000"; "10"]%string [] []).
  - reflexivity.
  - discriminate.
  - vm_compute. reflexivity.
  - simpl. apply list_elem_of_further, list_elem_of_here.
Defined.

End ResultParserProperties.

(* ===================================================================== *)
(** * Further properties of the configuration editor                      *)
(* ===================================================================== *)

Section ConfigEditorProperties.

Lemma match_directive_spec (name l : text) (n : nat) :
  match_directive name l = Some n ->
  exists ws ds post,
    l = name ++ ws ++ ds ++ semicolon :: post /\
    ws <> [] /\ Forall (fun c => re_space c = true) ws /\
    ds <> [] /\ Forall (fun c => re_digit c = true) ds /\
    n = List.length (name ++ ws ++ ds ++ [semicolon]).
Proof.
  unfold match_directive.
  destruct (strip_prefix name l) as [rest|] eqn:Hp; [|discriminate].
  apply strip_prefix_spec in Hp.
  destruct (span_spec re_space rest) as (H1 & H2 & _).
  destruct (span re_space rest) as [ws r1]. simpl in H1, H2.
  destruct (span_spec re_digit r1) as (H3 & H4 & _).
  destruct (span re_digit r1) as [ds r2]. simpl in H3, H4.
  destruct ws as [|w ws]; [discriminate|]. destruct ds as [|d ds]; [discriminate|].
  destruct r2 as [|c r2]; [discriminate|].
  destruct (char_eqb c semicolon) eqn:E; [|discriminate].
  apply char_eqb_eq in E as ->. intros [= <-].
  exists (w :: ws), (d :: ds), r2. subst l rest r1.
  repeat split; auto; try discriminate.
  rewrite !length_app. simpl. lia.
Qed.

Lemma match_keepalive_tail_spec (l : text) (n1 nd n2 : nat) :
  match_keepalive_tail l = Some (n1, nd, n2) ->
  exists ws ds ws2 post,
    l = chars "keepalive" ++ ws ++ ds ++ ws2 ++ semicolon :: post /\
    n1 = (9 + List.length ws)%nat /\ nd = List.length ds /\
    n2 = (List.length ws2 + 1)%nat /\
    Forall (fun c => re_digit c = true) ds.
Proof.
  unfold match_keepalive_tail.
  destruct (strip_prefix (chars "keepalive") l) as [rest|] eqn:Hp; [|discriminate].
  apply strip_prefix_spec in Hp.
  destruct (span_spec re_space rest) as (H1 & _ & _).
  destruct (span re_space rest) as [ws r1]. simpl in H1.
  destruct (span_spec re_digit r1) as (H3 & H4 & _).
  destruct (span re_digit r1) as [ds r2]. simpl in H3, H4.
  destruct (span_spec re_space r2) as (H5 & _ & _).
  destruct (span re_space r2) as [ws2 r3]. simpl in H5.
  destruct ws as [|w ws]; [discriminate|]. destruct ds as [|d ds]; [discriminate|].
  destruct r3 as [|c r3]; [discriminate|].
  destruct (char_eqb c semicolon) eqn:E; [|discriminate].
  apply char_eqb_eq in E as ->. intros [= <- <- <-].
  exists (w :: ws), (d :: ds), ws2, r3. subst l rest r1 r2. auto.
Qed.

Lemma find_last_keepalive_spec (l : text) (p : nat) (x : nat * nat * nat) :
  find_last_keepalive l = Some (p, x) ->
  exists body tail,
    l = body ++ tail /\ List.length body = p /\ match_keepalive_tail tail = Some x.
Proof.
  revert p. induction l as [|c l IH]; intros p H; simpl in H; [discriminate|].
  destruct (char_eqb c close_brace); [discriminate|].
  destruct (find_last_keepalive l) as [[q y]|].
  - inversion H; subst. destruct (IH q eq_refl) as (body & tail & -> & <- & Hm).
    exists (c :: body), tail. auto.
  - destruct (match_keepalive_tail (c :: l)) as [y|] eqn:Hm; [|discriminate].
    inversion H; subst. exists [], (c :: l). auto.
Qed.

(** A match of the upstream pattern and its replacement differ in one run
    of digits only. *)
Lemma match_upstream_spec (value : Z) (l : text) (n : nat) (repl : text) :
  match_upstream value l = Some (n, repl) ->
  exists A ds B post,
    l = (A ++ ds ++ B) ++ post /\
    n = List.length (A ++ ds ++ B) /\
    repl = A ++ chars (py_str_int value) ++ B /\
    Forall (fun c => re_digit c = true) ds /\
    A <> [].
Proof.
  unfold match_upstream.
  destruct (strip_prefix upstream_open l) as [rest|] eqn:Hp; [|discriminate].
  apply strip_prefix_spec in Hp.
  destruct (find_last_keepalive rest) as [[p [[n1 nd] n2]]|] eqn:Hf; [|discriminate].
  apply find_last_keepalive_spec in Hf as (body & tail & -> & <- & Hm).
  apply match_keepalive_tail_spec in Hm as (ws & ds & ws2 & post & -> & -> & -> & -> & Hds).
  set (A := upstream_open ++ body ++ chars "keepalive" ++ ws).
  assert (HA : (List.length upstream_open + List.length body + (9 + List.length ws))%nat
               = List.length A).
  { unfold A. rewrite !length_app. simpl. lia. }
  assert (Hl : l = A ++ ds ++ (ws2 ++ [semicolon]) ++ post).
  { rewrite Hp. unfold A. rewrite <- !app_assoc. reflexivity. }
  rewrite HA. intros Heq.
  assert (Hn : n = (List.length A + List.length ds + (List.length ws2 + 1))%nat)
    by congruence.
  assert (Hr : repl = take (List.length A) l ++ chars (py_str_int value)
                        ++ take (List.length ws2 + 1)
                             (drop (List.length A + List.length ds) l))
    by congruence.
  clear Heq.
  exists A, ds, (ws2 ++ [semicolon]), post.
  split; [rewrite Hl; now rewrite <- !app_assoc|].
  split; [rewrite Hn, !length_app; simpl; lia|].
  split.
  - rewrite Hr, Hl. rewrite take_app_length. rewrite (app_assoc A ds).
    replace (List.length A + List.length ds)%nat with (List.length (A ++ ds))
      by (now rewrite length_app).
    rewrite drop_app_length.
    replace (List.length ws2 + 1)%nat with (List.length (ws2 ++ [semicolon]))
      by (rewrite length_app; reflexivity).
    now rewrite take_app_length.
  - split; [exact Hds|]. unfold A. discriminate.
Qed.

Lemma uint_digits (d : Decimal.uint) :
  Forall (fun c => re_digit c = true) (chars (NilEmpty.string_of_uint d)).
Proof. induction d; simpl; constructor; auto. Qed.

Lemma py_str_int_digits (v : Z) :
  0 <= v ->
  Forall (fun c => re_digit c = true) (chars (py_str_int v)) /\
  chars (py_str_int v) <> [].
Proof.
  intros Hv. unfold py_str_int.
  assert (H : exists d, Z.to_int v = Decimal.Pos d).
  { destruct v; simpl; eauto. lia. }
  destruct H as [d ->]. simpl. unfold NilZero.string_of_uint.
  destruct d; try (split; [apply uint_digits|discriminate]).
  split; [repeat constructor|discriminate].
Qed.

Lemma non_digits_app (a b : text) :
  non_digits (a ++ b) = non_digits a ++ non_digits b.
Proof. unfold non_digits. induction a as [|c a IH]; simpl; [reflexivity|].
  destruct (negb (re_digit c)); simpl; now rewrite IH. Qed.

Lemma non_digits_of_digits (ds : text) :
  Forall (fun c => re_digit c = true) ds -> non_digits ds = [].
Proof.
  unfold non_digits. induction 1 as [|c ds Hc _ IH]; simpl; [reflexivity|].
  now rewrite Hc.
Qed.

(** A substitution whose replacements differ from the matched text in
    digits only leaves the rest of the text as it was. *)
Lemma re_sub_non_digits (m : text -> option (nat * text)) :
  (forall l n repl, m l = Some (n, repl) ->
     exists M post, l = M ++ post /\ List.length M = n /\ M <> [] /\
                    non_digits repl = non_digits M) ->
  forall l, non_digits (re_sub m l) = non_digits l.
Proof.
  intros Hm l. remember (List.length l) as k eqn:Hk.
  revert l Hk. induction k as [k IH] using lt_wf_ind. intros l Hk.
  destruct l as [|c l]; [reflexivity|].
  destruct (m (c :: l)) as [[n repl]|] eqn:E.
  - destruct (Hm _ _ _ E) as (M & post & Hl & Hn & Hne & Hnd).
    rewrite Hl in E |- *. rewrite <- Hn in E.
    rewrite (re_sub_match m M post repl Hne E).
    rewrite !non_digits_app, Hnd. f_equal.
    apply (IH (List.length post)); [|reflexivity].
    subst k. rewrite Hl, length_app. destruct M; [congruence|simpl; lia].
  - rewrite (re_sub_copy m c l E).
    change (c :: re_sub m l) with ([c] ++ re_sub m l).
    change (c :: l) with ([c] ++ l). rewrite !non_digits_app. f_equal.
    apply (IH (List.length l)); [subst k; simpl; lia|reflexivity].
Qed.

(** Setting [upstream_keepalive] to a nonnegative value changes digits
    only: every other character of the text, and their order, is kept.
    For the file this holds of the text as it is read, in which the line
    ends [\r\n] and [\r] have become [\n]; a file without carriage
    return changes in its digits only. *)
Theorem upstream_substitution_changes_digits_only (value : Z) (content : text) :
  0 <= value ->
  non_digits (sub_upstream value content) = non_digits content /\
  exists out,
    apply_nginx_config (only_upstream_keepalive value) (Some content) = (true, Some out) /\
    non_digits out = non_digits (read_text content) /\
    (Forall (fun c => c <> carriage_return) content ->
     non_digits out = non_digits content).
Proof.
  intros Hv.
  assert (H : forall l, non_digits (sub_upstream value l) = non_digits l).
  { apply re_sub_non_digits. intros l n repl Hm.
    apply match_upstream_spec in Hm as (A & ds & B & post & Hl & Hn & Hr & Hds & HA).
    exists (A ++ ds ++ B), post. split; [exact Hl|]. split; [now rewrite Hn|].
    split; [destruct A; [congruence|discriminate]|].
    rewrite Hr, !non_digits_app.
    rewrite (non_digits_of_digits ds Hds).
    now rewrite (non_digits_of_digits _ (proj1 (py_str_int_digits value Hv))). }
  split; [apply H|].
  eexists. split; [reflexivity|].
  assert (E : non_digits
                (write_text (rewrite_content (only_upstream_keepalive value)
                               (read_text content)))
              = non_digits (read_text content)).
  { rewrite write_text_id.
    assert (E1 : only_upstream_keepalive value !! "worker_connections"%string = None)
      by reflexivity.
    assert (E2 : only_upstream_keepalive value !! "keepalive_timeout"%string = None)
      by reflexivity.
    assert (E3 : only_upstream_keepalive value !! "upstream_keepalive"%string = Some value)
      by reflexivity.
    unfold rewrite_content. rewrite E1, E2, E3. apply H. }
  split; [exact E|].
  intros Hcr. rewrite E, (read_text_id _ Hcr). reflexivity.
Qed.

Lemma upstream_substitution_changes_digits_only_witness :
  non_digits (sub_upstream 128 (chars "upstream backend { server a:80; keepalive 32 ; }"))
  = non_digits (chars "upstream backend { server a:80; keepalive 32 ; }") /\
  exists out,
    apply_nginx_config (only_upstream_keepalive 128)
      (Some (chars "upstream backend { server a:80; keepalive 32 ; }")) = (true, Some out) /\
    non_digits out = non_digits (chars "upstream backend { server a:80; keepalive 32 ; }").
Proof.
  destruct (upstream_substitution_changes_digits_only 128
              (chars "upstream backend { server a:80; keepalive 32 ; }"))
    as (H1 & out & H2 & _ & H3); [lia|].
  split; [exact H1|]. exists out. split; [exact H2|].
  apply H3. vm_compute. repeat (constructor; [discriminate|]). constructor.
Defined.

Lemma no_occurrence_tail (p : text) (c : N) (l : text) :
  ~ occurs p (c :: l) -> ~ occurs p l.
Proof.
  intros H (pre & post & ->). apply H. exists (c :: pre), post. reflexivity.
Qed.

Lemma no_occurrence_head (p l : text) :
  ~ occurs p l -> strip_prefix p l = None.
Proof.
  intros H. destruct (strip_prefix p l) as [rest|] eqn:E; [|reflexivity].
  exfalso. apply H. apply strip_prefix_spec in E. exists [], rest. exact E.
Qed.

(** A text in which a directive does not occur is left as it is: each
    substitution is the identity on a text that does not contain the
    literal its pattern starts with.  So a file whose text contains none
    of the three literals is written back as it was read, whatever the
    configuration holds: with the line ends [\r\n] and [\r] turned into
    [\n] and otherwise character for character; when it has no carriage
    return it is left as it is, byte for byte. *)
Theorem absent_directive_leaves_file_unchanged :
  (forall (name : string) (value : Z) (content : text),
      ~ occurs (chars name) content ->
      sub_directive name value content = content) /\
  (forall (value : Z) (content : text),
      ~ occurs upstream_open content ->
      sub_upstream value content = content) /\
  (forall (config : gmap string Z) (content : text),
      ~ occurs (chars "worker_connections") (read_text content) ->
      ~ occurs (chars "keepalive_timeout") (read_text content) ->
      ~ occurs upstream_open (read_text content) ->
      apply_nginx_config config (Some content) = (true, Some (read_text content)) /\
      (Forall (fun c => c <> carriage_return) content ->
       apply_nginx_config config (Some content) = (true, Some content))).
Proof.
  assert (H1 : forall (name : string) (value : Z) (content : text),
             ~ occurs (chars name) content ->
             sub_directive name value content = content).
  { intros name value content. unfold sub_directive.
    induction content as [|c l IH]; intros Hno; [reflexivity|].
    rewrite re_sub_copy.
    - f_equal. apply IH. eapply no_occurrence_tail. exact Hno.
    - unfold match_directive. now rewrite (no_occurrence_head _ _ Hno). }
  assert (H2 : forall (value : Z) (content : text),
             ~ occurs upstream_open content ->
             sub_upstream value content = content).
  { intros value content. unfold sub_upstream.
    induction content as [|c l IH]; intros Hno; [reflexivity|].
    rewrite re_sub_copy.
    - f_equal. apply IH. eapply no_occurrence_tail. exact Hno.
    - unfold match_upstream. now rewrite (no_occurrence_head _ _ Hno). }
  split; [exact H1|]. split; [exact H2|].
  intros config content Hw Hk Hu.
  assert (E : apply_nginx_config config (Some content) = (true, Some (read_text content))).
  { unfold apply_nginx_config, rewrite_content. set (t := read_text content) in *.
    assert (E1 : match config !! "worker_connections"%string with
                 | Some v => sub_directive "worker_connections" v t
                 | None => t
                 end = t)
      by (destruct (config !! "worker_connections"%string); auto).
    rewrite E1.
    assert (E2 : match config !! "keepalive_timeout"%string with
                 | Some v => sub_directive "keepalive_timeout" v t
                 | None => t
                 end = t)
      by (destruct (config !! "keepalive_timeout"%string); auto).
    rewrite E2.
    assert (E3 : match config !! "upstream_keepalive"%string with
                 | Some v => sub_upstream v t
                 | None => t
                 end = t)
      by (destruct (config !! "upstream_keepalive"%string); auto).
    rewrite E3. now rewrite write_text_id. }
  split; [exact E|].
  intros Hcr. rewrite E, (read_text_id _ Hcr). reflexivity.
Qed.

Lemma absent_directive_leaves_file_unchanged_witness :
  apply_nginx_config (nginx get_default_config) (Some (chars "events {}" ++ crlf))
  = (true, Some (chars "events {}" ++ lf)) /\
  apply_nginx_config (nginx get_default_config) (Some (chars "events {}" ++ lf))
  = (true, Some (chars "events {}" ++ lf)).
Proof.
  destruct (proj2 (proj2 absent_directive_leaves_file_unchanged)
              (nginx get_default_config) (chars "events {}" ++ crlf)) as [H _];
    try (intros (pre & post & H); cbn in H;
         do 11 (destruct pre as [|? pre]; [discriminate H|]); discriminate H).
  destruct (proj2 (proj2 absent_directive_leaves_file_unchanged)
              (nginx get_default_config) (chars "events {}" ++ lf)) as [_ H'];
    try (intros (pre & post & H0); cbn in H0;
         do 11 (destruct pre as [|? pre]; [discriminate H0|]); discriminate H0).
  split; [exact H|].
  apply H'. vm_compute. repeat (constructor; [discriminate|]). constructor.
Defined.

End ConfigEditorProperties.

Section DirectiveIdempotence.

Variable name : string.
Variable value : Z.
Hypothesis name_plain : plain_name (chars name) = true.
Hypothesis value_nonneg : 0 <= value.

Let nm : text := chars name.
Let canon : text := nm ++ chars " " ++ chars (py_str_int value) ++ [semicolon].
Let S (l : text) : text := sub_directive name value l.

Lemma plain_name_spec :
  exists c rest,
    nm = c :: rest /\
    re_space c = false /\ re_digit c = false /\ c <> semicolon /\
    forall k, (1 <= k < List.length nm)%nat -> strip_prefix (skipn k nm) nm = None.
Proof.
  unfold nm. pose proof name_plain as H. unfold plain_name in H.
  destruct (chars name) as [|c rest] eqn:E; [discriminate|].
  apply andb_true_iff in H as [H H4]. apply andb_true_iff in H as [H H3].
  apply andb_true_iff in H as [H1 H2].
  exists c, rest. split; [reflexivity|].
  split; [now destruct (re_space c)|]. split; [now destruct (re_digit c)|].
  split.
  - intros ->. now rewrite char_eqb_refl in H3.
  - intros k Hk. rewrite forallb_forall in H4.
    specialize (H4 k). unfold is_prefix in H4.
    destruct (strip_prefix (skipn k (c :: rest)) (c :: rest)); [|reflexivity].
    assert (Hin : In k (seq 1 (List.length (c :: rest) - 1))) by (apply in_seq; lia).
    specialize (H4 Hin). discriminate.
Qed.

Lemma S_match (ws ds post : text) :
  ws <> [] -> Forall (fun c => re_space c = true) ws ->
  ds <> [] -> Forall (fun c => re_digit c = true) ds ->
  S (nm ++ ws ++ ds ++ semicolon :: post) = canon ++ S post.
Proof.
  intros Hws Fws Hds Fds. unfold S, sub_directive. fold nm.
  pose proof (match_directive_at nm ws ds post Hws Fws Hds Fds) as Hm.
  replace (nm ++ ws ++ ds ++ semicolon :: post)
    with ((nm ++ ws ++ ds ++ [semicolon]) ++ post) in *
    by (now rewrite <- !app_assoc).
  rewrite re_sub_match with (repl := canon); [reflexivity| |now rewrite Hm].
  destruct plain_name_spec as (c & rest & -> & _). discriminate.
Qed.

Lemma S_copy (c : N) (l : text) :
  match_directive nm (c :: l) = None -> S (c :: l) = c :: S l.
Proof.
  intros Hm. unfold S, sub_directive. fold nm. apply re_sub_copy. now rewrite Hm.
Qed.

(** The canonical directive is matched again, whatever follows it. *)
Lemma S_canon (post : text) : S (canon ++ post) = canon ++ S post.
Proof.
  destruct (py_str_int_digits value value_nonneg) as [Hd Hne].
  assert (H : S (nm ++ chars " " ++ chars (py_str_int value) ++ semicolon :: post)
              = canon ++ S post).
  { apply S_match; auto; try discriminate; repeat constructor. }
  unfold canon in *. rewrite <- !app_assoc in *. exact H.
Qed.

(** Up to the first match the output is the input. *)
Lemma first_match_shape (l : text) :
  S l = l \/
  exists pre ws ds post,
    l = pre ++ nm ++ ws ++ ds ++ semicolon :: post /\
    S l = pre ++ canon ++ S post.
Proof.
  induction l as [|c l IH]; [left; reflexivity|].
  destruct (match_directive nm (c :: l)) as [n|] eqn:E.
  - apply match_directive_spec in E as (ws & ds & post & Hl & Hws & Fws & Hds & Fds & _).
    right. exists [], ws, ds, post. split; [exact Hl|].
    rewrite Hl. simpl. now apply S_match.
  - rewrite (S_copy c l E). destruct IH as [->|(pre & ws & ds & post & Hl & HS)].
    + now left.
    + right. exists (c :: pre), ws, ds, post. simpl. rewrite HS. now rewrite Hl at 1.
Qed.

(** A position at which the input does not match does not match in the
    output either. *)
Lemma head_match_stable (c : N) (l : text) :
  match_directive nm (c :: l) = None ->
  match_directive nm (c :: S l) = None.
Proof.
  intros Hnone.
  destruct (first_match_shape l) as [->|(pre & ws & ds & post & Hl & HS)]; [exact Hnone|].
  destruct (match_directive nm (c :: S l)) as [k|] eqn:E; [|reflexivity]. exfalso.
  apply match_directive_spec in E as (ws' & ds' & rest' & Hout & Hws' & Fws' & Hds' & Fds' & _).
  destruct plain_name_spec as (c0 & nrest & Hnm & Hsp & Hdg & Hsc & Hborder).
  rewrite HS in Hout.
  set (u := c :: pre) in *.
  change (c :: pre ++ canon ++ S post) with (u ++ canon ++ S post) in Hout.
  set (Mt := nm ++ ws' ++ ds' ++ [semicolon]).
  assert (HoutM : u ++ canon ++ S post = Mt ++ rest').
  { rewrite Hout. unfold Mt. now rewrite <- !app_assoc. }
  destruct (le_lt_dec (List.length Mt) (List.length u)) as [Hle|Hlt].
  - (* the match lies within the copied text *)
    assert (Hu : u = Mt ++ drop (List.length Mt) u).
    { rewrite <- (take_drop (List.length Mt) u) at 1. f_equal.
      rewrite <- (take_app_le u (canon ++ S post)) by exact Hle.
      rewrite HoutM. apply take_app_length. }
    assert (Hin : c :: l = nm ++ ws' ++ ds' ++ semicolon ::
                             (drop (List.length Mt) u ++ nm ++ ws ++ ds ++ semicolon :: post)).
    { rewrite Hl. change (c :: pre ++ nm ++ ws ++ ds ++ semicolon :: post)
        with (u ++ nm ++ ws ++ ds ++ semicolon :: post).
      rewrite Hu at 1. unfold Mt. now rewrite <- !app_assoc. }
    rewrite Hin in Hnone.
    rewrite (match_directive_at nm ws' ds' _ Hws' Fws' Hds' Fds') in Hnone.
    discriminate.
  - destruct (lt_dec (List.length u) (List.length nm)) as [Hshort|Hlong].
    + (* the name would overlap itself *)
      assert (Htake : nm = u ++ take (List.length nm - List.length u) nm).
      { assert (H1 : take (List.length nm) (u ++ canon ++ S post)
                     = u ++ take (List.length nm - List.length u) nm).
        { rewrite take_app. rewrite (take_ge u) by lia. f_equal.
          unfold canon. rewrite <- !app_assoc. rewrite take_app_le by lia. reflexivity. }
        rewrite <- H1, HoutM. unfold Mt. rewrite <- !app_assoc.
        symmetry. apply take_app_length. }
      assert (Hdrop : drop (List.length u) nm = take (List.length nm - List.length u) nm).
      { rewrite Htake at 1. apply drop_app_length. }
      pose proof (strip_prefix_app (take (List.length nm - List.length u) nm)
                    (drop (List.length nm - List.length u) nm)) as Hp.
      rewrite take_drop in Hp.
      assert (Hu1 : (1 <= List.length u)%nat) by (unfold u; simpl; lia).
      specialize (Hborder (List.length u) ltac:(lia)).
      rewrite Hdrop in Hborder. congruence.
    + (* the first character of the name would be part of the rest *)
      assert (Hc0 : (u ++ canon ++ S post) !! List.length u = Some c0).
      { unfold canon. rewrite Hnm. rewrite <- !app_assoc. simpl.
        apply list_lookup_middle. reflexivity. }
      rewrite HoutM in Hc0. unfold Mt in Hc0.
      rewrite <- !app_assoc in Hc0.
      rewrite lookup_app_r in Hc0 by lia.
      rewrite !app_assoc in Hc0.
      rewrite lookup_app_l in Hc0.
      2:{ unfold Mt in Hlt. rewrite !length_app in *. simpl in *. lia. }
      apply list_elem_of_lookup_2 in Hc0.
      rewrite <- !app_assoc in Hc0.
      apply elem_of_app in Hc0 as [Hc0|Hc0].
      * rewrite Forall_forall in Fws'. specialize (Fws' c0 Hc0). congruence.
      * apply elem_of_app in Hc0 as [Hc0|Hc0].
        -- rewrite Forall_forall in Fds'. specialize (Fds' c0 Hc0). congruence.
        -- apply list_elem_of_singleton in Hc0. contradiction.
Qed.

Lemma S_idempotent_upto (k : nat) :
  forall l, (List.length l <= k)%nat -> S (S l) = S l.
Proof.
  induction k as [|k IH]; intros l Hl.
  - destruct l; [reflexivity|simpl in Hl; lia].
  - destruct l as [|c l]; [reflexivity|].
    destruct (match_directive nm (c :: l)) as [n|] eqn:E.
    + apply match_directive_spec in E as (ws & ds & post & Hc & Hws & Fws & Hds & Fds & _).
      rewrite Hc. rewrite (S_match ws ds post Hws Fws Hds Fds).
      rewrite S_canon. f_equal. apply IH.
      assert (Hlen : List.length (c :: l) = List.length (nm ++ ws ++ ds ++ semicolon :: post))
        by now rewrite Hc.
      rewrite !length_app in Hlen. simpl in Hlen, Hl. lia.
    + rewrite (S_copy c l E).
      rewrite (S_copy c (S l) (head_match_stable c l E)).
      f_equal. apply IH. simpl in Hl. lia.
Qed.

Lemma S_idempotent (l : text) : S (S l) = S l.
Proof. apply (S_idempotent_upto (List.length l)). lia. Qed.

End DirectiveIdempotence.

Section ConfigEditorIdempotence.

Lemma sub_loop_forall (P : N -> Prop) (m : text -> option (nat * text)) :
  (forall l n repl, m l = Some (n, repl) -> Forall P repl) ->
  forall (l : text) (k : nat), Forall P l -> Forall P (sub_loop m k l).
Proof.
  intros Hm l. induction l as [|c l IH]; intros k H; cbn [sub_loop]; [constructor|].
  inversion H as [|? ? Hc Hl]; subst.
  destruct k as [|k]; [|now apply IH].
  destruct (m (c :: l)) as [[n repl]|] eqn:E.
  - apply Forall_app. split; [eapply Hm; exact E|now apply IH].
  - constructor; [exact Hc|now apply IH].
Qed.

(** The text a directive substitution returns for a text as read has no
    carriage return, so reading it again gives the same text. *)
Lemma sub_directive_no_cr (value : Z) (l : text) :
  0 <= value ->
  Forall (fun c => c <> carriage_return) l ->
  Forall (fun c => c <> carriage_return) (sub_directive "worker_connections" value l).
Proof.
  intros Hv Hl. unfold sub_directive, re_sub. apply sub_loop_forall; [|exact Hl].
  intros l' n repl H.
  destruct (match_directive (chars "worker_connections") l'); [|discriminate].
  assert (Hr : repl = chars "worker_connections" ++ chars " "
                        ++ chars (py_str_int value) ++ [semicolon]) by congruence.
  rewrite Hr.
  apply Forall_app. split; [repeat (constructor; [discriminate|]); constructor|].
  apply Forall_app. split; [repeat (constructor; [discriminate|]); constructor|].
  apply Forall_app. split; [|repeat (constructor; [discriminate|]); constructor].
  eapply Forall_impl; [exact (proj1 (py_str_int_digits value Hv))|].
  intros c Hc ->. discriminate.
Qed.

(** Setting [worker_connections] or [keepalive_timeout] to the same
    nonnegative value a second time changes nothing: the substitution is
    idempotent, and so is the edit of the file for that parameter. *)
Theorem directive_substitution_is_idempotent (value : Z) (content : text) :
  0 <= value ->
  sub_directive "worker_connections" value
    (sub_directive "worker_connections" value content)
  = sub_directive "worker_connections" value content /\
  sub_directive "keepalive_timeout" value
    (sub_directive "keepalive_timeout" value content)
  = sub_directive "keepalive_timeout" value content /\
  forall file : text,
    exists out,
      apply_nginx_config (only_worker_connections value) (Some file) = (true, Some out) /\
      apply_nginx_config (only_worker_connections value) (Some out) = (true, Some out).
Proof.
  intros Hv.
  assert (Hw : forall l, sub_directive "worker_connections" value
                           (sub_directive "worker_connections" value l)
                         = sub_directive "worker_connections" value l)
    by (intros l; apply S_idempotent; [vm_compute; reflexivity|exact Hv]).
  split; [apply Hw|]. split.
  - apply S_idempotent; [vm_compute; reflexivity|exact Hv].
  - intros file.
    assert (E1 : only_worker_connections value !! "worker_connections"%string = Some value)
      by reflexivity.
    assert (E2 : only_worker_connections value !! "keepalive_timeout"%string = None)
      by reflexivity.
    assert (E3 : only_worker_connections value !! "upstream_keepalive"%string = None)
      by reflexivity.
    eexists. split; [reflexivity|].
    unfold apply_nginx_config, rewrite_content. rewrite E1, E2, E3.
    rewrite !write_text_id.
    rewrite (read_text_id (sub_directive "worker_connections" value _)).
    + now rewrite Hw.
    + apply sub_directive_no_cr; [exact Hv|apply read_text_no_cr].
Qed.

Lemma directive_substitution_is_idempotent_witness :
  sub_directive "worker_connections" 2048
    (sub_directive "worker_connections" 2048 (chars "worker_connections   512;"))
  = chars "worker_connections 2048;".
Proof.
  destruct (directive_substitution_is_idempotent 2048 (chars "worker_connections   512;"))
    as (H & _); [lia|].
  rewrite H. vm_compute. reflexivity.
Defined.

End ConfigEditorIdempotence.

Section BestConfigurationProperties.

(** The configuration the driver holds as best is the default one or one
    of the candidates it was given, and it belongs to a record of the
    history with exactly the best-so-far throughput; so what [main] logs
    as best on completion is the default or one of the kept candidates. *)
Theorem best_config_is_default_or_candidate :
  (forall (a : Args) (w : World) (configs : list Config) (n : Z)
          (conf0 : option text) (m0 : Metrics),
      let st := fst (search_loop a w configs (range1 n) (initial_state conf0 m0)) in
      (cur_best_config st = get_default_config \/ cur_best_config st ∈ configs) /\
      exists b, b ∈ history st /\ config b = cur_best_config st /\
                record_rps b = cur_best_rps st) /\
  (forall (a : Args) (w : World) (brps : float) (bcfg : Config) (imp : pynum),
      final_best (main a w) = Some (brps, bcfg, imp) ->
      exists kept,
        candidates (rnd w) (grid_size a) (iterations a) = Some kept /\
        (bcfg = get_default_config \/ bcfg ∈ kept)).
Proof.
  assert (H : forall (a : Args) (w : World) (configs : list Config) (n : Z)
                     (conf0 : option text) (m0 : Metrics),
             let st := fst (search_loop a w configs (range1 n) (initial_state conf0 m0)) in
             (cur_best_config st = get_default_config \/ cur_best_config st ∈ configs) /\
             exists b, b ∈ history st /\ config b = cur_best_config st /\
                       record_rps b = cur_best_rps st).
  { intros a w configs n conf0 m0 st.
    destruct (loop_state_report a w configs n conf0 m0) as (b & s & Hb & Hr & Hc & _).
    fold st in Hb, Hr, Hc.
    destruct (search_loop_records a w configs n (range1 n) (initial_state conf0 m0)
                (range1_bounds n)) as (rest & Hh & Hrec).
    fold st in Hh. simpl in Hh.
    split; [|exists b; auto].
    rewrite Hc. rewrite Hh in Hb. apply elem_of_cons in Hb as [->|Hb]; [now left|].
    right. rewrite Forall_forall in Hrec. destruct (Hrec b Hb) as (_ & _ & Hl).
    eapply list_elem_of_lookup_2. exact Hl. }
  split; [exact H|].
  intros a w brps bcfg imp. unfold main.
  destruct (candidates _ _ _) as [kept|]; [|discriminate].
  destruct (baseline w) as [cw lw| |]; try discriminate.
  destruct (negb (reset_system (full_reset a) cw)); [discriminate|].
  set (m0 := run_load_test _ _ _ lw). set (conf0 := snd _).
  destruct (H a w kept (iterations a) conf0 m0) as [Hbest _].
  destruct (search_loop a w kept (range1 (iterations a)) (initial_state conf0 m0))
    as [st e]. simpl in Hbest.
  destruct e; try discriminate.
  unfold finish. destruct (generate_report (history st)); simpl; [|discriminate].
  intros [= <- <- <-]. exists kept. auto.
Qed.

Lemma best_config_is_default_or_candidate_witness :
  let a := mkArgs 2 1 10 1 5 false in
  let w := mkWorld (fun i => i) (Some (chars "worker_connections 1024;"))
             (Runs all_up (sample_load "50.0"))
             (fun _ => Runs all_up (sample_load "80.0")) in
  exists brps bcfg imp kept,
    final_best (main a w) = Some (brps, bcfg, imp) /\
    candidates (rnd w) (grid_size a) (iterations a) = Some kept /\
    (bcfg = get_default_config \/ bcfg ∈ kept).
Proof.
  intros a w.
  destruct (final_best (main a w)) as [[[brps bcfg] imp]|] eqn:E;
    [|vm_compute in E; discriminate E].
  destruct (proj2 best_config_is_default_or_candidate a w brps bcfg imp E)
    as (kept & Hk & Hb).
  exists brps, bcfg, imp, kept. auto.
Defined.

End BestConfigurationProperties.
